(** * lunagrid: client-side request orchestration and state synchronisation

    A shallow embedding of the logic of the report page (ReportPrice), of
    the ETL page (App.jsx) and of the authentication bar (AuthBar), with
    the properties stated about them in the specification.

    JavaScript strings are sequences of UTF-16 code units; they are
    modelled as [list N].  [String.prototype.trim] is modelled exactly
    (every ECMAScript WhiteSpace and LineTerminator is a single code unit
    of the basic plane).  [String.prototype.toLowerCase] depends on the
    Unicode case tables: the functions that use it take it as a section
    variable, so that the general results hold for every lowering
    function; the concrete examples use the ASCII lowering, which is what
    [toLowerCase] does on ASCII input. *)

From Stdlib Require Import NArith String Ascii Bool Lia.
From stdpp Require Import gmap list.

(** ** JavaScript strings *)

Abbreviation jsstring := (list N).

(** A string literal as a sequence of code units. *)
Definition js (s : string) : jsstring :=
  List.map N_of_ascii (list_ascii_of_string s).

(** ECMAScript WhiteSpace and LineTerminator code points: what
    [String.prototype.trim] strips. *)
Definition isWhiteSpace (c : N) : bool :=
  ((c =? 9) || (c =? 10) || (c =? 11) || (c =? 12) || (c =? 13) ||
  (c =? 32) || (c =? 160) || (c =? 5760) ||
  ((8192 <=? c) && (c <=? 8202)) ||
  (c =? 8232) || (c =? 8233) || (c =? 8239) || (c =? 8287) ||
  (c =? 12288) || (c =? 65279))%N.

Fixpoint trimStart (s : jsstring) : jsstring :=
  match s with
  | [] => []
  | c :: r => if isWhiteSpace c then trimStart r else s
  end.

Fixpoint trimEnd (s : jsstring) : jsstring :=
  match s with
  | [] => []
  | c :: r =>
      match trimEnd r with
      | [] => if isWhiteSpace c then [] else [c]
      | r' => c :: r'
      end
  end.

Definition trim (s : jsstring) : jsstring := trimEnd (trimStart s).

(** [toLowerCase] on ASCII input: the letters A to Z are mapped to a to z,
    every other code unit is unchanged. *)
Definition asciiLowerUnit (c : N) : N :=
  (if (65 <=? c) && (c <=? 90) then c + 32 else c)%N.

Definition asciiToLowerCase (s : jsstring) : jsstring :=
  List.map asciiLowerUnit s.

(** ** Coin lists and the watchlist (pages/ReportPrice) *)

Section Coins.

Variable toLowerCase : jsstring -> jsstring.

(** One turn of the loop of [normalizeCoinList]: [seen] is the Set of
    keys, [out] the array under construction.  The items are strings,
    for which the conversion [String(item || empty)] is the item itself. *)
Definition normalizeStep (st : gset jsstring * list jsstring)
    (item : jsstring) : gset jsstring * list jsstring :=
  let coin := trim item in
  if decide (coin = []) then st
  else
    let key := toLowerCase coin in
    if decide (key ∈ st.1) then st
    else ({[ key ]} ∪ st.1, st.2 ++ [coin]).

(** [normalizeCoinList(items)]; [None] stands for a value that is not an
    array (such as [undefined]). *)
Definition normalizeCoinList (items : option (list jsstring))
    : list jsstring :=
  match items with
  | None => []
  | Some l => (fold_left normalizeStep l (∅, [])).2
  end.

(** [new Map(entries)]: a later entry overwrites an earlier one with
    the same key. *)
Definition mapOfEntries (entries : list (jsstring * jsstring))
    : gmap jsstring jsstring :=
  fold_left (fun m e => <[ e.1 := e.2 ]> m) entries ∅.

(** The Map from lower-cased key to coin built over a coin array. *)
Definition coinsByKey (coins : list jsstring) : gmap jsstring jsstring :=
  mapOfEntries (List.map (fun coin => (toLowerCase coin, coin)) coins).

(** Truthiness of the result of [Map.prototype.get] on a Map of
    strings: [undefined] and the empty string are falsy. *)
Definition truthy (v : option jsstring) : option jsstring :=
  match v with
  | Some s => if decide (s = []) then None else Some s
  | None => None
  end.

(** [.filter(Boolean)] *)
Definition filterBoolean (l : list (option jsstring)) : list jsstring :=
  omap truthy l.

Definition detectWatchlistFromLatest
    (assetCoins usdCoins thbCoins : option (list jsstring))
    : list jsstring :=
  let available := normalizeCoinList assetCoins in
  if decide (length available = 0%nat) then []
  else
    let usdSet : gset jsstring :=
      list_to_set (List.map toLowerCase (normalizeCoinList usdCoins)) in
    let thbSet : gset jsstring :=
      list_to_set (List.map toLowerCase (normalizeCoinList thbCoins)) in
    let overlap :=
      filter (fun coin =>
                toLowerCase coin ∈ usdSet ∧ toLowerCase coin ∈ thbSet)
             available in
    if decide (length overlap = 0%nat)
    then take (Nat.min (length available) 12) available
    else overlap.

Definition reconcileWatchlist
    (prevWatchlist assetCoins usdCoins thbCoins : option (list jsstring))
    : list jsstring :=
  let available := normalizeCoinList assetCoins in
  if decide (length available = 0%nat) then []
  else
    let byKey := coinsByKey available in
    let kept :=
      filterBoolean
        (List.map (fun coin => byKey !! toLowerCase coin)
                  (normalizeCoinList prevWatchlist)) in
    if decide (length kept = 0%nat)
    then detectWatchlistFromLatest (Some available) usdCoins thbCoins
    else kept.

(** *** The selection: a JavaScript Set of strings

    A Set iterates in insertion order; it is modelled as the list of its
    elements in that order. *)

Definition setHas (x : jsstring) (s : list jsstring) : bool :=
  bool_decide (x ∈ s).

Definition setAdd (x : jsstring) (s : list jsstring) : list jsstring :=
  if setHas x s then s else s ++ [x].

Definition setDelete (x : jsstring) (s : list jsstring) : list jsstring :=
  filter (fun y => y ≠ x) s.

(** The updater of [toggleCoin]. *)
Definition toggleCoin (c : jsstring) (prev : list jsstring)
    : list jsstring :=
  if setHas c prev then setDelete c prev else setAdd c prev.

(** One turn of the loop of [orderedSelectedCoins]. *)
Definition orderedStep (availableByKey : gmap jsstring jsstring)
    (ordered : list jsstring) (coin : jsstring) : list jsstring :=
  match truthy (availableByKey !! toLowerCase coin) with
  | Some hit => ordered ++ [hit]
  | None => ordered
  end.

Definition orderedSelectedCoins (availableCoins selected : list jsstring)
    : list jsstring :=
  if decide (length selected = 0%nat ∨ length availableCoins = 0%nat)
  then []
  else
    fold_left (orderedStep (coinsByKey availableCoins)) selected [].

End Coins.


(** ** Errors and completions *)

(** An Error object, as far as the code looks at it. *)
Record JsError := { e_name : jsstring; e_message : jsstring }.

(** [new Error(message)] *)
Definition newError (message : jsstring) : JsError :=
  {| e_name := js "Error"; e_message := message |}.

(** [Error.prototype.toString] *)
Definition errorToString (e : JsError) : jsstring :=
  if decide (e_name e = []) then e_message e
  else if decide (e_message e = []) then e_name e
  else e_name e ++ js ": " ++ e_message e.

(** [String(e.message || e)] *)
Definition messageOf (e : JsError) : jsstring :=
  if decide (e_message e = []) then errorToString e else e_message e.

(** The test that the name of [e] is AbortError. *)
Definition isAbortError (e : JsError) : bool :=
  bool_decide (e_name e = js "AbortError").

(** The outcome of evaluating an expression: a value, or a thrown error. *)
Inductive Completion (A : Type) : Type :=
| Normal (a : A)
| Throw (e : JsError).
Arguments Normal {A} a.
Arguments Throw {A} e.

(** The digits of a number in a template literal. *)
Fixpoint digitsOfUint (d : Decimal.uint) : jsstring :=
  match d with
  | Decimal.Nil => []
  | Decimal.D0 r => 48%N :: digitsOfUint r
  | Decimal.D1 r => 49%N :: digitsOfUint r
  | Decimal.D2 r => 50%N :: digitsOfUint r
  | Decimal.D3 r => 51%N :: digitsOfUint r
  | Decimal.D4 r => 52%N :: digitsOfUint r
  | Decimal.D5 r => 53%N :: digitsOfUint r
  | Decimal.D6 r => 54%N :: digitsOfUint r
  | Decimal.D7 r => 55%N :: digitsOfUint r
  | Decimal.D8 r => 56%N :: digitsOfUint r
  | Decimal.D9 r => 57%N :: digitsOfUint r
  end.

(** [`HTTP ${res.status}`] *)
Definition httpStatusText (status : N) : jsstring :=
  js "HTTP " ++ digitsOfUint (N.to_uint status).

(** [a || b] on strings that may be absent: the empty string and
    [undefined] are falsy. *)
Definition orElse (a : option jsstring) (b : jsstring) : jsstring :=
  match truthy a with
  | Some s => s
  | None => b
  end.

(** ** The download file name (App.jsx and pages/ReportPrice) *)

Module Download.

Definition quote : N := 34%N.

(** The literal part of the pattern: filename= and a double quote. *)
Definition filenameOpen : jsstring := js "filename=" ++ [quote].

(** [stripPrefix p s] is what follows [p] in [s] when [s] starts with [p]. *)
Fixpoint stripPrefix (p s : jsstring) : option jsstring :=
  match p, s with
  | [], _ => Some s
  | _ :: _, [] => None
  | a :: p', b :: s' => if decide (a = b) then stripPrefix p' s' else None
  end.

(** The longest run of code units other than the quote at the head of [s],
    and what follows it. *)
Fixpoint spanNotQuote (s : jsstring) : jsstring * jsstring :=
  match s with
  | [] => ([], [])
  | c :: r =>
      if decide (c = quote) then ([], s)
      else let '(run, rest) := spanNotQuote r in (c :: run, rest)
  end.

(** A match of the pattern of the source (the literal part, then a
    captured group of one or more code units other than a double quote,
    then a double quote) that starts at the head of [s]; the result is the
    capture group.  The greedy group takes every code unit up to the next
    quote, and no shorter run can be followed by a quote. *)
Definition matchHere (s : jsstring) : option jsstring :=
  match stripPrefix filenameOpen s with
  | None => None
  | Some rest =>
      match spanNotQuote rest with
      | ([], _) => None
      | (_ :: _, []) => None
      | (name, _ :: _) => Some name
      end
  end.

(** [exec] (and [match]) of the pattern on [s]: the match at the leftmost
    position that has one; [None] is [null]. *)
Fixpoint regexExec (s : jsstring) : option jsstring :=
  match matchHere s with
  | Some name => Some name
  | None =>
      match s with
      | [] => None
      | _ :: r => regexExec r
      end
  end.

(** [parseFilenameFromDisposition(disposition)]; the argument is the
    content-disposition header of the response, [None] when the header
    is absent. *)
Definition parseFilenameFromDisposition (disposition : option jsstring)
    : option jsstring :=
  match truthy disposition with
  | None => None
  | Some d => regexExec d
  end.

(** The file name used by [onClean] (ETL flow). *)
Definition cleanFilename (header : option jsstring) : jsstring :=
  orElse (parseFilenameFromDisposition header) (js "CLEAN.csv").

(** [receiver.match(pattern)]: reading the method of [null] throws a
    TypeError. *)
Definition stringMatch (receiver : option jsstring)
    : Completion (option jsstring) :=
  match receiver with
  | None => Throw {| e_name := js "TypeError"; e_message := [] |}
  | Some s => Normal (regexExec s)
  end.

(** The file name used by [handleDownload] (report flow). *)
Definition reportFilename (header : option jsstring) : Completion jsstring :=
  let dispo := orElse header [] in
  match stringMatch (Some dispo) with
  | Throw e => Throw e
  | Normal (Some name) => Normal name
  | Normal None => Normal (js "REPORT_CLEAN.xlsx")
  end.

(** The pattern read as a relation: a match with capture [name] starts at
    position [i] of [h]. *)
Definition MatchesAt (h : jsstring) (i : nat) (name : jsstring) : Prop :=
  ∃ post, drop i h = filenameOpen ++ name ++ quote :: post
          ∧ name ≠ [] ∧ quote ∉ name.

End Download.

(** ** Web storage *)

(** [localStorage]: every access throws when storage is not accessible
    (privacy mode); [setItem] also throws when the quota is exceeded. *)
Record Storage := {
  accessible : bool;
  quotaExceeded : bool;
  items : gmap jsstring jsstring
}.

Definition getItem (k : jsstring) (st : Storage) : option (option jsstring) :=
  if accessible st then Some (items st !! k) else None.

Definition setItem (k v : jsstring) (st : Storage) : option Storage :=
  if accessible st && negb (quotaExceeded st)
  then Some {| accessible := accessible st;
               quotaExceeded := quotaExceeded st;
               items := <[ k := v ]> (items st) |}
  else None.

Definition removeItem (k : jsstring) (st : Storage) : option Storage :=
  if accessible st
  then Some {| accessible := accessible st;
               quotaExceeded := quotaExceeded st;
               items := delete k (items st) |}
  else None.

(** ** The session check (components/AuthBar) *)

Module Auth.

Definition TOKEN_KEY : jsstring := js "eglc_auth_token".

(** The storage of a browser that holds the token tok. *)
Definition storedTok : Storage :=
  {| accessible := true; quotaExceeded := false;
     items := {[ TOKEN_KEY := js "tok" ]} |}.

(** [readStoredToken()] *)
Definition readStoredToken (st : Storage) : jsstring :=
  match getItem TOKEN_KEY st with
  | Some v => orElse v []
  | None => []
  end.

(** The storage part of [writeStoredToken(token)]: a failed access is
    caught and leaves storage as it was. *)
Definition storeToken (token : jsstring) (st : Storage) : Storage :=
  let attempt :=
    if decide (token = []) then removeItem TOKEN_KEY st
    else setItem TOKEN_KEY token st in
  match attempt with
  | Some st' => st'
  | None => st
  end.

Record User := { username : jsstring }.

(** The parsed body of a response; a body that does not parse is replaced
    by the empty object, in which both fields are absent. *)
Record MeBody := { detail : option jsstring; user_field : option User }.

Definition emptyObject : MeBody := {| detail := None; user_field := None |}.

(** What the network does with the request to /api/auth/me. *)
Inductive MeFetch :=
| FetchRejects (e : JsError)
| Response (ok : bool) (status : N) (body : option MeBody).

(** [requestMe(token)], after the fetch has settled. *)
Definition requestMe (r : MeFetch) : Completion (option User) :=
  match r with
  | FetchRejects e => Throw e
  | Response ok status body =>
      let payload := default emptyObject body in
      if negb ok
      then Throw (newError (orElse (detail payload) (httpStatusText status)))
      else Normal (user_field payload)
  end.

(** The state of the component, with the storage it reads and writes.
    [aliveRun] is the run of the session-check effect whose [alive] flag is
    still true; [nextRun] numbers the runs. *)
Record AuthBar := {
  token : jsstring;
  user : option User;
  checkingSession : bool;
  storage : Storage;
  aliveRun : option nat;
  nextRun : nat
}.

(** The component as mounted over a storage. *)
Definition mount (st : Storage) : AuthBar :=
  {| token := readStoredToken st; user := None; checkingSession := false;
     storage := st; aliveRun := None; nextRun := 0 |}.

(** [writeStoredToken(token)] called inside the component: the storage
    write, then the dispatched event, whose listener [onAuthSync] sets the
    token state to what storage now holds. *)
Definition writeStoredToken (tok : jsstring) (s : AuthBar) : AuthBar :=
  let st := storeToken tok (storage s) in
  {| token := readStoredToken st; user := user s;
     checkingSession := checkingSession s; storage := st;
     aliveRun := aliveRun s; nextRun := nextRun s |}.

(** A run of the session-check effect: the cleanup of the previous run
    clears its [alive] flag, then the body runs.  The result names the run
    and the token of the request it sends, if it sends one. *)
Definition sessionEffect (s : AuthBar) : AuthBar * option (nat * jsstring) :=
  let run := nextRun s in
  if decide (token s = []) then
    ({| token := token s; user := None;
        checkingSession := checkingSession s; storage := storage s;
        aliveRun := Some run; nextRun := S run |}, None)
  else
    ({| token := token s; user := user s;
        checkingSession := true; storage := storage s;
        aliveRun := Some run; nextRun := S run |}, Some (run, token s)).

(** The [then], [catch] and [finally] handlers of the request sent by run
    [run], when the request settles with [r]. *)
Definition settleMe (run : nat) (r : MeFetch) (s : AuthBar) : AuthBar :=
  if decide (aliveRun s = Some run) then
    let s1 :=
      match requestMe r with
      | Normal nextUser =>
          {| token := token s; user := nextUser;
             checkingSession := checkingSession s; storage := storage s;
             aliveRun := aliveRun s; nextRun := nextRun s |}
      | Throw _ =>
          writeStoredToken []
            {| token := []; user := None;
               checkingSession := checkingSession s; storage := storage s;
               aliveRun := aliveRun s; nextRun := nextRun s |}
      end in
    {| token := token s1; user := user s1; checkingSession := false;
       storage := storage s1; aliveRun := aliveRun s1; nextRun := nextRun s1 |}
  else s.

End Auth.

(** ** Theme resolution (pages/ReportPrice) *)

Module Theme.

Inductive Mode := Dark | Light.

(** The test that [v] is the string dark or the string light, on a value
    that may be [null]. *)
Definition validMode (v : option jsstring) : option Mode :=
  match v with
  | None => None
  | Some s =>
      if decide (s = js "dark") then Some Dark
      else if decide (s = js "light") then Some Light
      else None
  end.

Definition THEME_KEYS : list jsstring :=
  [js "theme"; js "vite-ui-theme"; js "eglc_theme"].

(** What the code reads of an element. *)
Record Element := {
  dataTheme : option jsstring;
  classList : list jsstring
}.

(** The document: elements live in a store and are named by their
    identity; [body] and the element with id root may be missing. *)
Record Document := {
  elements : gmap nat Element;
  documentElement : nat;
  body : option nat;
  rootElement : option nat;
  rootFirstElementChild : option nat
}.

(** The environment the function reads. [matchMedia] is [None] when
    [window.matchMedia] is missing, and otherwise tells whether the query
    for a preferred dark scheme matches. *)
Record Env := {
  document : Document;
  localStorage : Storage;
  matchMedia : option bool
}.

Definition element (d : Document) (el : nat) : Element :=
  default {| dataTheme := None; classList := [] |} (elements d !! el).

(** [Array.from(new Set(els))]: a Set keeps the first occurrence of each
    element, in order. *)
Definition uniqueInOrder (els : list nat) : list nat :=
  fold_left (fun acc el => if bool_decide (el ∈ acc) then acc else acc ++ [el])
            els [].

(** [themeTargets()] *)
Definition themeTargets (d : Document) : list nat :=
  let els := [Some (documentElement d); body d] in
  let els :=
    match rootElement d with
    | Some root =>
        match rootFirstElementChild d with
        | Some child => els ++ [Some root; Some child]
        | None => els ++ [Some root]
        end
    | None => els
    end in
  uniqueInOrder (omap id els).

(** The state of the [try] block of [readTheme]: still running, returned a
    value, or thrown. *)
Inductive Flow := Running | Returned (m : Mode) | Thrown.

Definition attributeStep (d : Document) (f : Flow) (el : nat) : Flow :=
  match f with
  | Running =>
      match validMode (dataTheme (element d el)) with
      | Some m => Returned m
      | None => Running
      end
  | _ => f
  end.

Definition storageStep (st : Storage) (f : Flow) (k : jsstring) : Flow :=
  match f with
  | Running =>
      match getItem k st with
      | None => Thrown
      | Some v =>
          match validMode v with
          | Some m => Returned m
          | None => Running
          end
      end
  | _ => f
  end.

(** [readTheme()] *)
Definition readTheme (env : Env) : Mode :=
  let d := document env in
  let tried :=
    fold_left (storageStep (localStorage env)) THEME_KEYS
      (fold_left (attributeStep d) (themeTargets d) Running) in
  match tried with
  | Returned m => m
  | _ =>
      let anyDark :=
        existsb (fun el => bool_decide (js "dark" ∈ classList (element d el)))
                (themeTargets d) in
      if anyDark then Dark
      else
        match matchMedia env with
        | Some true => Dark
        | _ => Light
        end
  end.

(** *** The resolution order as the specification words it *)

(** The observed roots, in order: html, body, the root element and its
    first child. *)
Definition observedRoots (d : Document) : list nat :=
  [documentElement d]
  ++ option_list (body d)
  ++ match rootElement d with
     | Some root => root :: option_list (rootFirstElementChild d)
     | None => []
     end.

(** The first valid value of a list of candidate values. *)
Fixpoint firstValid (l : list (option jsstring)) : option Mode :=
  match l with
  | [] => None
  | v :: r =>
      match validMode v with
      | Some m => Some m
      | None => firstValid r
      end
  end.

Definition explicitAttribute (env : Env) : option Mode :=
  firstValid (List.map (fun el => dataTheme (element (document env) el))
                       (observedRoots (document env))).

(** The first valid value under the legacy keys; nothing when reading
    storage fails before a valid value is found. *)
Fixpoint legacyStored (st : Storage) (keys : list jsstring) : option Mode :=
  match keys with
  | [] => None
  | k :: r =>
      match getItem k st with
      | None => None
      | Some v =>
          match validMode v with
          | Some m => Some m
          | None => legacyStored st r
          end
      end
  end.

Definition anyRootDark (env : Env) : bool :=
  bool_decide (Exists (fun el => js "dark" ∈ classList (element (document env) el))
                      (observedRoots (document env))).

Definition prefersDark (env : Env) : bool :=
  bool_decide (matchMedia env = Some true).

Definition readPreference (env : Env) : Mode :=
  match explicitAttribute env with
  | Some m => m
  | None =>
      match legacyStored (localStorage env) THEME_KEYS with
      | Some m => m
      | None =>
          if anyRootDark env then Dark
          else if prefersDark env then Dark
          else Light
      end
  end.

End Theme.

(** [Array.prototype.join] *)
Fixpoint join (sep : jsstring) (l : list jsstring) : jsstring :=
  match l with
  | [] => []
  | [x] => x
  | x :: r => x ++ sep ++ join sep r
  end.

(** ** The report preview (pages/ReportPrice) *)

Module Report.

Inductive Asset := USD | THB.

#[global] Instance Asset_eq_dec : EqDecision Asset.
Proof. solve_decision. Defined.

Record Table := { headers : list jsstring; rows : list (list jsstring) }.

Definition EMPTY_PREVIEW : Table := {| headers := []; rows := [] |}.

(** The parsed body of a response of /api/report/preview; every field may
    be absent, and a body that does not parse is replaced by the empty
    object. *)
Record Payload := {
  detail : option jsstring;
  meta_field : option jsstring;
  coins_USD : option (list jsstring);
  coins_THB : option (list jsstring);
  rawPreview_field : option Table;
  cleanPreview_field : option Table
}.

Definition emptyObject : Payload :=
  {| detail := None; meta_field := None; coins_USD := None;
     coins_THB := None; rawPreview_field := None;
     cleanPreview_field := None |}.

(** What the network does with a request. *)
Inductive Fetch :=
| FetchRejects (e : JsError)
| Response (ok : bool) (status : N) (body : option Payload).

(** The refs and the state that [callPreview] reads and writes.  The
    AbortController of a request is named by the request id; [abortRef]
    holds the current one and [abortedSignals] the ones that were
    aborted. *)
Record View := {
  previewReqRef : nat;
  abortRef : option nat;
  abortedSignals : gset nat;
  meta : option jsstring;
  coinsUSD : list jsstring;
  coinsTHB : list jsstring;
  rawPreview : Table;
  cleanPreview : Table;
  loadingPreview : bool;
  errorMsg : jsstring
}.

Definition initialView : View :=
  {| previewReqRef := 0; abortRef := None; abortedSignals := ∅;
     meta := None; coinsUSD := []; coinsTHB := [];
     rawPreview := EMPTY_PREVIEW; cleanPreview := EMPTY_PREVIEW;
     loadingPreview := false; errorMsg := [] |}.

(** The form sent to /api/report/preview by the invocation [rq_id]. *)
Record Request := {
  rq_id : nat;
  rq_file : nat;
  rq_asset : Asset;
  rq_include_bot : bool;
  rq_coins : jsstring
}.

Record Opts := {
  o_asset : Asset;
  o_includeBot : bool;
  o_coins : list jsstring
}.

(** [areSameStringArray(a, b)] on arrays of strings. *)
Definition areSameStringArray (a b : list jsstring) : bool :=
  bool_decide (a = b).

(** [callPreview(currentFile, opts, { showLoader })] up to the point where
    it awaits the fetch. *)
Definition callPreview (currentFile : option nat) (opts : Opts)
    (showLoader : bool) (s : View) : View * option Request :=
  match currentFile with
  | None => (s, None)
  | Some f =>
      let requestId := S (previewReqRef s) in
      ({| previewReqRef := requestId;
          abortRef := Some requestId;
          abortedSignals :=
            match abortRef s with
            | Some c => {[ c ]} ∪ abortedSignals s
            | None => abortedSignals s
            end;
          meta := meta s; coinsUSD := coinsUSD s; coinsTHB := coinsTHB s;
          rawPreview := rawPreview s; cleanPreview := cleanPreview s;
          loadingPreview := if showLoader then true else loadingPreview s;
          errorMsg := [] |},
       Some {| rq_id := requestId; rq_file := f; rq_asset := o_asset opts;
               rq_include_bot := o_includeBot opts;
               rq_coins := join (js ",") (o_coins opts) |})
  end.

(** The success branch: the state setters after the staleness test. *)
Definition applyPayload (payload : Payload) (s : View) : View :=
  let nextUSD := default [] (coins_USD payload) in
  let nextTHB := default [] (coins_THB payload) in
  {| previewReqRef := previewReqRef s; abortRef := abortRef s;
     abortedSignals := abortedSignals s;
     meta := meta_field payload;
     coinsUSD :=
       if areSameStringArray (coinsUSD s) nextUSD then coinsUSD s else nextUSD;
     coinsTHB :=
       if areSameStringArray (coinsTHB s) nextTHB then coinsTHB s else nextTHB;
     rawPreview := default EMPTY_PREVIEW (rawPreview_field payload);
     cleanPreview := default EMPTY_PREVIEW (cleanPreview_field payload);
     loadingPreview := loadingPreview s; errorMsg := errorMsg s |}.

Definition setErrorMsg (msg : jsstring) (s : View) : View :=
  {| previewReqRef := previewReqRef s; abortRef := abortRef s;
     abortedSignals := abortedSignals s;
     meta := meta s; coinsUSD := coinsUSD s; coinsTHB := coinsTHB s;
     rawPreview := rawPreview s; cleanPreview := cleanPreview s;
     loadingPreview := loadingPreview s; errorMsg := msg |}.

Definition setLoadingPreview (b : bool) (s : View) : View :=
  {| previewReqRef := previewReqRef s; abortRef := abortRef s;
     abortedSignals := abortedSignals s;
     meta := meta s; coinsUSD := coinsUSD s; coinsTHB := coinsTHB s;
     rawPreview := rawPreview s; cleanPreview := cleanPreview s;
     loadingPreview := b; errorMsg := errorMsg s |}.

(** The [catch] branch of [callPreview]. *)
Definition catchBranch (requestId : nat) (e : JsError) (s : View) : View :=
  if isAbortError e || bool_decide (requestId ∈ abortedSignals s) then s
  else if decide (previewReqRef s ≠ requestId) then s
  else setErrorMsg (messageOf e) s.

(** The [finally] branch of [callPreview]. *)
Definition finallyBranch (requestId : nat) (s : View) : View :=
  if decide (previewReqRef s = requestId) then setLoadingPreview false s
  else s.

(** The rest of the invocation [requestId] of [callPreview], run when its
    fetch has settled with [r]. *)
Definition settle (requestId : nat) (r : Fetch) (s : View) : View :=
  let s1 :=
    match r with
    | FetchRejects e => catchBranch requestId e s
    | Response ok status body =>
        let payload := default emptyObject body in
        if negb ok
        then catchBranch requestId
               (newError (orElse (detail payload) (httpStatusText status))) s
        else if decide (previewReqRef s ≠ requestId) then s
        else applyPayload payload s
    end in
  finallyBranch requestId s1.

(** The cleanup that runs when the page is torn down. *)
Definition unmount (s : View) : View :=
  {| previewReqRef := previewReqRef s; abortRef := abortRef s;
     abortedSignals :=
       match abortRef s with
       | Some c => {[ c ]} ∪ abortedSignals s
       | None => abortedSignals s
       end;
     meta := meta s; coinsUSD := coinsUSD s; coinsTHB := coinsTHB s;
     rawPreview := rawPreview s; cleanPreview := cleanPreview s;
     loadingPreview := loadingPreview s; errorMsg := errorMsg s |}.

(** *** Scheduling of the preview *)

Record Config := {
  cfg_file : option nat;
  cfg_asset : Asset;
  cfg_includeBot : bool
}.

(** The values of a render that the scheduling effect depends on. *)
Record Render := {
  r_file : option nat;
  r_asset : Asset;
  r_includeBot : bool;
  r_selected : list jsstring;
  r_orderedSelectedCoins : list jsstring
}.

(** A pending [setTimeout]: the time at which it is due, and what its
    callback closes over. *)
Record Timer := {
  timerId : nat;
  due : nat;
  closure : Render;
  isBlockingPreview : bool
}.

(** The page: the view, the ref of the previous configuration, the timers
    of the event loop, the cleanup left by the last run of the effect, the
    clock (in milliseconds) and the requests sent so far. *)
Record Page := {
  view : View;
  prevPreviewConfigRef : Config;
  timers : list Timer;
  nextTimerId : nat;
  effectCleanup : option nat;
  now : nat;
  network : list Request
}.

Definition initialPage : Page :=
  {| view := initialView;
     prevPreviewConfigRef :=
       {| cfg_file := None; cfg_asset := USD; cfg_includeBot := true |};
     timers := []; nextTimerId := 0; effectCleanup := None; now := 0;
     network := [] |}.

Definition clearTimeout (tmr : nat) (ts : list Timer) : list Timer :=
  filter (fun t => timerId t ≠ tmr) ts.

(** A run of the scheduling effect for the render [r]: first the cleanup
    returned by the previous run, then the body. *)
Definition schedulingEffect (r : Render) (p : Page) : Page :=
  let ts :=
    match effectCleanup p with
    | Some tmr => clearTimeout tmr (timers p)
    | None => timers p
    end in
  match r_file r with
  | None =>
      {| view := view p;
         prevPreviewConfigRef :=
           {| cfg_file := None; cfg_asset := r_asset r;
              cfg_includeBot := r_includeBot r |};
         timers := ts; nextTimerId := nextTimerId p; effectCleanup := None;
         now := now p; network := network p |}
  | Some f =>
      let prevCfg := prevPreviewConfigRef p in
      let blocking :=
        bool_decide (cfg_file prevCfg ≠ Some f)
        || bool_decide (cfg_asset prevCfg ≠ r_asset r)
        || bool_decide (cfg_includeBot prevCfg ≠ r_includeBot r) in
      let delay := if blocking then 0 else 260 in
      let tmr := nextTimerId p in
      {| view := view p;
         prevPreviewConfigRef :=
           {| cfg_file := Some f; cfg_asset := r_asset r;
              cfg_includeBot := r_includeBot r |};
         timers := ts ++ [{| timerId := tmr; due := now p + delay;
                             closure := r; isBlockingPreview := blocking |}];
         nextTimerId := S tmr; effectCleanup := Some tmr;
         now := now p; network := network p |}
  end.

(** The callback of a timer. *)
Definition timerCallback (t : Timer) (p : Page) : Page :=
  let r := closure t in
  let selectedCoins :=
    if decide (length (r_selected r) = 0) then []
    else r_orderedSelectedCoins r in
  let '(v, sent) :=
    callPreview (r_file r)
      {| o_asset := r_asset r; o_includeBot := r_includeBot r;
         o_coins := selectedCoins |}
      (isBlockingPreview t) (view p) in
  {| view := v; prevPreviewConfigRef := prevPreviewConfigRef p;
     timers := timers p; nextTimerId := nextTimerId p;
     effectCleanup := effectCleanup p; now := now p;
     network := network p ++ option_list sent |}.

(** The timer that the event loop runs next: among the timers that are
    due, the one due first, the one set first among equals. *)
Definition nextDue (time : nat) (ts : list Timer) : option Timer :=
  fold_left
    (fun best t =>
       if decide (due t ≤ time) then
         match best with
         | Some b => if decide (due t < due b) then Some t else best
         | None => Some t
         end
       else best)
    ts None.

(** The event loop runs the timers that are due, one at a time. *)
Fixpoint runTimers (fuel : nat) (p : Page) : Page :=
  match fuel with
  | 0 => p
  | S fuel' =>
      match nextDue (now p) (timers p) with
      | None => p
      | Some t =>
          runTimers fuel'
            (timerCallback t
               {| view := view p;
                  prevPreviewConfigRef := prevPreviewConfigRef p;
                  timers := clearTimeout (timerId t) (timers p);
                  nextTimerId := nextTimerId p;
                  effectCleanup := effectCleanup p; now := now p;
                  network := network p |})
      end
  end.

(** [dt] milliseconds pass, and the timers that have become due run.  No
    callback sets a timer, so one turn per pending timer is enough. *)
Definition elapse (dt : nat) (p : Page) : Page :=
  runTimers (length (timers p))
    {| view := view p; prevPreviewConfigRef := prevPreviewConfigRef p;
       timers := timers p; nextTimerId := nextTimerId p;
       effectCleanup := effectCleanup p; now := now p + dt;
       network := network p |}.

(** A burst of parameter changes: each is a render that re-runs the
    effect, [gap] milliseconds after the previous one. *)
Fixpoint burst (changes : list (nat * Render)) (p : Page) : Page :=
  match changes with
  | [] => p
  | (gap, r) :: rest => burst rest (schedulingEffect r (elapse gap p))
  end.

(** The fetch of a request settles. *)
Definition respond (requestId : nat) (r : Fetch) (p : Page) : Page :=
  {| view := settle requestId r (view p);
     prevPreviewConfigRef := prevPreviewConfigRef p;
     timers := timers p; nextTimerId := nextTimerId p;
     effectCleanup := effectCleanup p; now := now p;
     network := network p |}.

(** Every pending timer is the one that the cleanup of the last run of
    the effect clears. *)
Definition Pending (p : Page) : Prop :=
  Forall (fun t => effectCleanup p = Some (timerId t)) (timers p).

(** A refinement change: the render has the file, the asset and the
    includeBot flag of the previous scheduled preview, and only the coin
    selection may differ. *)
Definition Refinement (cfg : Config) (r : Render) : Prop :=
  is_Some (r_file r)
  ∧ cfg_file cfg = r_file r
  ∧ cfg_asset cfg = r_asset r
  ∧ cfg_includeBot cfg = r_includeBot r.

(** A structural change: the render has a file, and the file, the asset
    or the includeBot flag differs from the previous scheduled preview. *)
Definition Structural (cfg : Config) (r : Render) : Prop :=
  is_Some (r_file r)
  ∧ (cfg_file cfg ≠ r_file r
     ∨ cfg_asset cfg ≠ r_asset r
     ∨ cfg_includeBot cfg ≠ r_includeBot r).

(** The request that the callback of a timer sends for the render [r],
    when [latest] is the latest id issued. *)
Definition requestOf (latest : nat) (f : nat) (r : Render) : Request :=
  {| rq_id := S latest; rq_file := f; rq_asset := r_asset r;
     rq_include_bot := r_includeBot r;
     rq_coins :=
       join (js ",")
         (if decide (length (r_selected r) = 0) then []
          else r_orderedSelectedCoins r) |}.

(** The page [q] is waiting on the debounce timer set for the render [r],
    and nothing else has changed since the page [p0]. *)
Definition Debouncing (p0 : Page) (r : Render) (q : Page) : Prop :=
  ∃ tmr,
    timers q = [{| timerId := tmr; due := now q + 260; closure := r;
                   isBlockingPreview := false |}]
    ∧ effectCleanup q = Some tmr
    ∧ view q = view p0
    ∧ network q = network p0
    ∧ prevPreviewConfigRef q = prevPreviewConfigRef p0.

(** A page on which the file 7 is loaded and its first preview has been
    requested, and three renders that change the coin selection only. *)
Definition loadedPage : Page :=
  elapse 0
    (schedulingEffect
       {| r_file := Some 7; r_asset := USD; r_includeBot := true;
          r_selected := []; r_orderedSelectedCoins := [] |}
       initialPage).

Definition selecting (coins : list jsstring) : Render :=
  {| r_file := Some 7; r_asset := USD; r_includeBot := true;
     r_selected := coins; r_orderedSelectedCoins := coins |}.

End Report.

(** ** The ETL preview (App.jsx) *)

Module Etl.

Record Issue := { row : N; field : jsstring; message : jsstring }.

Record Validation := {
  error_count : N;
  warning_count : N;
  errors : list Issue;
  warnings : list Issue
}.

Record Table := { columns : list jsstring; rows : list (list jsstring) }.

(** The preview state: the body of a response of /api/preview. *)
Record PreviewData := {
  summary : option jsstring;
  validation : Validation;
  preview_raw : Table;
  preview_clean : Table
}.

(** The payload that the [catch] branch puts in place of a preview. *)
Definition failurePreview (msg : jsstring) : PreviewData :=
  {| summary := None;
     validation :=
       {| error_count := 1; warning_count := 0;
          errors := [{| row := 1; field := js "Preview"; message := msg |}];
          warnings := [] |};
     preview_raw := {| columns := []; rows := [] |};
     preview_clean := {| columns := []; rows := [] |} |}.

(** What the awaited operations of a request do: one of them (the fetch,
    or the reading of the body) rejects with an error, or the response is
    not ok and its text is read, or it is ok and its body parses. *)
Inductive Fetch :=
| Rejects (e : JsError)
| NotOk (text : jsstring)
| Ok (json : PreviewData).

(** The ref and the state of the preview effect.  The AbortController of a
    request is named by the request id; [effectCleanup] is the controller
    that the cleanup of the last run of the effect aborts. *)
Record View := {
  previewReqRef : nat;
  abortedSignals : gset nat;
  effectCleanup : option nat;
  previewData : option PreviewData;
  previewLoading : bool
}.

Definition initialView : View :=
  {| previewReqRef := 0; abortedSignals := ∅; effectCleanup := None;
     previewData := None; previewLoading := false |}.

Record Request := { rq_id : nat; rq_file : nat; rq_lang : jsstring }.

(** A run of the preview effect for the file and the language of a render:
    first the cleanup returned by the previous run, then the body up to the
    point where it awaits the fetch. *)
Definition previewEffect (file : option nat) (lang : jsstring) (s : View)
    : View * option Request :=
  let aborted :=
    match effectCleanup s with
    | Some c => {[ c ]} ∪ abortedSignals s
    | None => abortedSignals s
    end in
  match file with
  | None =>
      ({| previewReqRef := previewReqRef s; abortedSignals := aborted;
          effectCleanup := None; previewData := None;
          previewLoading := previewLoading s |}, None)
  | Some f =>
      let requestId := S (previewReqRef s) in
      ({| previewReqRef := requestId; abortedSignals := aborted;
          effectCleanup := Some requestId; previewData := previewData s;
          previewLoading := true |},
       Some {| rq_id := requestId; rq_file := f; rq_lang := lang |})
  end.

Definition setPreviewData (d : option PreviewData) (s : View) : View :=
  {| previewReqRef := previewReqRef s; abortedSignals := abortedSignals s;
     effectCleanup := effectCleanup s; previewData := d;
     previewLoading := previewLoading s |}.

Definition setPreviewLoading (b : bool) (s : View) : View :=
  {| previewReqRef := previewReqRef s; abortedSignals := abortedSignals s;
     effectCleanup := effectCleanup s; previewData := previewData s;
     previewLoading := b |}.

(** The [catch] branch of the preview effect. *)
Definition catchBranch (requestId : nat) (e : JsError) (s : View) : View :=
  if negb (isAbortError e)
     && negb (bool_decide (requestId ∈ abortedSignals s))
  then
    if decide (previewReqRef s ≠ requestId) then s
    else setPreviewData (Some (failurePreview (messageOf e))) s
  else s.

(** The [finally] branch of the preview effect. *)
Definition finallyBranch (requestId : nat) (s : View) : View :=
  if decide (previewReqRef s = requestId) then setPreviewLoading false s
  else s.

(** The rest of the request [requestId], run when its awaited operations
    have settled with [r]. *)
Definition settle (requestId : nat) (r : Fetch) (s : View) : View :=
  let s1 :=
    match r with
    | Rejects e => catchBranch requestId e s
    | NotOk text => catchBranch requestId (newError text) s
    | Ok json =>
        if decide (previewReqRef s ≠ requestId) then s
        else setPreviewData (Some json) s
    end in
  finallyBranch requestId s1.

End Etl.

(** ** The coin functions as the specification words them *)

Section CoinsReference.

Variable toLowerCase : jsstring -> jsstring.

(** An entry is kept when no earlier entry has its key. *)
Fixpoint keepFirstByKey (earlier l : list jsstring) : list jsstring :=
  match l with
  | [] => []
  | x :: r =>
      if decide (toLowerCase x ∈ List.map toLowerCase earlier)
      then keepFirstByKey (earlier ++ [x]) r
      else x :: keepFirstByKey (earlier ++ [x]) r
  end.

(** Trim, drop the empty entries, remove the duplicates by key keeping the
    first seen, in the order first seen. *)
Definition normalizeReference (items : list jsstring) : list jsstring :=
  keepFirstByKey [] (filter (fun c => c ≠ []) (List.map trim items)).

(** A normalized list: every entry is trimmed and not empty, and no two
    entries have the same key. *)
Definition Normalized (l : list jsstring) : Prop :=
  Forall (fun c => trim c = c ∧ c ≠ []) l ∧ NoDup (List.map toLowerCase l).

(** [coin] matches an entry of [coins] when case is ignored. *)
Definition hasKey (coins : list jsstring) (coin : jsstring) : Prop :=
  toLowerCase coin ∈ List.map toLowerCase coins.

#[global] Instance hasKey_dec coins coin : Decision (hasKey coins coin).
Proof. unfold hasKey. apply _. Defined.

(** The four steps of reconciliation, read to the letter: the entries of
    the previous watchlist are kept as they are. *)
Definition reconcileAsStated
    (previousWatchlist availableCoins usdUniverse thbUniverse : list jsstring)
    : list jsstring :=
  let available := normalizeCoinList toLowerCase (Some availableCoins) in
  match available with
  | [] => []
  | _ =>
      match filter (hasKey available) previousWatchlist with
      | [] =>
          match filter (fun coin => hasKey usdUniverse coin
                                    ∧ hasKey thbUniverse coin) available with
          | [] => take 12 available
          | overlap => overlap
          end
      | kept => kept
      end
  end.

(** The entry of [coins] that has the key of [coin]. *)
Definition entryFor (coins : list jsstring) (coin : jsstring)
    : option jsstring :=
  List.find (fun a => bool_decide (toLowerCase a = toLowerCase coin)) coins.

(** The four steps with the previous watchlist and the universes
    normalized, and each kept entry replaced by the available coin it
    matches. *)
Definition reconcileReference
    (previousWatchlist availableCoins usdUniverse thbUniverse : list jsstring)
    : list jsstring :=
  let available := normalizeCoinList toLowerCase (Some availableCoins) in
  match available with
  | [] => []
  | _ =>
      match omap (entryFor available)
                 (normalizeCoinList toLowerCase (Some previousWatchlist)) with
      | [] =>
          match filter
                  (fun coin =>
                     hasKey (normalizeCoinList toLowerCase (Some usdUniverse)) coin
                     ∧ hasKey (normalizeCoinList toLowerCase (Some thbUniverse)) coin)
                  available with
          | [] => take 12 available
          | overlap => overlap
          end
      | kept => kept
      end
  end.

(** The selected coins in the order of the available list. *)
Definition orderedAsStated (availableCoins selected : list jsstring)
    : list jsstring :=
  filter (hasKey selected) availableCoins.

(** The last entry of [coins] that has the key [key]. *)
Definition lastWithKey (coins : list jsstring) (key : jsstring)
    : option jsstring :=
  last (filter (fun a => toLowerCase a = key) coins).

(** The selected coins in the order of the selection, each replaced by the
    available coin it matches. *)
Definition orderedReference (availableCoins selected : list jsstring)
    : list jsstring :=
  omap (fun coin => truthy (lastWithKey availableCoins (toLowerCase coin)))
       selected.

End CoinsReference.

(** ** The base of the API (lib/api.js) *)

Module Api.

Definition slash : N := 47%N.

(** The test that only slashes are left. *)
Definition onlySlashes (s : jsstring) : bool :=
  forallb (fun c => bool_decide (c = slash)) s.

(** The base with its trailing slashes replaced by nothing: the pattern
    (one or more slashes, then the end of the input) matches at the
    leftmost position from which only slashes are left, and the match
    runs to the end. *)
Fixpoint stripTrailingSlashes (s : jsstring) : jsstring :=
  match s with
  | [] => []
  | c :: r => if onlySlashes s then [] else c :: stripTrailingSlashes r
  end.

(** [API_BASE], for the value of the environment variable VITE_API_BASE
    ([None] when it is not set). *)
Definition API_BASE (raw : option jsstring) : jsstring :=
  stripTrailingSlashes (orElse raw []).

(** [path.startsWith] of a slash. *)
Definition startsWithSlash (path : jsstring) : bool :=
  match path with
  | c :: _ => bool_decide (c = slash)
  | [] => false
  end.

(** [apiUrl(path)] *)
Definition apiUrl (raw : option jsstring) (path : jsstring) : jsstring :=
  let normalizedPath := if startsWithSlash path then path else slash :: path in
  API_BASE raw ++ normalizedPath.

End Api.

(** ** Comparison of coin arrays (pages/ReportPrice) *)

(** The loop of [areSameStringArray]: [remaining] turns are left, the
    next compares the entries at index [i]. *)
Fixpoint sameEntriesFrom (remaining i : nat) (a b : list jsstring) : bool :=
  match remaining with
  | 0 => true
  | S k =>
      if decide (a !! i ≠ b !! i) then false
      else sameEntriesFrom k (S i) a b
  end.

(** [areSameStringArray(a, b)] on two arrays of strings, as the code runs
    it: the lengths are compared, then the entries index by index. *)
Definition areSameStringArrayLoop (a b : list jsstring) : bool :=
  if decide (length a ≠ length b) then false
  else sameEntriesFrom (length a) 0 a b.

(** ** Writing the theme (pages/ReportPrice and App.jsx) *)

Module ThemeSync.

Import Theme.

#[global] Instance Mode_eq_dec : EqDecision Mode.
Proof. solve_decision. Defined.

(** The string of a mode. *)
Definition modeName (m : Mode) : jsstring :=
  match m with
  | Dark => js "dark"
  | Light => js "light"
  end.

(** [classList.toggle(name, force)]: with [force] the class is added if
    it is missing, without it the class is removed. *)
Definition classToggle (name : jsstring) (force : bool)
    (classes : list jsstring) : list jsstring :=
  if force
  then if bool_decide (name ∈ classes) then classes else classes ++ [name]
  else filter (fun c => c ≠ name) classes.

(** What both writers do to one target. *)
Definition applyMode (m : Mode) (e : Element) : Element :=
  let isDark := bool_decide (m = Dark) in
  {| dataTheme := Some (modeName m);
     classList :=
       classToggle (js "light") (negb isDark)
         (classToggle (js "dark") isDark (classList e)) |}.

Definition updateElement (m : Mode) (d : Document) (el : nat) : Document :=
  {| elements := <[ el := applyMode m (element d el) ]> (elements d);
     documentElement := documentElement d;
     body := body d;
     rootElement := rootElement d;
     rootFirstElementChild := rootFirstElementChild d |}.

(** The loop that stores the mode under every key, inside [try]: the
    first failing write ends it. *)
Definition storeMode (m : Mode) (keys : list jsstring) (st : Storage)
    : Storage :=
  (fold_left
     (fun (acc : Storage * bool) k =>
        if acc.2 then acc
        else match setItem k (modeName m) acc.1 with
             | Some st' => (st', false)
             | None => (acc.1, true)
             end)
     keys (st, false)).1.

(** The page around the theme: the environment that [readTheme] reads, the
    color scheme hint of the html element, and the number of theme events
    dispatched. *)
Record Page := {
  env : Env;
  colorScheme : option Mode;
  themeEvents : nat
}.

(** The targets, the hint, the keys and the event, for a list of
    targets. *)
Definition writeTo (targets : list nat) (m : Mode) (p : Page) : Page :=
  {| env :=
       {| document := fold_left (updateElement m) targets (document (env p));
          localStorage := storeMode m THEME_KEYS (localStorage (env p));
          matchMedia := matchMedia (env p) |};
     colorScheme := Some m;
     themeEvents := S (themeEvents p) |}.

(** [writeTheme(mode)] of the report page. *)
Definition writeTheme (m : Mode) (p : Page) : Page :=
  writeTo (themeTargets (document (env p))) m p.

(** The targets of the theme effect of App: html, body and the root
    element, those that exist. *)
Definition appTargets (d : Document) : list nat :=
  omap id [Some (documentElement d); body d; rootElement d].

(** The theme effect of App, for the theme [m]. *)
Definition appThemeEffect (m : Mode) (p : Page) : Page :=
  writeTo (appTargets (document (env p))) m p.

(** The initial theme of App: the value stored under the key theme, else
    the preferred scheme. *)
Definition appInitialTheme (e : Env) : Mode :=
  let saved :=
    match getItem (js "theme") (localStorage e) with
    | Some v => validMode v
    | None => None
    end in
  match saved with
  | Some m => m
  | None =>
      match matchMedia e with
      | Some true => Dark
      | _ => Light
      end
  end.

(** The listener of the mode toggle for theme events and storage events:
    the mode is set to what [readTheme] gives. *)
Definition onSync (p : Page) (mode : Mode) : Mode :=
  let next := readTheme (env p) in
  if decide (mode = next) then mode else next.

End ThemeSync.

(** ** Runs of the two preview controllers *)

Module ReportRun.

Import Report.

(** What happens to the view: [callPreview] is invoked for a file, the
    fetch of a request settles, or the page is torn down. *)
Inductive Event :=
| Call (file : nat) (opts : Opts) (showLoader : bool)
| Settle (requestId : nat) (r : Fetch)
| Unmount.

Definition step (s : View) (e : Event) : View :=
  match e with
  | Call f opts showLoader => (callPreview (Some f) opts showLoader s).1
  | Settle requestId r => settle requestId r s
  | Unmount => unmount s
  end.

Definition run (events : list Event) : View :=
  fold_left step events initialView.

(** At most the controller of the latest request has not been aborted,
    and it is the one that [abortRef] holds. *)
Definition OneLive (s : View) : Prop :=
  (∀ id, 0 < id < previewReqRef s → id ∈ abortedSignals s)
  ∧ (abortRef s = None → previewReqRef s = 0)
  ∧ (∀ c, abortRef s = Some c → c = previewReqRef s ∧ 0 < c).

End ReportRun.

Module EtlRun.

Import Etl.

(** The cleanup of the preview effect, run when App is torn down. *)
Definition unmount (s : View) : View :=
  {| previewReqRef := previewReqRef s;
     abortedSignals :=
       match effectCleanup s with
       | Some c => {[ c ]} ∪ abortedSignals s
       | None => abortedSignals s
       end;
     effectCleanup := None; previewData := previewData s;
     previewLoading := previewLoading s |}.

(** What happens to the view: a render with a new file or language runs
    the effect, the awaited operations of a request settle, or App is torn
    down. *)
Inductive Event :=
| Render (file : option nat) (lang : jsstring)
| Settle (requestId : nat) (r : Fetch)
| Unmount.

Definition step (s : View) (e : Event) : View :=
  match e with
  | Render file lang => (previewEffect file lang s).1
  | Settle requestId r => settle requestId r s
  | Unmount => unmount s
  end.

Definition run (events : list Event) : View :=
  fold_left step events initialView.

(** Every controller but the one that the pending cleanup will abort has
    been aborted, and that one belongs to the latest request. *)
Definition OneLive (s : View) : Prop :=
  (∀ id, 0 < id ≤ previewReqRef s →
         id ∈ abortedSignals s ∨ effectCleanup s = Some id)
  ∧ (∀ c, effectCleanup s = Some c → c = previewReqRef s ∧ 0 < c).

End EtlRun.

(** ** The watchlists and the coin picker (pages/ReportPrice) *)

(** [s.includes(q)]: [q] occurs in [s]. *)
Fixpoint includes (s q : jsstring) : bool :=
  match Download.stripPrefix q s with
  | Some _ => true
  | None =>
      match s with
      | [] => false
      | _ :: r => includes r q
      end
  end.

(** [new Set(array)] of strings, in insertion order. *)
Definition setOfArray (l : list jsstring) : list jsstring :=
  fold_left (fun s x => setAdd x s) l [].

Section CoinsPage.

Variable toLowerCase : jsstring -> jsstring.

(** The state [watchlists]: a list of coins for each asset. *)
Record Watchlists := {
  wl_USD : list jsstring;
  wl_THB : list jsstring
}.

(** The updater that the watchlist effect passes to [setWatchlists]. *)
Definition reconcileWatchlists (coinsUSD coinsTHB : list jsstring)
    (prev : Watchlists) : Watchlists :=
  let nextUSD :=
    reconcileWatchlist toLowerCase (Some (wl_USD prev)) (Some coinsUSD)
      (Some coinsUSD) (Some coinsTHB) in
  let nextTHB :=
    reconcileWatchlist toLowerCase (Some (wl_THB prev)) (Some coinsTHB)
      (Some coinsUSD) (Some coinsTHB) in
  if Report.areSameStringArray (wl_USD prev) nextUSD
     && Report.areSameStringArray (wl_THB prev) nextTHB
  then prev
  else {| wl_USD := nextUSD; wl_THB := nextTHB |}.

(** The watchlist effect, run when the file or the coins of a response
    change. *)
Definition watchlistEffect (file : option nat)
    (coinsUSD coinsTHB : list jsstring) (w : Watchlists) : Watchlists :=
  match file with
  | None => w
  | Some _ =>
      if decide (length coinsUSD = 0 ∧ length coinsTHB = 0) then w
      else reconcileWatchlists coinsUSD coinsTHB w
  end.

(** [watchlistKeySet], as a membership test: the keys of the normalized
    watchlist of the asset. *)
Definition inWatchlist (watchlist : list jsstring) (coin : jsstring) : Prop :=
  toLowerCase coin
  ∈ (list_to_set
       (List.map toLowerCase
          (normalizeCoinList toLowerCase (Some watchlist))) : gset jsstring).

#[global] Instance inWatchlist_dec watchlist coin :
  Decision (inWatchlist watchlist coin).
Proof. unfold inWatchlist. apply _. Defined.

(** The coins in scope: those of the watchlist in the watchlist-only
    view, all the available coins otherwise. *)
Definition coinScope (watchlistOnly : bool)
    (watchlist availableCoins : list jsstring) : list jsstring :=
  if watchlistOnly then filter (inWatchlist watchlist) availableCoins
  else availableCoins.

(** [filteredCoins] *)
Definition filteredCoins (watchlistOnly : bool)
    (watchlist availableCoins : list jsstring) (search : jsstring)
    : list jsstring :=
  let source := coinScope watchlistOnly watchlist availableCoins in
  let q := toLowerCase (trim search) in
  if decide (q = []) then source
  else filter (fun c => includes (toLowerCase c) q = true) source.

(** [suggestions] *)
Definition suggestions (watchlistOnly : bool)
    (watchlist availableCoins : list jsstring) (search : jsstring)
    : list jsstring :=
  let q := toLowerCase (trim search) in
  if decide (q = []) then []
  else take 10 (filteredCoins watchlistOnly watchlist availableCoins search).

(** The selection that [selectAll] sets. *)
Definition selectAll (watchlistOnly : bool)
    (watchlist availableCoins : list jsstring) : list jsstring :=
  setOfArray (coinScope watchlistOnly watchlist availableCoins).

(** The selection that [clearAll] sets. *)
Definition clearAll : list jsstring := [].

End CoinsPage.

(** ** Login and logout (components/AuthBar) *)

Module AuthForm.

Import Auth.

Inductive FormMode := Login | Signup.

(** The parsed body of a response of /api/auth/login or /api/auth/signup;
    a body that does not parse is replaced by the empty object. *)
Record AuthBody := {
  b_detail : option jsstring;
  b_token : option jsstring;
  b_user : option User
}.

Definition emptyBody : AuthBody :=
  {| b_detail := None; b_token := None; b_user := None |}.

Inductive SubmitFetch :=
| SubmitRejects (e : JsError)
| SubmitResponse (ok : bool) (status : N) (body : option AuthBody).

(** The component with its form: [closeTimer] tells whether the timer set
    by [closeModal] is pending. *)
Record Panel := {
  bar : AuthBar;
  mode : option FormMode;
  modalVisible : bool;
  usernameInput : jsstring;
  passwordInput : jsstring;
  submitting : bool;
  error : jsstring;
  closeTimer : bool
}.

Record SubmitRequest := {
  sr_signup : bool;
  sr_username : jsstring;
  sr_password : jsstring
}.

(** [onSubmit] up to the point where it awaits the fetch. *)
Definition onSubmit (p : Panel) : Panel * option SubmitRequest :=
  match mode p with
  | None => (p, None)
  | Some m =>
      if submitting p then (p, None)
      else
        ({| bar := bar p; mode := mode p; modalVisible := modalVisible p;
            usernameInput := usernameInput p;
            passwordInput := passwordInput p;
            submitting := true; error := []; closeTimer := closeTimer p |},
         Some {| sr_signup := match m with Signup => true | Login => false end;
                 sr_username := trim (usernameInput p);
                 sr_password := passwordInput p |})
  end.

(** What the [try] block of [onSubmit] makes of the response: the token
    and the user, or the error it throws. *)
Definition readSubmit (r : SubmitFetch) : Completion (jsstring * User) :=
  match r with
  | SubmitRejects e => Throw e
  | SubmitResponse ok status body =>
      let payload := default emptyBody body in
      if negb ok
      then Throw (newError (orElse (b_detail payload) (httpStatusText status)))
      else
        let nextToken := orElse (b_token payload) [] in
        match b_user payload with
        | Some nextUser =>
            if decide (nextToken = [])
            then Throw (newError (js "Invalid auth response from server."))
            else Normal (nextToken, nextUser)
        | None => Throw (newError (js "Invalid auth response from server."))
        end
  end.

Definition withBar (b : AuthBar) (p : Panel) : Panel :=
  {| bar := b; mode := mode p; modalVisible := modalVisible p;
     usernameInput := usernameInput p; passwordInput := passwordInput p;
     submitting := submitting p; error := error p;
     closeTimer := closeTimer p |}.

(** [closeModal()]: the modal is hidden and the timer that resets the
    form is set anew. *)
Definition closeModal (p : Panel) : Panel :=
  {| bar := bar p; mode := mode p; modalVisible := false;
     usernameInput := usernameInput p; passwordInput := passwordInput p;
     submitting := false; error := error p; closeTimer := true |}.

(** The rest of [onSubmit], run when the fetch has settled with [r]. *)
Definition settleSubmit (r : SubmitFetch) (p : Panel) : Panel :=
  let p1 :=
    match readSubmit r with
    | Normal (nextToken, nextUser) =>
        let b := writeStoredToken nextToken (bar p) in
        closeModal
          (withBar
             {| token := nextToken; user := Some nextUser;
                checkingSession := checkingSession b; storage := storage b;
                aliveRun := aliveRun b; nextRun := nextRun b |} p)
    | Throw err =>
        {| bar := bar p; mode := mode p; modalVisible := modalVisible p;
           usernameInput := usernameInput p;
           passwordInput := passwordInput p;
           submitting := submitting p; error := messageOf err;
           closeTimer := closeTimer p |}
    end in
  {| bar := bar p1; mode := mode p1; modalVisible := modalVisible p1;
     usernameInput := usernameInput p1; passwordInput := passwordInput p1;
     submitting := false; error := error p1; closeTimer := closeTimer p1 |}.

(** [onLogout()] *)
Definition onLogout (b : AuthBar) : AuthBar :=
  let b1 := writeStoredToken [] b in
  {| token := []; user := None; checkingSession := checkingSession b1;
     storage := storage b1; aliveRun := aliveRun b1; nextRun := nextRun b1 |}.

(** The listener of storage events: another tab has changed a key. *)
Definition onStorage (key : jsstring) (newValue : option jsstring)
    (b : AuthBar) : AuthBar :=
  if decide (key ≠ TOKEN_KEY) then b
  else {| token := orElse newValue []; user := user b;
          checkingSession := checkingSession b; storage := storage b;
          aliveRun := aliveRun b; nextRun := nextRun b |}.

End AuthForm.

(** ** The download of the cleaned file (App.jsx) *)

Module EtlClean.

(** [hasErrors] *)
Definition hasErrors (previewData : option Etl.PreviewData) : bool :=
  match previewData with
  | Some d => (0 <? Etl.error_count (Etl.validation d))%N
  | None => false
  end.

(** [blockDownload] *)
Definition blockDownload (previewData : option Etl.PreviewData)
    (overrideErrors : bool) : bool :=
  hasErrors previewData && negb overrideErrors.

(** The state of App around the download. *)
Record App := {
  view : Etl.View;
  file : option nat;
  loading : bool;
  overrideErrors : bool;
  notice : jsstring
}.

Record CleanRequest := { cr_file : nat; cr_lang : jsstring }.

(** [onClean()] up to the point where it awaits the fetch. *)
Definition onClean (lang : jsstring) (a : App) : App * option CleanRequest :=
  match file a with
  | None => (a, None)
  | Some f =>
      if loading a then (a, None)
      else if blockDownload (Etl.previewData (view a)) (overrideErrors a)
      then (a, None)
      else ({| view := view a; file := file a; loading := true;
               overrideErrors := overrideErrors a; notice := notice a |},
            Some {| cr_file := f; cr_lang := lang |})
  end.

(** [onDrop(accepted)], for the first accepted file if there is one;
    [hint] is the translated notice. *)
Definition onDrop (hint : jsstring) (accepted : option nat) (a : App) : App :=
  {| view := Etl.setPreviewData None (view a); file := accepted;
     loading := loading a; overrideErrors := false;
     notice := match accepted with Some _ => hint | None => notice a end |}.

(** The awaited operations of the preview request settle. *)
Definition settlePreview (requestId : nat) (r : Etl.Fetch) (a : App) : App :=
  {| view := Etl.settle requestId r (view a); file := file a;
     loading := loading a; overrideErrors := overrideErrors a;
     notice := notice a |}.

End EtlClean.

(** ** The download of the report (pages/ReportPrice) *)

Module ReportDownload.

Import Report.

Record DownloadRequest := {
  dl_file : nat;
  dl_asset : Asset;
  dl_include_bot : bool;
  dl_coins : jsstring
}.

(** [handleDownload()] up to the point where it awaits the fetch, for the
    values of a render. *)
Definition handleDownload (r : Render) : option DownloadRequest :=
  match r_file r with
  | None => None
  | Some f =>
      if decide (length (r_selected r) = 0) then None
      else Some {| dl_file := f; dl_asset := r_asset r;
                   dl_include_bot := r_includeBot r;
                   dl_coins := join (js ",") (r_orderedSelectedCoins r) |}
  end.

End ReportDownload.

(** ** The language (i18n.js) *)

Module Lang.

Import Theme ThemeSync.

Definition LANG_STORAGE_KEY : jsstring := js "eglc_lang".
Definition SUPPORTED : list jsstring := [js "th"; js "en"].
Definition LANG_TRANSITION_CLASS : jsstring := js "lang-switching".
Definition LANG_TRANSITION_MS : nat := 260.

(** [SUPPORTED.includes(l)] *)
Definition supported (l : jsstring) : bool := bool_decide (l ∈ SUPPORTED).

(** [s.startsWith(p)] *)
Definition startsWith (s p : jsstring) : bool :=
  match Download.stripPrefix p s with
  | Some _ => true
  | None => false
  end.

(** A pending timeout of [animateLanguageSwitch], with the targets that
    its callback closes over. *)
Record LangTimer := {
  lt_id : nat;
  lt_due : nat;
  lt_targets : list nat
}.

(** The language of i18n (what [resolvedLanguage || language] gives), the
    storage, the document, the timers of the event loop, the module
    variable [langTransitionTimer] and the clock in milliseconds. *)
Record World := {
  language : jsstring;
  langStorage : Storage;
  page : Document;
  langTimers : list LangTimer;
  langTransitionTimer : option nat;
  nextLangTimer : nat;
  langClock : nat
}.

(** [classList.add] or [classList.remove] of the transition class on one
    element. *)
Definition markElement (on : bool) (d : Document) (el : nat) : Document :=
  {| elements :=
       <[ el := {| dataTheme := dataTheme (element d el);
                   classList :=
                     classToggle LANG_TRANSITION_CLASS on
                       (classList (element d el)) |} ]> (elements d);
     documentElement := documentElement d;
     body := body d;
     rootElement := rootElement d;
     rootFirstElementChild := rootFirstElementChild d |}.

(** [animateLanguageSwitch()]; the id of a timeout is a positive number,
    so a held timer is always cleared. *)
Definition animateLanguageSwitch (w : World) : World :=
  let targets := appTargets (page w) in
  let tmr := nextLangTimer w in
  {| language := language w;
     langStorage := langStorage w;
     page := fold_left (markElement true) targets (page w);
     langTimers :=
       match langTransitionTimer w with
       | Some held => filter (fun t => lt_id t ≠ held) (langTimers w)
       | None => langTimers w
       end
       ++ [{| lt_id := tmr; lt_due := langClock w + LANG_TRANSITION_MS;
              lt_targets := targets |}];
     langTransitionTimer := Some tmr;
     nextLangTimer := S tmr;
     langClock := langClock w |}.

(** The callback of the timeout. *)
Definition langTimerCallback (t : LangTimer) (w : World) : World :=
  {| language := language w;
     langStorage := langStorage w;
     page := fold_left (markElement false) (lt_targets t) (page w);
     langTimers := langTimers w;
     langTransitionTimer := None;
     nextLangTimer := nextLangTimer w;
     langClock := langClock w |}.

(** The timer that the event loop runs next, as for the report page. *)
Definition nextLangDue (time : nat) (ts : list LangTimer) : option LangTimer :=
  fold_left
    (fun best t =>
       if decide (lt_due t ≤ time) then
         match best with
         | Some b => if decide (lt_due t < lt_due b) then Some t else best
         | None => Some t
         end
       else best)
    ts None.

Fixpoint runLangTimers (fuel : nat) (w : World) : World :=
  match fuel with
  | 0 => w
  | S fuel' =>
      match nextLangDue (langClock w) (langTimers w) with
      | None => w
      | Some t =>
          runLangTimers fuel'
            (langTimerCallback t
               {| language := language w; langStorage := langStorage w;
                  page := page w;
                  langTimers :=
                    filter (fun x => lt_id x ≠ lt_id t) (langTimers w);
                  langTransitionTimer := langTransitionTimer w;
                  nextLangTimer := nextLangTimer w;
                  langClock := langClock w |})
      end
  end.

(** [dt] milliseconds pass, and the timers that have become due run. *)
Definition langElapse (dt : nat) (w : World) : World :=
  runLangTimers (length (langTimers w))
    {| language := language w; langStorage := langStorage w;
       page := page w; langTimers := langTimers w;
       langTransitionTimer := langTransitionTimer w;
       nextLangTimer := nextLangTimer w;
       langClock := langClock w + dt |}.

(** Switches that follow one another, each [gap] milliseconds after the
    previous one. *)
Fixpoint animateBurst (gaps : list nat) (w : World) : World :=
  match gaps with
  | [] => w
  | gap :: rest => animateBurst rest (animateLanguageSwitch (langElapse gap w))
  end.

(** The timer that [langTransitionTimer] holds is the only one pending. *)
Definition OneTimer (w : World) : Prop :=
  Forall (fun t => langTransitionTimer w = Some (lt_id t)) (langTimers w).

(** The world just after a switch that started from the page [d0]: one
    timer is pending, due in 260 ms at the latest, it is the one held,
    and the targets carry the class. *)
Definition Armed (d0 : Document) (w : World) : Prop :=
  ∃ t,
    langTimers w = [t]
    ∧ langTransitionTimer w = Some (lt_id t)
    ∧ lt_due t = langClock w + LANG_TRANSITION_MS
    ∧ lt_targets t = appTargets d0
    ∧ appTargets (page w) = appTargets d0
    ∧ (∀ x, x ∈ appTargets d0 →
            LANG_TRANSITION_CLASS ∈ classList (element (page w) x))
    ∧ (∀ x c, c ≠ LANG_TRANSITION_CLASS →
              c ∈ classList (element (page w) x)
              ↔ c ∈ classList (element d0 x)).

Section WithLower.

Variable toLowerCase : jsstring -> jsstring.

(** [getInitialLang()], for the language of the navigator. *)
Definition getInitialLang (st : Storage) (navigatorLanguage : option jsstring)
    : jsstring :=
  match getItem LANG_STORAGE_KEY st with
  | None => js "en"
  | Some saved =>
      match truthy saved with
      | Some s =>
          if supported s then s
          else if startsWith (toLowerCase (orElse navigatorLanguage []))
                    (js "th")
               then js "th" else js "en"
      | None =>
          if startsWith (toLowerCase (orElse navigatorLanguage [])) (js "th")
          then js "th" else js "en"
      end
  end.

(** [setAppLanguage(lng)]; [i18n.changeLanguage] makes the language it is
    given, one of the supported ones, the language of i18n. *)
Definition setAppLanguage (lng : jsstring) (w : World) : World :=
  let next := if supported lng then lng else js "en" in
  let current := trim (toLowerCase (language w)) in
  if startsWith current next then w
  else
    let w1 := animateLanguageSwitch w in
    {| language := next;
       langStorage :=
         match setItem LANG_STORAGE_KEY next (langStorage w1) with
         | Some st => st
         | None => langStorage w1
         end;
       page := page w1;
       langTimers := langTimers w1;
       langTransitionTimer := langTransitionTimer w1;
       nextLangTimer := nextLangTimer w1;
       langClock := langClock w1 |}.

End WithLower.

End Lang.

(** A world in which nothing is pending: the page has html, body and the
    root element, the language is English. *)
Definition quietWorld : Lang.World :=
  {| Lang.language := js "en";
     Lang.langStorage :=
       {| accessible := true; quotaExceeded := false; items := ∅ |};
     Lang.page :=
       {| Theme.elements := ∅; Theme.documentElement := 0;
          Theme.body := Some 1; Theme.rootElement := Some 2;
          Theme.rootFirstElementChild := None |};
     Lang.langTimers := [];
     Lang.langTransitionTimer := None;
     Lang.nextLangTimer := 1;
     Lang.langClock := 0 |}.

(** ** The page transition (Root.jsx) *)

Module PageTransition.

Definition PAGE_TRANSITION_EXIT_MS : nat := 190.
Definition PAGE_TRANSITION_ENTER_MS : nat := 430.

Inductive Phase := idle | exit | enter.

(** The three callbacks that the effect nests; the first two close over
    the path of the render whose effect set them. *)
Inductive Callback :=
| startExit (path : jsstring)
| showPage (path : jsstring)
| backToIdle.

Record PageTimer := {
  pt_id : nat;
  pt_due : nat;
  pt_run : Callback
}.

(** The state of Root that the transition effect reads and writes, the
    timers of the event loop, the clock in milliseconds, and what React
    keeps of the last run of the effect: whether it returned a cleanup,
    and its dependencies. *)
Record Router := {
  path : jsstring;
  displayPath : jsstring;
  pageTransitionPhase : Phase;
  pageTimers : list PageTimer;
  pageTransitionTimerRef : option nat;
  nextPageTimer : nat;
  pageClock : nat;
  hasCleanup : bool;
  effectDeps : jsstring * jsstring
}.

(** [clearPageTransitionTimer()]; the id of a timeout is a positive
    number, so a held timer is always cleared. *)
Definition clearPageTransitionTimer (r : Router) : Router :=
  match pageTransitionTimerRef r with
  | Some held =>
      {| path := path r; displayPath := displayPath r;
         pageTransitionPhase := pageTransitionPhase r;
         pageTimers := filter (fun t => pt_id t ≠ held) (pageTimers r);
         pageTransitionTimerRef := None;
         nextPageTimer := nextPageTimer r; pageClock := pageClock r;
         hasCleanup := hasCleanup r; effectDeps := effectDeps r |}
  | None => r
  end.

(** [pageTransitionTimerRef.current = window.setTimeout(cb, delay)] *)
Definition holdTimeout (cb : Callback) (delay : nat) (r : Router) : Router :=
  {| path := path r; displayPath := displayPath r;
     pageTransitionPhase := pageTransitionPhase r;
     pageTimers :=
       pageTimers r
       ++ [{| pt_id := nextPageTimer r; pt_due := pageClock r + delay;
              pt_run := cb |}];
     pageTransitionTimerRef := Some (nextPageTimer r);
     nextPageTimer := S (nextPageTimer r); pageClock := pageClock r;
     hasCleanup := hasCleanup r; effectDeps := effectDeps r |}.

Definition setPageTransitionPhase (ph : Phase) (r : Router) : Router :=
  {| path := path r; displayPath := displayPath r;
     pageTransitionPhase := ph;
     pageTimers := pageTimers r;
     pageTransitionTimerRef := pageTransitionTimerRef r;
     nextPageTimer := nextPageTimer r; pageClock := pageClock r;
     hasCleanup := hasCleanup r; effectDeps := effectDeps r |}.

Definition setDisplayPath (p : jsstring) (r : Router) : Router :=
  {| path := path r; displayPath := p;
     pageTransitionPhase := pageTransitionPhase r;
     pageTimers := pageTimers r;
     pageTransitionTimerRef := pageTransitionTimerRef r;
     nextPageTimer := nextPageTimer r; pageClock := pageClock r;
     hasCleanup := hasCleanup r; effectDeps := effectDeps r |}.

(** What React records of a run of the effect. *)
Definition recordRun (cleanup : bool) (r : Router) : Router :=
  {| path := path r; displayPath := displayPath r;
     pageTransitionPhase := pageTransitionPhase r;
     pageTimers := pageTimers r;
     pageTransitionTimerRef := pageTransitionTimerRef r;
     nextPageTimer := nextPageTimer r; pageClock := pageClock r;
     hasCleanup := cleanup; effectDeps := (displayPath r, path r) |}.

(** A run of the transition effect: the cleanup that the previous run
    returned, if any, and then the body. *)
Definition transitionEffect (r : Router) : Router :=
  let r1 := if hasCleanup r then clearPageTransitionTimer r else r in
  if decide (path r1 = displayPath r1) then recordRun false r1
  else
    recordRun true
      (holdTimeout (startExit (path r1)) 0 (clearPageTransitionTimer r1)).

(** A render after a state change: the effect runs again when one of its
    dependencies has changed. *)
Definition render (r : Router) : Router :=
  if decide (effectDeps r = (displayPath r, path r)) then r
  else transitionEffect r.

(** [setPath(to)], as [navigate] and the popstate listener call it, and
    the render that follows. *)
Definition setPath (to : jsstring) (r : Router) : Router :=
  render
    {| path := to; displayPath := displayPath r;
       pageTransitionPhase := pageTransitionPhase r;
       pageTimers := pageTimers r;
       pageTransitionTimerRef := pageTransitionTimerRef r;
       nextPageTimer := nextPageTimer r; pageClock := pageClock r;
       hasCleanup := hasCleanup r; effectDeps := effectDeps r |}.

(** The body of a callback. *)
Definition runCallback (cb : Callback) (r : Router) : Router :=
  match cb with
  | startExit p =>
      holdTimeout (showPage p) PAGE_TRANSITION_EXIT_MS
        (setPageTransitionPhase exit r)
  | showPage p =>
      holdTimeout backToIdle PAGE_TRANSITION_ENTER_MS
        (setPageTransitionPhase enter (setDisplayPath p r))
  | backToIdle =>
      let r1 := setPageTransitionPhase idle r in
      {| path := path r1; displayPath := displayPath r1;
         pageTransitionPhase := pageTransitionPhase r1;
         pageTimers := pageTimers r1;
         pageTransitionTimerRef := None;
         nextPageTimer := nextPageTimer r1; pageClock := pageClock r1;
         hasCleanup := hasCleanup r1; effectDeps := effectDeps r1 |}
  end.

(** The pending timer that is due first, the one set first among equals. *)
Definition earliest (ts : list PageTimer) : option PageTimer :=
  fold_left
    (fun best t =>
       match best with
       | Some b => if decide (pt_due t < pt_due b) then Some t else best
       | None => Some t
       end)
    ts None.

(** The event loop runs the next timer: the clock reaches the time at
    which it is due, its callback runs, and React renders.  There is
    nothing to run when no timer is pending. *)
Definition fire (r : Router) : option Router :=
  match earliest (pageTimers r) with
  | None => None
  | Some t =>
      Some
        (render
           (runCallback (pt_run t)
              {| path := path r; displayPath := displayPath r;
                 pageTransitionPhase := pageTransitionPhase r;
                 pageTimers :=
                   filter (fun x => pt_id x ≠ pt_id t) (pageTimers r);
                 pageTransitionTimerRef := pageTransitionTimerRef r;
                 nextPageTimer := nextPageTimer r;
                 pageClock := Nat.max (pageClock r) (pt_due t);
                 hasCleanup := hasCleanup r;
                 effectDeps := effectDeps r |}))
  end.

(** No transition is under way: the page of the path is displayed, no
    timer is pending or held, and the last run of the effect saw these
    paths and returned no cleanup. *)
Definition Settled (r : Router) : Prop :=
  path r = displayPath r
  ∧ pageTimers r = []
  ∧ pageTransitionTimerRef r = None
  ∧ hasCleanup r = false
  ∧ effectDeps r = (displayPath r, path r).

(** A transition is under way: one timer is pending, it is the one held,
    it runs [cb] at the time [due], and the last run of the effect saw
    the current paths and returned its cleanup. *)
Definition Waiting (cb : Callback) (due : nat) (r : Router) : Prop :=
  ∃ t,
    pageTimers r = [t]
    ∧ pageTransitionTimerRef r = Some (pt_id t)
    ∧ pt_run t = cb
    ∧ pt_due t = due
    ∧ pageClock r ≤ due
    ∧ hasCleanup r = true
    ∧ effectDeps r = (displayPath r, path r).

(** Root after its first render at the path [p]. *)
Definition mounted (p : jsstring) : Router :=
  transitionEffect
    {| path := p; displayPath := p; pageTransitionPhase := idle;
       pageTimers := []; pageTransitionTimerRef := None;
       nextPageTimer := 1; pageClock := 0;
       hasCleanup := false; effectDeps := (p, p) |}.

End PageTransition.

(** * Properties *)

(** ** Trimming *)

Lemma trimEnd_head (c : N) (r : jsstring) :
  trimEnd (c :: r) = [] ∨ ∃ r', trimEnd (c :: r) = c :: r'.
Proof.
  simpl. destruct (trimEnd r) as [|d r'].
  - destruct (isWhiteSpace c); [left | right; exists []]; reflexivity.
  - right. exists (d :: r'). reflexivity.
Qed.

Lemma trimEnd_idem (s : jsstring) : trimEnd (trimEnd s) = trimEnd s.
Proof.
  induction s as [|c r IH]; [reflexivity|].
  simpl. destruct (trimEnd r) as [|d r'] eqn:E.
  - destruct (isWhiteSpace c) eqn:W; simpl; [reflexivity|].
    rewrite W. reflexivity.
  - change (trimEnd (c :: d :: r')) with
      (match trimEnd (d :: r') with
       | [] => if isWhiteSpace c then [] else [c]
       | x => c :: x
       end).
    rewrite IH. reflexivity.
Qed.

Lemma trimStart_head (s : jsstring) :
  trimStart s = [] ∨ ∃ c r, trimStart s = c :: r ∧ isWhiteSpace c = false.
Proof.
  induction s as [|c r IH]; [left; reflexivity|].
  simpl. destruct (isWhiteSpace c) eqn:W; [exact IH|].
  right. exists c, r. split; [reflexivity | exact W].
Qed.

Lemma trim_idem (s : jsstring) : trim (trim s) = trim s.
Proof.
  unfold trim.
  destruct (trimStart_head s) as [E | (c & r & E & W)].
  - rewrite E. reflexivity.
  - rewrite E.
    destruct (trimEnd_head c r) as [E' | (r' & E')]; rewrite E'.
    + reflexivity.
    + simpl trimStart. rewrite W. rewrite <- E'. apply trimEnd_idem.
Qed.

(** ** Coin-list normalization *)

Section CoinsFacts.

Variable toLowerCase : jsstring -> jsstring.

Abbreviation keyOf := toLowerCase (only parsing).
Abbreviation normalize := (normalizeCoinList toLowerCase) (only parsing).

Lemma elem_of_map {A B : Type} (f : A → B) (l : list A) (y : B) :
  y ∈ List.map f l ↔ ∃ x, y = f x ∧ x ∈ l.
Proof.
  rewrite list_elem_of_In, List.in_map_iff. split.
  - intros (x & <- & H). exists x. rewrite list_elem_of_In. auto.
  - intros (x & -> & H). exists x. rewrite <- list_elem_of_In. auto.
Qed.

Lemma keepFirstByKey_sublist (l earlier : list jsstring) :
  sublist (keepFirstByKey toLowerCase earlier l) l.
Proof.
  revert earlier. induction l as [|x r IH]; intros earlier; simpl.
  - constructor.
  - destruct (decide _).
    + apply sublist_cons, IH.
    + apply sublist_skip, IH.
Qed.

Lemma keepFirstByKey_fresh (l earlier : list jsstring) (x : jsstring) :
  x ∈ keepFirstByKey toLowerCase earlier l →
  keyOf x ∉ List.map keyOf earlier.
Proof.
  revert earlier. induction l as [|y r IH]; intros earlier; simpl.
  - intros H. inversion H.
  - assert (Hrec : x ∈ keepFirstByKey toLowerCase (earlier ++ [y]) r →
                   keyOf x ∉ List.map keyOf earlier).
    { intros Hx Hin. apply (IH _ Hx).
      rewrite List.map_app. apply elem_of_app. left. exact Hin. }
    destruct (decide _) as [Hy|Hy]; [exact Hrec|].
    intros Hx. apply elem_of_cons in Hx as [->|Hx]; [exact Hy | auto].
Qed.

Lemma keepFirstByKey_NoDup (l earlier : list jsstring) :
  NoDup (List.map keyOf (keepFirstByKey toLowerCase earlier l)).
Proof.
  revert earlier. induction l as [|y r IH]; intros earlier; simpl.
  - constructor.
  - destruct (decide _) as [Hy|Hy]; [apply IH|].
    simpl. constructor; [|apply IH].
    intros Hin. apply list_elem_of_In, List.in_map_iff in Hin
      as (z & Hz & Hin).
    apply list_elem_of_In in Hin.
    apply keepFirstByKey_fresh in Hin. apply Hin.
    rewrite List.map_app. apply elem_of_app. right. simpl.
    rewrite Hz. apply list_elem_of_here.
Qed.

Lemma keepFirstByKey_id (l earlier : list jsstring) :
  NoDup (List.map keyOf l) →
  (∀ x, x ∈ l → keyOf x ∉ List.map keyOf earlier) →
  keepFirstByKey toLowerCase earlier l = l.
Proof.
  revert earlier. induction l as [|y r IH]; intros earlier Hnd Hfresh; simpl.
  - reflexivity.
  - simpl in Hnd. apply NoDup_cons in Hnd as [Hy Hnd].
    destruct (decide _) as [Hin|_].
    + exfalso. apply (Hfresh y); [apply list_elem_of_here | exact Hin].
    + f_equal. apply IH; [exact Hnd|].
      intros x Hx Hin. rewrite List.map_app in Hin.
      apply elem_of_app in Hin as [Hin|Hin].
      * apply (Hfresh x); [apply list_elem_of_further, Hx | exact Hin].
      * simpl in Hin. apply list_elem_of_singleton in Hin.
        apply Hy. rewrite <- Hin.
        apply list_elem_of_In, List.in_map, list_elem_of_In, Hx.
Qed.

(** The loop of [normalizeCoinList] computes [keepFirstByKey] over the
    trimmed, non-empty items: [seen] holds the keys of the items met. *)
Lemma normalize_loop (l : list jsstring) :
  ∀ (seen : gset jsstring) (out earlier : list jsstring),
    (∀ k, k ∈ seen ↔ k ∈ List.map keyOf earlier) →
    (fold_left (normalizeStep toLowerCase) l (seen, out)).2
    = out ++ keepFirstByKey toLowerCase earlier
               (filter (fun c => c ≠ []) (List.map trim l)).
Proof.
  induction l as [|item r IH]; intros seen out earlier Hseen; simpl.
  - rewrite app_nil_r. reflexivity.
  - unfold normalizeStep at 2. simpl.
    rewrite filter_cons.
    destruct (decide (trim item = [])) as [He|He];
      destruct (decide (trim item ≠ [])) as [He'|He']; try tauto.
    + apply IH, Hseen.
    + simpl. destruct (decide (keyOf (trim item) ∈ seen)) as [Hin|Hin];
        destruct (decide (keyOf (trim item) ∈ List.map keyOf earlier))
          as [Hin'|Hin']; try (exfalso; apply Hseen in Hin || apply Hseen in Hin'; tauto).
      * apply IH. intros k. rewrite List.map_app, elem_of_app. simpl.
        rewrite list_elem_of_singleton, <- Hseen. split; [tauto|].
        intros [H| ->]; [exact H | exact Hin].
      * rewrite (IH _ _ (earlier ++ [trim item])).
        { rewrite <- app_assoc. reflexivity. } intros k. rewrite List.map_app, elem_of_app. simpl.
        rewrite list_elem_of_singleton, <- Hseen, elem_of_union,
          elem_of_singleton. tauto.
Qed.

Lemma normalize_reference (l : list jsstring) :
  normalize (Some l) = normalizeReference toLowerCase l.
Proof.
  unfold normalizeCoinList, normalizeReference.
  rewrite (normalize_loop l ∅ [] []); [reflexivity|].
  intros k. simpl. split; intros H; [set_solver | inversion H].
Qed.

Lemma trimmed_items (l : list jsstring) :
  Forall (fun c => trim c = c ∧ c ≠ [])
         (filter (fun c => c ≠ []) (List.map trim l)).
Proof.
  apply Forall_forall. intros c Hc.
  apply list_elem_of_filter in Hc as [Hne Hc].
  apply list_elem_of_In, List.in_map_iff in Hc as (x & <- & _).
  split; [apply trim_idem | exact Hne].
Qed.

Lemma normalize_Normalized (items : option (list jsstring)) :
  Normalized toLowerCase (normalize items).
Proof.
  destruct items as [l|]; [|split; constructor].
  rewrite normalize_reference. unfold normalizeReference. split.
  - apply Forall_forall. intros c Hc.
    eapply elem_of_sublist in Hc; [|apply keepFirstByKey_sublist].
    revert c Hc. apply Forall_forall, trimmed_items.
  - apply keepFirstByKey_NoDup.
Qed.

Lemma filter_trimmed (l : list jsstring) :
  Forall (fun c => trim c = c ∧ c ≠ []) l →
  filter (fun c => c ≠ []) (List.map trim l) = l.
Proof.
  induction 1 as [|c r [Ht Hne] _ IH]; [reflexivity|].
  simpl. rewrite filter_cons, Ht, IH.
  destruct (decide (c ≠ [])); [reflexivity | contradiction].
Qed.

(** A normalized list is a fixed point of [normalizeCoinList]. *)
Lemma normalize_fixed (l : list jsstring) :
  Normalized toLowerCase l → normalize (Some l) = l.
Proof.
  intros [Htrim Hnd].
  rewrite normalize_reference. unfold normalizeReference.
  rewrite filter_trimmed by exact Htrim.
  apply keepFirstByKey_id; [exact Hnd|].
  intros x _ H. inversion H.
Qed.

Lemma normalize_idem (items : option (list jsstring)) :
  normalize (Some (normalize items)) = normalize items.
Proof. apply normalize_fixed, normalize_Normalized. Qed.

Lemma normalize_None : normalize None = normalize (Some []).
Proof. reflexivity. Qed.

Lemma normalize_default (items : option (list jsstring)) :
  normalize items = normalize (Some (default [] items)).
Proof. destruct items; reflexivity. Qed.

(** ** The Map from key to coin *)

Lemma map_fmap {A B : Type} (f : A → B) (l : list A) :
  List.map f l = f <$> l.
Proof. reflexivity. Qed.

Lemma mapOfEntries_lookup (l : list jsstring) (k : jsstring) :
  ∀ m : gmap jsstring jsstring,
    fold_left (fun m e => <[ e.1 := e.2 ]> m)
      (List.map (fun coin => (keyOf coin, coin)) l) m !! k
    = match lastWithKey toLowerCase l k with
      | Some a => Some a
      | None => m !! k
      end.
Proof.
  unfold lastWithKey.
  induction l as [|a r IH]; intros m; simpl; [reflexivity|].
  rewrite IH, filter_cons. simpl.
  destruct (decide (keyOf a = k)) as [<-|Hne].
  - destruct (filter _ r) as [|b r'] eqn:E.
    + simpl. apply lookup_insert_eq.
    + change (last (a :: b :: r')) with (last (b :: r')).
      destruct (last (b :: r')) eqn:L; [reflexivity|].
      apply last_None in L. discriminate.
  - destruct (last (filter _ r)); [reflexivity|].
    apply lookup_insert_ne, Hne.
Qed.

Lemma coinsByKey_lookup (l : list jsstring) (k : jsstring) :
  coinsByKey toLowerCase l !! k = lastWithKey toLowerCase l k.
Proof.
  unfold coinsByKey, mapOfEntries. rewrite mapOfEntries_lookup.
  destruct (lastWithKey toLowerCase l k); [reflexivity | apply lookup_empty].
Qed.

Lemma lastWithKey_elem (l : list jsstring) (k a : jsstring) :
  lastWithKey toLowerCase l k = Some a → a ∈ l ∧ keyOf a = k.
Proof.
  unfold lastWithKey. intros H. apply last_Some_elem_of in H.
  apply list_elem_of_filter in H. tauto.
Qed.

(** When no two entries share a key, the entry with a key is the first
    one found. *)
Lemma lastWithKey_NoDup (l : list jsstring) (coin : jsstring) :
  NoDup (List.map keyOf l) →
  lastWithKey toLowerCase l (keyOf coin) = entryFor toLowerCase l coin.
Proof.
  unfold lastWithKey, entryFor.
  induction l as [|a r IH]; intros Hnd; simpl; [reflexivity|].
  apply NoDup_cons in Hnd as [Ha Hnd]. rewrite filter_cons.
  destruct (decide (keyOf a = keyOf coin)) as [E|E].
  - rewrite bool_decide_eq_true_2 by exact E.
    destruct (filter _ r) as [|x r'] eqn:F; [reflexivity|].
    exfalso. assert (Hx : x ∈ filter (fun a0 => keyOf a0 = keyOf coin) r)
      by (rewrite F; apply list_elem_of_here).
    apply list_elem_of_filter in Hx as [Hk Hx].
    apply Ha. rewrite list_elem_of_In in Ha |- *.
    rewrite E, <- Hk. apply List.in_map, list_elem_of_In, Hx.
  - rewrite bool_decide_eq_false_2 by exact E. apply IH, Hnd.
Qed.

Lemma entryFor_elem (l : list jsstring) (coin a : jsstring) :
  entryFor toLowerCase l coin = Some a → a ∈ l ∧ keyOf a = keyOf coin.
Proof.
  unfold entryFor. intros H. apply List.find_some in H as [Hin Hk].
  apply bool_decide_eq_true in Hk. rewrite list_elem_of_In. tauto.
Qed.

(** ** Watchlist reconciliation *)

Lemma omap_cons {A B : Type} (f : A → option B) (x : A) (l : list A) :
  omap f (x :: l)
  = match f x with Some y => y :: omap f l | None => omap f l end.
Proof. reflexivity. Qed.

Lemma kept_reference (available previous : list jsstring) :
  Normalized toLowerCase available →
  filterBoolean
    (List.map (fun coin => coinsByKey toLowerCase available !! keyOf coin)
              previous)
  = omap (entryFor toLowerCase available) previous.
Proof.
  intros [Htrim Hnd]. unfold filterBoolean.
  induction previous as [|c r IH]; [reflexivity|].
  cbn [List.map]. rewrite !omap_cons.
  rewrite IH, coinsByKey_lookup, lastWithKey_NoDup by exact Hnd.
  destruct (entryFor toLowerCase available c) as [a|] eqn:E; [|reflexivity].
  apply entryFor_elem in E as [Hin _].
  rewrite Forall_forall in Htrim. destruct (Htrim a Hin) as [_ Hne].
  simpl. destruct (decide (a = [])); [contradiction | reflexivity].
Qed.

Lemma take_min_length {A : Type} (l : list A) (n : nat) :
  take (Nat.min (length l) n) l = take n l.
Proof.
  destruct (Nat.le_gt_cases (length l) n) as [H|H].
  - rewrite Nat.min_l by exact H.
    rewrite (take_ge l n) by exact H. apply take_ge. reflexivity.
  - rewrite Nat.min_r by lia. reflexivity.
Qed.

Lemma detect_reference (available : list jsstring)
    (usdCoins thbCoins : option (list jsstring)) :
  Normalized toLowerCase available →
  available ≠ [] →
  detectWatchlistFromLatest toLowerCase (Some available) usdCoins thbCoins
  = match filter (fun coin => hasKey toLowerCase (normalize usdCoins) coin
                              ∧ hasKey toLowerCase (normalize thbCoins) coin)
                 available with
    | [] => take 12 available
    | overlap => overlap
    end.
Proof.
  intros Hn Hne. unfold detectWatchlistFromLatest.
  rewrite normalize_fixed by exact Hn.
  destruct (decide (length available = 0)) as [H0|_].
  { destruct available; [contradiction | discriminate]. }
  rewrite take_min_length.
  rewrite (list_filter_iff _
             (fun coin => hasKey toLowerCase (normalize usdCoins) coin
                          ∧ hasKey toLowerCase (normalize thbCoins) coin))
    by (intros coin; rewrite !elem_of_list_to_set; reflexivity).
  destruct (filter _ available) as [|x o]; reflexivity.
Qed.

Lemma reconcile_reference
    (previous available usd thb : list jsstring) :
  reconcileWatchlist toLowerCase (Some previous) (Some available)
    (Some usd) (Some thb)
  = reconcileReference toLowerCase previous available usd thb.
Proof.
  unfold reconcileWatchlist, reconcileReference.
  pose proof (normalize_Normalized (Some available)) as Hn.
  destruct (normalize (Some available)) as [|a av] eqn:E; [reflexivity|].
  rewrite kept_reference by exact Hn.
  destruct (decide (length (omap _ _) = 0)) as [H0|H0].
  - rewrite detect_reference by (exact Hn || discriminate).
    destruct (omap _ _) as [|k kept]; [reflexivity | discriminate].
  - destruct (omap _ _) as [|k kept]; [contradiction | reflexivity].
Qed.

(** The result for values that are not arrays is that for empty arrays. *)
Lemma reconcile_default
    (previous available usd thb : option (list jsstring)) :
  reconcileWatchlist toLowerCase previous available usd thb
  = reconcileWatchlist toLowerCase (Some (default [] previous))
      (Some (default [] available)) (Some (default [] usd))
      (Some (default [] thb)).
Proof.
  destruct previous, available, usd, thb; reflexivity.
Qed.

Lemma kept_NoDup (available previous : list jsstring) :
  NoDup (List.map keyOf previous) →
  NoDup (List.map keyOf (omap (entryFor toLowerCase available) previous)).
Proof.
  induction previous as [|c r IH]; intros Hnd; [constructor|].
  simpl in Hnd. apply NoDup_cons in Hnd as [Hc Hnd].
  rewrite omap_cons.
  destruct (entryFor toLowerCase available c) as [a|] eqn:E; [|auto].
  simpl. constructor; [|auto].
  apply entryFor_elem in E as [_ Ek]. rewrite Ek.
  intros Hin. apply Hc.
  apply elem_of_map in Hin as (y & Hy & Hin).
  apply list_elem_of_omap in Hin as (c' & Hc' & E').
  apply entryFor_elem in E' as [_ Ek'].
  apply elem_of_map. exists c'. split; [congruence | exact Hc'].
Qed.

Lemma sublist_keys_NoDup (l1 l2 : list jsstring) :
  sublist l1 l2 → NoDup (List.map keyOf l2) → NoDup (List.map keyOf l1).
Proof.
  intros Hsub Hnd. rewrite map_fmap in Hnd |- *.
  apply (sublist_NoDup _ _ Hnd), fmap_sublist, Hsub.
Qed.

(** What holds of the result of the four steps, whatever the lists. *)
Lemma reference_invariants (previous available usd thb : list jsstring) :
  let result := reconcileReference toLowerCase previous available usd thb in
  (∀ coin, coin ∈ result → coin ∈ normalize (Some available))
  ∧ NoDup (List.map keyOf result)
  ∧ (normalize (Some available) = [] ↔ result = []).
Proof.
  unfold reconcileReference.
  pose proof (normalize_Normalized (Some available)) as [_ Hnd].
  pose proof (normalize_Normalized (Some previous)) as [_ Hndp].
  destruct (normalize (Some available)) as [|a av] eqn:E.
  { simpl. repeat split; auto; try constructor;
      try (intros ? H; inversion H). }
  destruct (omap _ _) as [|k kept] eqn:K.
  - destruct (filter _ (a :: av)) as [|o overlap] eqn:F.
    + simpl. repeat split; try discriminate.
      * intros coin Hc. eapply elem_of_sublist; [exact Hc|].
        apply (sublist_take (a :: av) 12).
      * apply (sublist_keys_NoDup (take 12 (a :: av)) (a :: av));
          [apply sublist_take | exact Hnd].
    + simpl. repeat split; try discriminate.
      * intros coin Hc. rewrite <- F in Hc.
        apply list_elem_of_filter in Hc. tauto.
      * apply (sublist_keys_NoDup (o :: overlap) (a :: av));
          [rewrite <- F; apply sublist_filter | exact Hnd].
  - simpl. repeat split; try discriminate.
    + intros coin Hc. rewrite <- K in Hc.
      apply list_elem_of_omap in Hc as (c & _ & Hc).
      apply entryFor_elem in Hc. tauto.
    + change (NoDup (List.map keyOf (k :: kept))). rewrite <- K.
      apply kept_NoDup, Hndp.
Qed.

(** ** The selected coins of a request *)

Lemma ordered_loop (availableByKey : gmap jsstring jsstring)
    (selected : list jsstring) :
  ∀ ordered,
    fold_left (orderedStep toLowerCase availableByKey) selected ordered
    = ordered
      ++ omap (fun coin => truthy (availableByKey !! keyOf coin)) selected.
Proof.
  induction selected as [|c r IH]; intros ordered; simpl.
  - rewrite app_nil_r. reflexivity.
  - rewrite IH. unfold orderedStep.
    destruct (truthy (availableByKey !! keyOf c)); [|reflexivity].
    rewrite <- app_assoc. reflexivity.
Qed.

Lemma ordered_reference (availableCoins selected : list jsstring) :
  orderedSelectedCoins toLowerCase availableCoins selected
  = orderedReference toLowerCase availableCoins selected.
Proof.
  unfold orderedSelectedCoins, orderedReference.
  destruct (decide _) as [[H|H]|_].
  - destruct selected; [reflexivity | discriminate].
  - destruct availableCoins; [|discriminate].
    induction selected as [|c r IH]; [reflexivity|].
    rewrite omap_cons. exact IH.
  - rewrite ordered_loop. simpl.
    induction selected as [|c r IH]; [reflexivity|].
    rewrite !omap_cons, IH, coinsByKey_lookup. reflexivity.
Qed.

(** The result follows the selection: its entries match, one for one and
    in order, a sublist of the selected coins. *)
Lemma reference_follows_selection (availableCoins selected : list jsstring) :
  ∃ chosen,
    sublist chosen selected
    ∧ Forall2 (fun hit coin => hit ∈ availableCoins ∧ keyOf hit = keyOf coin)
        (orderedReference toLowerCase availableCoins selected) chosen.
Proof.
  unfold orderedReference.
  induction selected as [|c r (chosen & Hsub & Hall)].
  - exists []. split; constructor.
  - rewrite omap_cons.
    destruct (truthy _) as [hit|] eqn:E.
    + exists (c :: chosen). split; [apply sublist_skip, Hsub|].
      constructor; [|exact Hall].
      unfold truthy in E.
      destruct (lastWithKey _ _ _) as [a|] eqn:L; [|discriminate].
      destruct (decide (a = [])); [discriminate|].
      injection E as <-. apply lastWithKey_elem, L.
    + exists chosen. split; [apply sublist_cons, Hsub | exact Hall].
Qed.

End CoinsFacts.

(** ** Claims about the coin functions *)

(** C5. Coin-list normalization is idempotent: normalizing the result of a
    normalization returns it unchanged.  It is the reference behaviour:
    trim the entries, drop the empty ones, remove the duplicates by
    case-insensitive key keeping the first seen, in first-seen order; the
    result is a normalized list.  Normalizing btc, BTC and eth within
    spaces yields btc and eth. *)
Theorem normalizeCoinList_idempotent :
  (∀ toLowerCase items,
     normalizeCoinList toLowerCase (Some (normalizeCoinList toLowerCase items))
     = normalizeCoinList toLowerCase items)
  ∧ (∀ toLowerCase items,
       normalizeCoinList toLowerCase (Some items)
       = normalizeReference toLowerCase items
       ∧ Normalized toLowerCase (normalizeCoinList toLowerCase (Some items)))
  ∧ normalizeCoinList asciiToLowerCase
      (Some [js "btc"; js "BTC"; js " eth "])
    = [js "btc"; js "eth"].
Proof.
  split; [|split].
  - intros lower items. apply normalize_idem.
  - intros lower items. split.
    + apply normalize_reference.
    + apply normalize_Normalized.
  - vm_compute. reflexivity.
Qed.

(** C3, as the code has it.  Reconciliation follows the four steps with
    the previous watchlist and the two universes normalized like the
    available coins, and with each kept entry replaced by the available
    coin it matches when case is ignored (the available list's casing), in
    the order of the previous watchlist.  For an empty previous watchlist,
    available coins BTC, ETH, XRP and universes BTC, ETH and ETH, XRP the
    result is ETH.  The function reads its four arguments only: two calls
    on the same arguments give the same list. *)
Theorem reconcileWatchlist_four_steps :
  (∀ toLowerCase previous available usd thb,
     reconcileWatchlist toLowerCase (Some previous) (Some available)
       (Some usd) (Some thb)
     = reconcileReference toLowerCase previous available usd thb)
  ∧ reconcileWatchlist asciiToLowerCase (Some [])
      (Some [js "BTC"; js "ETH"; js "XRP"])
      (Some [js "BTC"; js "ETH"]) (Some [js "ETH"; js "XRP"])
    = [js "ETH"]
  ∧ (∀ toLowerCase previous available usd thb,
       let first := reconcileWatchlist toLowerCase previous available usd thb in
       let second := reconcileWatchlist toLowerCase previous available usd thb in
       first = second).
Proof.
  split; [|split].
  - intros lower previous available usd thb. apply reconcile_reference.
  - vm_compute. reflexivity.
  - intros. reflexivity.
Qed.

(** C3 as stated fails: a previous watchlist holding btc, reconciled with
    the available coin BTC, gives BTC (the available list's casing) and not
    the entry btc of the previous watchlist. *)
Lemma reconcileWatchlist_not_previous_entries :
  reconcileWatchlist asciiToLowerCase (Some [js "btc"]) (Some [js "BTC"])
    (Some []) (Some [])
  = [js "BTC"]
  ∧ reconcileAsStated asciiToLowerCase [js "btc"] [js "BTC"] [] []
    = [js "btc"]
  ∧ reconcileWatchlist asciiToLowerCase (Some [js "btc"]) (Some [js "BTC"])
      (Some []) (Some [])
    ≠ reconcileAsStated asciiToLowerCase [js "btc"] [js "BTC"] [] [].
Proof.
  split; [|split]; vm_compute; [reflexivity | reflexivity | discriminate].
Qed.

(** C4, as the code has it.  The coins of a request are the selected coins
    in the order in which they were inserted into the selection, each
    replaced by the available coin with the same key, and left out when
    there is none.  For available coins ETH, BTC, XRP and a selection built
    by inserting XRP then ETH, the coins are XRP, ETH. *)
Theorem orderedSelectedCoins_selection_order :
  (∀ toLowerCase availableCoins selected,
     orderedSelectedCoins toLowerCase availableCoins selected
     = orderedReference toLowerCase availableCoins selected
     ∧ ∃ chosen,
         sublist chosen selected
         ∧ Forall2 (fun hit coin =>
                      hit ∈ availableCoins
                      ∧ toLowerCase hit = toLowerCase coin)
             (orderedSelectedCoins toLowerCase availableCoins selected)
             chosen)
  ∧ orderedSelectedCoins asciiToLowerCase
      [js "ETH"; js "BTC"; js "XRP"]
      (toggleCoin (js "ETH") (toggleCoin (js "XRP") []))
    = [js "XRP"; js "ETH"].
Proof.
  split.
  - intros lower availableCoins selected. split.
    + apply ordered_reference.
    + rewrite ordered_reference. apply reference_follows_selection.
  - vm_compute. reflexivity.
Qed.

(** C4 as stated fails: for available coins ETH, BTC, XRP and a selection
    built by inserting XRP then ETH, the coins of the request are not ETH,
    XRP, which is the order of the available list. *)
Lemma orderedSelectedCoins_not_available_order :
  orderedAsStated asciiToLowerCase [js "ETH"; js "BTC"; js "XRP"]
    (toggleCoin (js "ETH") (toggleCoin (js "XRP") []))
  = [js "ETH"; js "XRP"]
  ∧ orderedSelectedCoins asciiToLowerCase [js "ETH"; js "BTC"; js "XRP"]
      (toggleCoin (js "ETH") (toggleCoin (js "XRP") []))
    ≠ [js "ETH"; js "XRP"].
Proof.
  split; vm_compute; [reflexivity | discriminate].
Qed.

(** C10. Whatever the inputs, every coin of the result of
    [reconcileWatchlist] is a coin of the normalized available list (so it
    has that list's casing), no two coins of the result have the same
    case-insensitive key, the result is empty when the normalized
    available list is empty, and it is not empty when that list is not. *)
Theorem reconcileWatchlist_invariants :
  ∀ toLowerCase (previous available usd thb : option (list jsstring)),
    let result := reconcileWatchlist toLowerCase previous available usd thb in
    (∀ coin, coin ∈ result → coin ∈ normalizeCoinList toLowerCase available)
    ∧ NoDup (List.map toLowerCase result)
    ∧ (normalizeCoinList toLowerCase available = [] → result = [])
    ∧ (normalizeCoinList toLowerCase available ≠ [] → result ≠ []).
Proof.
  intros lower previous available usd thb.
  rewrite reconcile_default, reconcile_reference.
  rewrite (normalize_default lower available).
  destruct (reference_invariants lower (default [] previous)
              (default [] available) (default [] usd) (default [] thb))
    as (Hin & Hnd & Hempty).
  simpl. repeat split; [exact Hin | exact Hnd | apply Hempty |].
  intros Hne Hres. apply Hne, Hempty, Hres.
Qed.

(** An instance of C10: three available coins, none in the previous
    watchlist and none in both universes. *)
Lemma reconcileWatchlist_invariants_witness :
  reconcileWatchlist asciiToLowerCase (Some [js "doge"])
    (Some [js "BTC"; js " eth"; js "btc"]) None (Some [js "ETH"])
  ≠ [].
Proof.
  apply (proj2 (proj2 (proj2
           (reconcileWatchlist_invariants asciiToLowerCase
              (Some [js "doge"]) (Some [js "BTC"; js " eth"; js "btc"])
              None (Some [js "ETH"]))))).
  vm_compute. discriminate.
Defined.

(** ** The download file name *)

Module DownloadFacts.

Import Download.

Lemma stripPrefix_Some (p s rest : jsstring) :
  stripPrefix p s = Some rest ↔ s = p ++ rest.
Proof.
  revert s. induction p as [|a p IH]; intros s; simpl.
  - split; [intros [= ->]; reflexivity | intros ->; reflexivity].
  - destruct s as [|b s]; [split; discriminate|].
    destruct (decide (a = b)) as [->|Hne].
    + rewrite IH. split; [intros ->; reflexivity | intros [= ->]; reflexivity].
    + split; [discriminate | intros [= E _]; congruence].
Qed.

Lemma spanNotQuote_spec (s : jsstring) :
  s = (fst (spanNotQuote s) ++ snd (spanNotQuote s))
  ∧ (quote ∉ fst (spanNotQuote s))
  ∧ (snd (spanNotQuote s) = [] ∨ ∃ r, snd (spanNotQuote s) = quote :: r).
Proof.
  induction s as [|c r (IH1 & IH2 & IH3)]; simpl.
  - repeat split; [apply not_elem_of_nil | left; reflexivity].
  - destruct (decide (c = quote)) as [->|Hne]; simpl.
    + repeat split; [apply not_elem_of_nil | right; eexists; reflexivity].
    + destruct (spanNotQuote r) as [run rest]. simpl in *.
      repeat split; [congruence | | exact IH3].
      intros H. apply elem_of_cons in H as [H|H]; [congruence | auto].
Qed.

Lemma spanNotQuote_app (name post : jsstring) :
  quote ∉ name →
  spanNotQuote (name ++ quote :: post) = (name, quote :: post).
Proof.
  induction name as [|c r IH]; intros Hq; simpl.
  - destruct (decide (quote = quote)); [reflexivity | contradiction].
  - destruct (decide (c = quote)) as [->|_].
    + exfalso. apply Hq, list_elem_of_here.
    + rewrite IH; [reflexivity|].
      intros H. apply Hq, list_elem_of_further, H.
Qed.

(** [matchHere] is the pattern at position 0. *)
Lemma matchHere_Some (s name : jsstring) :
  matchHere s = Some name ↔ MatchesAt s 0 name.
Proof.
  unfold matchHere, MatchesAt. rewrite drop_0. split.
  - destruct (stripPrefix filenameOpen s) as [rest|] eqn:E; [|discriminate].
    apply stripPrefix_Some in E. subst s.
    destruct (spanNotQuote_spec rest) as (H1 & H2 & H3).
    destruct (spanNotQuote rest) as [run after]. simpl in *.
    destruct run as [|c run]; [discriminate|].
    destruct after as [|q after]; [discriminate|].
    intros [= <-]. destruct H3 as [H3|[r [= -> ->]]]; [discriminate|].
    exists r. rewrite H1. repeat split; [discriminate | exact H2].
  - intros (post & -> & Hne & Hq).
    assert (E : stripPrefix filenameOpen
                  (filenameOpen ++ name ++ quote :: post)
                = Some (name ++ quote :: post))
      by (apply stripPrefix_Some; reflexivity).
    rewrite E, spanNotQuote_app by exact Hq.
    destruct name; [contradiction | reflexivity].
Qed.

Lemma MatchesAt_S (c : N) (s : jsstring) (i : nat) (name : jsstring) :
  MatchesAt (c :: s) (S i) name ↔ MatchesAt s i name.
Proof. reflexivity. Qed.

Lemma matchHere_None (s : jsstring) :
  matchHere s = None ↔ ∀ name, ¬ MatchesAt s 0 name.
Proof.
  split.
  - intros E name H. apply matchHere_Some in H. congruence.
  - intros H. destruct (matchHere s) as [name|] eqn:E; [|reflexivity].
    exfalso. apply (H name), matchHere_Some, E.
Qed.

(** [regexExec] finds the leftmost match. *)
Lemma regexExec_Some (h name : jsstring) :
  regexExec h = Some name ↔
  ∃ i, MatchesAt h i name ∧ ∀ j name', j < i → ¬ MatchesAt h j name'.
Proof.
  induction h as [|c r IH]; simpl.
  - destruct (matchHere []) as [n|] eqn:E.
    + apply matchHere_Some in E as (post & E & _). discriminate.
    + split; [discriminate|].
      intros (i & (post & E' & _) & _). rewrite drop_nil in E'. discriminate.
  - destruct (matchHere (c :: r)) as [n|] eqn:E.
    + split.
      * intros [= ->]. exists 0. split; [apply matchHere_Some, E | lia].
      * intros (i & Hi & Hleft). destruct i as [|i].
        -- apply matchHere_Some in Hi. congruence.
        -- exfalso. apply (Hleft 0 n); [lia | apply matchHere_Some, E].
    + rewrite IH. split.
      * intros (i & Hi & Hleft). exists (S i). split; [exact Hi|].
        intros j name' Hj. destruct j as [|j].
        -- rewrite matchHere_None in E. apply E.
        -- rewrite MatchesAt_S. apply Hleft. lia.
      * intros (i & Hi & Hleft). destruct i as [|i].
        -- apply matchHere_Some in Hi. congruence.
        -- exists i. split; [exact Hi|].
           intros j name' Hj. rewrite <- (MatchesAt_S c). apply Hleft. lia.
Qed.

Lemma regexExec_None (h : jsstring) :
  regexExec h = None ↔ ∀ i name, ¬ MatchesAt h i name.
Proof.
  induction h as [|c r IH]; simpl.
  - destruct (matchHere []) as [n|] eqn:E.
    + apply matchHere_Some in E as (post & E & _). discriminate.
    + split; [|reflexivity].
      intros _ i name (post & E' & _). rewrite drop_nil in E'. discriminate.
  - destruct (matchHere (c :: r)) as [n|] eqn:E.
    + split; [discriminate|].
      intros H. exfalso. apply (H 0 n), matchHere_Some, E.
    + rewrite IH. split.
      * intros H i name. destruct i as [|i].
        -- rewrite matchHere_None in E. apply E.
        -- rewrite MatchesAt_S. apply H.
      * intros H i name. rewrite <- (MatchesAt_S c). apply H.
Qed.

(** A header with no quote before the file name parameter. *)
Lemma MatchesAt_after_unquoted (pre name post : jsstring) :
  quote ∉ pre → name ≠ [] → quote ∉ name →
  let h := pre ++ filenameOpen ++ name ++ quote :: post in
  MatchesAt h (length pre) name
  ∧ ∀ j name', j < length pre → ¬ MatchesAt h j name'.
Proof.
  intros Hpre Hne Hq h. split.
  - exists post. unfold h. rewrite drop_app_length. auto.
  - intros j name' Hj (post' & E & _).
    assert (Hat : h !! (j + 9) = Some quote).
    { rewrite <- (lookup_drop h j 9), E. reflexivity. }
    unfold h in Hat.
    destruct (decide (j + 9 < length pre)) as [Hlt|Hge].
    + rewrite lookup_app_l in Hat by exact Hlt.
      apply Hpre, list_elem_of_lookup. eauto.
    + rewrite lookup_app_r in Hat by lia.
      assert (Hk : j + 9 - length pre < 9) by lia.
      unfold filenameOpen in Hat. rewrite <- app_assoc in Hat.
      rewrite lookup_app_l in Hat by (simpl; lia).
      remember (j + 9 - length pre) as k.
      do 9 (destruct k as [|k]; [discriminate|]). lia.
Qed.

Lemma filenames_of_match (h : jsstring) (i : nat) (name : jsstring) :
  MatchesAt h i name →
  (∀ j name', j < i → ¬ MatchesAt h j name') →
  cleanFilename (Some h) = name ∧ reportFilename (Some h) = Normal name.
Proof.
  intros Hm Hleft.
  assert (E : regexExec h = Some name) by (apply regexExec_Some; eauto).
  assert (Hname : name ≠ []) by (destruct Hm as (? & _ & ? & _); auto).
  assert (Hh : h ≠ []).
  { intros ->. destruct Hm as (post & E' & _).
    rewrite drop_nil in E'. discriminate. }
  unfold cleanFilename, reportFilename, parseFilenameFromDisposition,
    stringMatch, orElse, truthy.
  destruct (decide (h = [])); [contradiction|].
  rewrite E. destruct (decide (name = [])); [contradiction|].
  split; reflexivity.
Qed.

Lemma filenames_without_match (h : jsstring) :
  (∀ i name, ¬ MatchesAt h i name) →
  cleanFilename (Some h) = js "CLEAN.csv"
  ∧ reportFilename (Some h) = Normal (js "REPORT_CLEAN.xlsx").
Proof.
  intros Hnone. apply regexExec_None in Hnone.
  unfold cleanFilename, reportFilename, parseFilenameFromDisposition,
    stringMatch, orElse, truthy.
  destruct (decide (h = [])) as [->|_]; [split; reflexivity|].
  rewrite Hnone. split; reflexivity.
Qed.

Lemma reportFilename_returns (header : option jsstring) :
  ∃ name, reportFilename header = Normal name.
Proof.
  unfold reportFilename, stringMatch.
  destruct (regexExec _); eexists; reflexivity.
Qed.

(** C8. The file name of a download is the text captured by the leftmost
    match of the pattern (filename= followed by a quoted, non-empty run
    without quotes) in the content-disposition header; in particular, in
    a header with no quote before that parameter, it is the text between
    its quotes.  When the header is absent, or has no match of the
    pattern, the name is the fixed default, CLEAN.csv in the ETL flow and
    REPORT_CLEAN.xlsx in the report flow.  Nothing is thrown: the report
    flow always completes normally, and the ETL flow is a total
    function. *)
Theorem download_filename :
  (∀ h i name,
     MatchesAt h i name →
     (∀ j name', j < i → ¬ MatchesAt h j name') →
     cleanFilename (Some h) = name ∧ reportFilename (Some h) = Normal name)
  ∧ (∀ pre name post,
       quote ∉ pre → name ≠ [] → quote ∉ name →
       let h := pre ++ filenameOpen ++ name ++ quote :: post in
       cleanFilename (Some h) = name ∧ reportFilename (Some h) = Normal name)
  ∧ (cleanFilename None = js "CLEAN.csv"
     ∧ reportFilename None = Normal (js "REPORT_CLEAN.xlsx"))
  ∧ (∀ h,
       (∀ i name, ¬ MatchesAt h i name) →
       cleanFilename (Some h) = js "CLEAN.csv"
       ∧ reportFilename (Some h) = Normal (js "REPORT_CLEAN.xlsx"))
  ∧ (∀ header, ∃ name, reportFilename header = Normal name).
Proof.
  split; [|split; [|split; [|split]]].
  - apply filenames_of_match.
  - intros pre name post Hpre Hne Hq h.
    destruct (MatchesAt_after_unquoted pre name post Hpre Hne Hq)
      as [Hm Hleft].
    exact (filenames_of_match _ _ _ Hm Hleft).
  - split; reflexivity.
  - apply filenames_without_match.
  - apply reportFilename_returns.
Qed.

(** An instance of C8: the header of an attachment named CLEAN_gl.csv. *)
Lemma download_filename_witness :
  let h := js "attachment; filename=" ++ [quote] ++ js "CLEAN_gl.csv"
           ++ [quote] in
  cleanFilename (Some h) = js "CLEAN_gl.csv"
  ∧ reportFilename (Some h) = Normal (js "CLEAN_gl.csv").
Proof.
  apply (proj1 (proj2 download_filename)
           (js "attachment; ") (js "CLEAN_gl.csv") []).
  - apply (bool_decide_unpack _). vm_compute. exact I.
  - discriminate.
  - apply (bool_decide_unpack _). vm_compute. exact I.
Defined.

End DownloadFacts.

(** ** Theme resolution *)

Module ThemeFacts.

Import Theme.

Lemma firstValid_app (l1 l2 : list (option jsstring)) :
  firstValid (l1 ++ l2)
  = match firstValid l1 with
    | Some m => Some m
    | None => firstValid l2
    end.
Proof.
  induction l1 as [|v r IH]; simpl; [reflexivity|].
  destruct (validMode v); [reflexivity | exact IH].
Qed.

Lemma firstValid_None (l : list (option jsstring)) (v : option jsstring) :
  firstValid l = None → v ∈ l → validMode v = None.
Proof.
  induction l as [|w r IH]; simpl; intros Hn Hin; [inversion Hin|].
  destruct (validMode w) eqn:E; [discriminate|].
  apply elem_of_cons in Hin as [->|Hin]; auto.
Qed.

(** Reading a value off each element: an element met again changes
    nothing. *)
Lemma firstValid_again (value : nat → option jsstring) (acc r : list nat)
    (el : nat) :
  el ∈ acc →
  firstValid (List.map value (acc ++ el :: r))
  = firstValid (List.map value (acc ++ r)).
Proof.
  intros Hin. rewrite !List.map_app, !firstValid_app.
  destruct (firstValid (List.map value acc)) eqn:E; [reflexivity|].
  simpl. rewrite (firstValid_None _ (value el) E); [reflexivity|].
  apply list_elem_of_In, List.in_map, list_elem_of_In, Hin.
Qed.

Lemma uniqueInOrder_loop (value : nat → option jsstring) (els : list nat) :
  ∀ acc,
    firstValid
      (List.map value
         (fold_left
            (fun acc el => if bool_decide (el ∈ acc) then acc else acc ++ [el])
            els acc))
    = firstValid (List.map value (acc ++ els)).
Proof.
  induction els as [|el r IH]; intros acc; simpl.
  - rewrite app_nil_r. reflexivity.
  - rewrite IH. destruct (bool_decide (el ∈ acc)) eqn:E.
    + apply bool_decide_eq_true in E. symmetry. apply firstValid_again, E.
    + rewrite <- app_assoc. reflexivity.
Qed.

Lemma firstValid_unique (value : nat → option jsstring) (els : list nat) :
  firstValid (List.map value (uniqueInOrder els))
  = firstValid (List.map value els).
Proof. apply (uniqueInOrder_loop value els []). Qed.

Lemma elem_of_unique_loop (els : list nat) (x : nat) :
  ∀ acc,
    x ∈ fold_left
          (fun acc el => if bool_decide (el ∈ acc) then acc else acc ++ [el])
          els acc
    ↔ x ∈ acc ∨ x ∈ els.
Proof.
  induction els as [|el r IH]; intros acc; simpl.
  - split; [auto | intros [H|H]; [exact H | inversion H]].
  - rewrite IH, elem_of_cons. destruct (bool_decide (el ∈ acc)) eqn:E.
    + apply bool_decide_eq_true in E. split; [tauto|].
      intros [H|[->|H]]; auto.
    + rewrite elem_of_app, list_elem_of_singleton. tauto.
Qed.

Lemma elem_of_uniqueInOrder (els : list nat) (x : nat) :
  x ∈ uniqueInOrder els ↔ x ∈ els.
Proof.
  unfold uniqueInOrder. rewrite elem_of_unique_loop. split; [|auto].
  intros [H|H]; [inversion H | exact H].
Qed.

Lemma themeTargets_roots (d : Document) :
  themeTargets d = uniqueInOrder (observedRoots d).
Proof.
  unfold themeTargets, observedRoots.
  destruct (body d), (rootElement d), (rootFirstElementChild d); reflexivity.
Qed.

(** The loop over the targets returns the first valid attribute. *)
Lemma attribute_loop (d : Document) (els : list nat) :
  fold_left (attributeStep d) els Running
  = match firstValid (List.map (fun el => dataTheme (element d el)) els) with
    | Some m => Returned m
    | None => Running
    end.
Proof.
  assert (Hdone : ∀ l m, fold_left (attributeStep d) l (Returned m)
                         = Returned m)
    by (induction l; intros; simpl; auto).
  induction els as [|el r IH]; simpl; [reflexivity|].
  destruct (validMode (dataTheme (element d el))); [apply Hdone | exact IH].
Qed.

(** The loop over the keys returns the first valid stored value, and is
    left by a throw when storage cannot be read. *)
Lemma storage_loop (st : Storage) (keys : list jsstring) :
  match legacyStored st keys with
  | Some m => fold_left (storageStep st) keys Running = Returned m
  | None => ∀ m, fold_left (storageStep st) keys Running ≠ Returned m
  end.
Proof.
  assert (Hdone : ∀ l m, fold_left (storageStep st) l (Returned m)
                         = Returned m)
    by (induction l; intros; simpl; auto).
  assert (Hthrown : ∀ l, fold_left (storageStep st) l Thrown = Thrown)
    by (induction l; intros; simpl; auto).
  induction keys as [|k r IH]; simpl; [discriminate|].
  destruct (getItem k st) as [v|].
  - destruct (validMode v); [apply Hdone | exact IH].
  - intros m. rewrite Hthrown. discriminate.
Qed.

Lemma storage_loop_done (st : Storage) (keys : list jsstring) (m : Mode) :
  fold_left (storageStep st) keys (Returned m) = Returned m.
Proof. induction keys; simpl; auto. Qed.

Lemma anyDark_roots (env : Env) :
  existsb (fun el => bool_decide
                       (js "dark" ∈ classList (element (document env) el)))
          (themeTargets (document env))
  = anyRootDark env.
Proof.
  unfold anyRootDark. rewrite themeTargets_roots.
  apply eq_true_iff_eq.
  rewrite List.existsb_exists, bool_decide_eq_true, Exists_exists.
  split.
  - intros (el & Hin & Hd). exists el.
    apply bool_decide_eq_true in Hd.
    rewrite <- list_elem_of_In, elem_of_uniqueInOrder in Hin. auto.
  - intros (el & Hin & Hd). exists el.
    rewrite <- list_elem_of_In, elem_of_uniqueInOrder, bool_decide_eq_true.
    auto.
Qed.

Lemma readTheme_readPreference (env : Env) :
  readTheme env = readPreference env.
Proof.
  unfold readTheme, readPreference, explicitAttribute.
  rewrite attribute_loop, themeTargets_roots, firstValid_unique.
  rewrite <- themeTargets_roots, anyDark_roots.
  destruct (firstValid _) as [m|].
  { rewrite storage_loop_done. reflexivity. }
  pose proof (storage_loop (localStorage env) THEME_KEYS) as Hs.
  destruct (legacyStored (localStorage env) THEME_KEYS) as [m|].
  { rewrite Hs. reflexivity. }
  destruct (fold_left _ THEME_KEYS Running) as [|m|] eqn:E;
    try (exfalso; exact (Hs m eq_refl));
    unfold prefersDark;
    destruct (matchMedia env) as [[|]|]; reflexivity.
Qed.

Lemma legacyStored_inaccessible (quota : bool)
    (stored : gmap jsstring jsstring) (keys : list jsstring) :
  legacyStored
    {| accessible := false; quotaExceeded := quota; items := stored |} keys
  = None.
Proof. destruct keys; reflexivity. Qed.

(** C9. [readTheme] resolves the theme in this order: the data-theme
    attribute of the first observed root (html, body, the root element,
    its first child) where it is dark or light; else the first valid value
    under the keys theme, vite-ui-theme, eglc_theme; else dark when an
    observed root has the class dark; else dark when the environment
    prefers a dark scheme; else light.  When storage cannot be read the
    failure is swallowed and resolution goes on with the classes. *)
Theorem readTheme_resolution_order :
  (∀ env, readTheme env = readPreference env)
  ∧ THEME_KEYS = [js "theme"; js "vite-ui-theme"; js "eglc_theme"]
  ∧ (∀ d quota stored media,
       let env := {| document := d;
                     localStorage := {| accessible := false;
                                        quotaExceeded := quota;
                                        items := stored |};
                     matchMedia := media |} in
       readTheme env
       = match explicitAttribute env with
         | Some m => m
         | None =>
             if anyRootDark env then Dark
             else if prefersDark env then Dark else Light
         end).
Proof.
  split; [|split].
  - apply readTheme_readPreference.
  - reflexivity.
  - intros d quota stored media env.
    rewrite readTheme_readPreference. unfold readPreference.
    unfold env at 2. simpl localStorage.
    rewrite legacyStored_inaccessible. reflexivity.
Qed.

End ThemeFacts.

(** ** The session check *)

Module AuthFacts.

Import Auth.

(** After the token has been written as empty, storage reads as empty,
    whatever the state of storage. *)
Lemma read_after_clear (st : Storage) :
  readStoredToken (storeToken [] st) = [].
Proof.
  unfold storeToken, readStoredToken, removeItem, getItem. simpl.
  destruct (accessible st) eqn:E; simpl; [|rewrite E; reflexivity].
  rewrite lookup_delete_eq. reflexivity.
Qed.

Lemma sessionEffect_sends (s : AuthBar) :
  token s ≠ [] →
  (sessionEffect s).2 = Some (nextRun s, token s)
  ∧ aliveRun (sessionEffect s).1 = Some (nextRun s)
  ∧ token (sessionEffect s).1 = token s
  ∧ storage (sessionEffect s).1 = storage s.
Proof.
  intros Hne. unfold sessionEffect.
  destruct (decide (token s = [])); [contradiction|]. simpl. auto.
Qed.

(** The [catch] handler of a check that is still alive. *)
Lemma settleMe_failure (run : nat) (r : MeFetch) (e : JsError) (s : AuthBar) :
  aliveRun s = Some run →
  requestMe r = Throw e →
  let s' := settleMe run r s in
  readStoredToken (storage s') = [] ∧ token s' = [] ∧ user s' = None
  ∧ checkingSession s' = false ∧ (sessionEffect s').2 = None.
Proof.
  intros Halive Hr. unfold settleMe.
  destruct (decide (aliveRun s = Some run)); [|contradiction].
  rewrite Hr. unfold writeStoredToken, sessionEffect.
  cbn [token user checkingSession storage aliveRun nextRun snd].
  pose proof (read_after_clear (storage s)) as Hc. rewrite Hc.
  destruct (decide _) as [_|Hn]; [auto | contradiction].
Qed.

(** The [then] handler of a check that is still alive. *)
Lemma settleMe_success (run : nat) (r : MeFetch) (u : option User)
    (s : AuthBar) :
  aliveRun s = Some run →
  requestMe r = Normal u →
  let s' := settleMe run r s in
  user s' = u ∧ token s' = token s ∧ storage s' = storage s
  ∧ checkingSession s' = false.
Proof.
  intros Halive Hr. unfold settleMe.
  destruct (decide (aliveRun s = Some run)); [|contradiction].
  rewrite Hr. simpl. auto.
Qed.

(** C6, as the code has it.  For a non-empty token the session-check
    effect sends the request.  When the request fails, by a rejected fetch
    or by a status that is not 2xx, the handlers of the check (while it is
    the current one) set the user to none and clear the token: the stored
    token reads as the empty string, the token state is empty, and the
    next run of the effect sends nothing.  When the response is 2xx with a
    user object, the user state is set from it and the token is kept. *)
Theorem failed_session_check_clears_token :
  ∀ s : AuthBar,
    token s ≠ [] →
    (sessionEffect s).2 = Some (nextRun s, token s)
    ∧ (∀ r,
         (∃ e, r = FetchRejects e) ∨ (∃ status body, r = Response false status body) →
         let s' := settleMe (nextRun s) r (sessionEffect s).1 in
         readStoredToken (storage s') = [] ∧ token s' = [] ∧ user s' = None
         ∧ (sessionEffect s').2 = None)
    ∧ (∀ status d u,
         let r := Response true status
                    (Some {| detail := d; user_field := Some u |}) in
         let s' := settleMe (nextRun s) r (sessionEffect s).1 in
         user s' = Some u ∧ token s' = token s ∧ storage s' = storage s).
Proof.
  intros s Hne.
  destruct (sessionEffect_sends s Hne) as (Hsent & Halive & Htok & Hst).
  split; [exact Hsent | split].
  - intros r Hr.
    assert (∃ e, requestMe r = Throw e) as [e He].
    { destruct Hr as [[e ->]|(status & body & ->)]; simpl; eauto. }
    destruct (settleMe_failure _ r e _ Halive He) as (H1 & H2 & H3 & _ & H5).
    auto.
  - intros status d u r s'.
    destruct (settleMe_success (nextRun s) r (Some u) _ Halive eq_refl)
      as (H1 & H2 & H3 & _).
    fold s' in H1, H2, H3. rewrite <- Htok, <- Hst. auto.
Qed.

(** An instance of C6: the token tok is stored, and the check is answered
    with status 401. *)
Lemma failed_session_check_witness :
  let s := mount storedTok in
  let s' := settleMe (nextRun s) (Response false 401 None)
              (sessionEffect s).1 in
  readStoredToken (storage s') = [] ∧ token s' = [] ∧ user s' = None
  ∧ (sessionEffect s').2 = None.
Proof.
  assert (Hne : token (mount storedTok) ≠ []) by (vm_compute; discriminate).
  apply (proj1 (proj2 (failed_session_check_clears_token
                         (mount storedTok) Hne))).
  right. exists 401%N, None. reflexivity.
Defined.

(** C6 as stated fails for a malformed body: when the response is 2xx and
    its body does not parse, the check does not fail; the user is set to
    none and the token stays stored. *)
Lemma malformed_body_keeps_token :
  let s := mount storedTok in
  let s' := settleMe (nextRun s) (Response true 200 None)
              (sessionEffect s).1 in
  token s = js "tok"
  ∧ readStoredToken (storage s') = js "tok"
  ∧ readStoredToken (storage s') ≠ []
  ∧ token s' = js "tok"
  ∧ user s' = None.
Proof.
  vm_compute. repeat split; discriminate.
Qed.

End AuthFacts.

(** ** The report preview: stale responses and failures *)

Module ReportFacts.

Import Report.

Lemma report_catchBranch_stale (requestId : nat) (e : JsError) (s : View) :
  previewReqRef s ≠ requestId → catchBranch requestId e s = s.
Proof.
  intros Hne. unfold catchBranch.
  destruct (_ || _); [reflexivity|].
  destruct (decide (previewReqRef s ≠ requestId)); [reflexivity|contradiction].
Qed.

(** A response whose id is not the latest changes nothing. *)
Lemma report_settle_stale (requestId : nat) (r : Fetch) (s : View) :
  previewReqRef s ≠ requestId → settle requestId r s = s.
Proof.
  intros Hne. unfold settle.
  assert (Hfin : finallyBranch requestId s = s).
  { unfold finallyBranch.
    destruct (decide (previewReqRef s = requestId));
      [contradiction | reflexivity]. }
  destruct r as [e|ok status body]; cbn zeta.
  - rewrite report_catchBranch_stale by exact Hne. exact Hfin.
  - destruct ok; cbn [negb].
    + destruct (decide (previewReqRef s ≠ requestId));
        [exact Hfin | contradiction].
    + rewrite report_catchBranch_stale by exact Hne. exact Hfin.
Qed.

Lemma report_settle_latest_or_unchanged (requestId : nat) (r : Fetch) (s : View) :
  settle requestId r s = s ∨ requestId = previewReqRef s.
Proof.
  destruct (decide (previewReqRef s = requestId)) as [E|Hne].
  - right. symmetry. exact E.
  - left. apply report_settle_stale, Hne.
Qed.

Lemma report_catchBranch_ref (requestId : nat) (e : JsError) (s : View) :
  previewReqRef (catchBranch requestId e s) = previewReqRef s.
Proof.
  unfold catchBranch. destruct (_ || _); [reflexivity|].
  destruct (decide _); reflexivity.
Qed.

(** Settling never issues an id. *)
Lemma report_settle_ref (requestId : nat) (r : Fetch) (s : View) :
  previewReqRef (settle requestId r s) = previewReqRef s.
Proof.
  unfold settle, finallyBranch.
  destruct r as [e|ok status body]; simpl.
  - destruct (decide _); simpl; apply report_catchBranch_ref.
  - destruct ok; simpl.
    + destruct (decide (previewReqRef s ≠ requestId));
        destruct (decide _); reflexivity.
    + destruct (decide _); simpl; apply report_catchBranch_ref.
Qed.

(** Each invocation takes the next id. *)
Lemma callPreview_issues (f : nat) (opts : Opts) (showLoader : bool)
    (s : View) :
  previewReqRef (callPreview (Some f) opts showLoader s).1
  = S (previewReqRef s)
  ∧ rq_id <$> (callPreview (Some f) opts showLoader s).2
    = Some (S (previewReqRef s)).
Proof. split; reflexivity. Qed.

(** The success branch of the latest request. *)
Lemma report_settle_success (requestId : nat) (status : N) (payload : Payload)
    (s : View) :
  previewReqRef s = requestId →
  let s' := settle requestId (Response true status (Some payload)) s in
  meta s' = meta_field payload
  ∧ coinsUSD s' = default [] (coins_USD payload)
  ∧ coinsTHB s' = default [] (coins_THB payload)
  ∧ rawPreview s' = default EMPTY_PREVIEW (rawPreview_field payload)
  ∧ cleanPreview s' = default EMPTY_PREVIEW (cleanPreview_field payload)
  ∧ errorMsg s' = errorMsg s
  ∧ loadingPreview s' = false.
Proof.
  intros E. unfold settle, finallyBranch. simpl.
  destruct (decide (previewReqRef s ≠ requestId)); [contradiction|].
  simpl. destruct (decide (previewReqRef s = requestId)); [|contradiction].
  simpl. unfold areSameStringArray.
  repeat split; case_bool_decide; congruence.
Qed.

(** A failure of the latest request that is not an abort. *)
Lemma report_catchBranch_failure (requestId : nat) (e : JsError) (s : View) :
  previewReqRef s = requestId →
  isAbortError e = false →
  requestId ∉ abortedSignals s →
  finallyBranch requestId (catchBranch requestId e s)
  = setLoadingPreview false (setErrorMsg (messageOf e) s).
Proof.
  intros E Hname Hsig. unfold catchBranch, finallyBranch.
  rewrite Hname, (bool_decide_eq_false_2 _ Hsig). simpl.
  destruct (decide (previewReqRef s ≠ requestId)); [contradiction|].
  simpl. destruct (decide (previewReqRef s = requestId));
    [reflexivity | contradiction].
Qed.

(** An aborted request. *)
Lemma report_catchBranch_abort (requestId : nat) (e : JsError) (s : View) :
  isAbortError e = true ∨ requestId ∈ abortedSignals s →
  finallyBranch requestId (catchBranch requestId e s)
  = if decide (previewReqRef s = requestId)
    then setLoadingPreview false s else s.
Proof.
  intros H. unfold catchBranch.
  replace (_ || _) with true; [reflexivity|].
  symmetry. apply orb_true_iff.
  destruct H as [H|H]; [left; exact H | right].
  apply bool_decide_eq_true, H.
Qed.

End ReportFacts.

(** ** The ETL preview: stale responses and failures *)

Module EtlFacts.

Import Etl.

Lemma etl_catchBranch_stale (requestId : nat) (e : JsError) (s : View) :
  previewReqRef s ≠ requestId → catchBranch requestId e s = s.
Proof.
  intros Hne. unfold catchBranch.
  destruct (_ && _); [|reflexivity].
  destruct (decide (previewReqRef s ≠ requestId)); [reflexivity|contradiction].
Qed.

(** A response whose id is not the latest changes nothing. *)
Lemma etl_settle_stale (requestId : nat) (r : Fetch) (s : View) :
  previewReqRef s ≠ requestId → settle requestId r s = s.
Proof.
  intros Hne. unfold settle.
  assert (Hfin : finallyBranch requestId s = s).
  { unfold finallyBranch.
    destruct (decide (previewReqRef s = requestId));
      [contradiction | reflexivity]. }
  destruct r as [e|text|json].
  - rewrite etl_catchBranch_stale by exact Hne. exact Hfin.
  - rewrite etl_catchBranch_stale by exact Hne. exact Hfin.
  - destruct (decide (previewReqRef s ≠ requestId));
      [exact Hfin | contradiction].
Qed.

Lemma etl_settle_latest_or_unchanged (requestId : nat) (r : Fetch) (s : View) :
  settle requestId r s = s ∨ requestId = previewReqRef s.
Proof.
  destruct (decide (previewReqRef s = requestId)) as [E|Hne].
  - right. symmetry. exact E.
  - left. apply etl_settle_stale, Hne.
Qed.

Lemma etl_catchBranch_ref (requestId : nat) (e : JsError) (s : View) :
  previewReqRef (catchBranch requestId e s) = previewReqRef s.
Proof.
  unfold catchBranch. destruct (_ && _); [|reflexivity].
  destruct (decide _); reflexivity.
Qed.

Lemma etl_settle_ref (requestId : nat) (r : Fetch) (s : View) :
  previewReqRef (settle requestId r s) = previewReqRef s.
Proof.
  unfold settle, finallyBranch.
  destruct r as [e|text|json]; simpl.
  - destruct (decide _); simpl; apply etl_catchBranch_ref.
  - destruct (decide _); simpl; apply etl_catchBranch_ref.
  - destruct (decide (previewReqRef s ≠ requestId));
      destruct (decide _); reflexivity.
Qed.

Lemma previewEffect_issues (f : nat) (lang : jsstring) (s : View) :
  previewReqRef (previewEffect (Some f) lang s).1 = S (previewReqRef s)
  ∧ rq_id <$> (previewEffect (Some f) lang s).2
    = Some (S (previewReqRef s)).
Proof. split; reflexivity. Qed.

Lemma etl_settle_success (requestId : nat) (json : PreviewData) (s : View) :
  previewReqRef s = requestId →
  previewData (settle requestId (Ok json) s) = Some json
  ∧ previewLoading (settle requestId (Ok json) s) = false.
Proof.
  intros E. unfold settle, finallyBranch.
  destruct (decide (previewReqRef s ≠ requestId)); [contradiction|].
  simpl. destruct (decide (previewReqRef s = requestId)); [|contradiction].
  split; reflexivity.
Qed.

Lemma etl_catchBranch_failure (requestId : nat) (e : JsError) (s : View) :
  previewReqRef s = requestId →
  isAbortError e = false →
  requestId ∉ abortedSignals s →
  finallyBranch requestId (catchBranch requestId e s)
  = setPreviewLoading false
      (setPreviewData (Some (failurePreview (messageOf e))) s).
Proof.
  intros E Hname Hsig. unfold catchBranch, finallyBranch.
  rewrite Hname, (bool_decide_eq_false_2 _ Hsig). simpl.
  destruct (decide (previewReqRef s ≠ requestId)); [contradiction|].
  simpl. destruct (decide (previewReqRef s = requestId));
    [reflexivity | contradiction].
Qed.

Lemma etl_catchBranch_abort (requestId : nat) (e : JsError) (s : View) :
  isAbortError e = true ∨ requestId ∈ abortedSignals s →
  finallyBranch requestId (catchBranch requestId e s)
  = if decide (previewReqRef s = requestId)
    then setPreviewLoading false s else s.
Proof.
  intros H. unfold catchBranch.
  replace (_ && _) with false; [reflexivity|].
  symmetry. apply andb_false_iff.
  destruct H as [H|H]; [left; rewrite H; reflexivity | right].
  rewrite (bool_decide_eq_true_2 _ H). reflexivity.
Qed.

End EtlFacts.

(** ** Claims about the two preview flows *)

Lemma messageOf_newError (msg : jsstring) :
  msg ≠ [] → messageOf (newError msg) = msg.
Proof.
  intros Hne. unfold messageOf, newError. simpl.
  destruct (decide (msg = [])); [contradiction | reflexivity].
Qed.

Lemma orElse_nonempty (a : option jsstring) (b : jsstring) :
  b ≠ [] → orElse a b ≠ [].
Proof.
  intros Hb. unfold orElse, truthy.
  destruct a as [s|]; [|exact Hb].
  destruct (decide (s = [])); [exact Hb | assumption].
Qed.

(** C1. Every preview invocation takes the next request id, and a
    response, success or error, changes the state only when its id is the
    latest issued id.  For two requests issued in order, of which the
    second resolves first, the late result of the first is a no-op and the
    state shows the second only, in the report flow and in the ETL flow;
    from the initial state the two ids are 1 and 2. *)
Theorem stale_response_suppression :
  (∀ (s : Report.View) f1 o1 b1 f2 o2 b2 r1 r2,
     let c1 := Report.callPreview (Some f1) o1 b1 s in
     let c2 := Report.callPreview (Some f2) o2 b2 c1.1 in
     let id1 := S (Report.previewReqRef s) in
     let id2 := S id1 in
     Report.rq_id <$> c1.2 = Some id1
     ∧ Report.rq_id <$> c2.2 = Some id2
     ∧ Report.previewReqRef c2.1 = id2
     ∧ Report.settle id1 r1 (Report.settle id2 r2 c2.1)
       = Report.settle id2 r2 c2.1)
  ∧ (∀ (s : Report.View) f1 o1 b1 f2 o2 b2 r1 status payload,
       let c1 := Report.callPreview (Some f1) o1 b1 s in
       let c2 := Report.callPreview (Some f2) o2 b2 c1.1 in
       let id1 := S (Report.previewReqRef s) in
       let id2 := S id1 in
       let shown :=
         Report.settle id1 r1
           (Report.settle id2 (Report.Response true status (Some payload))
              c2.1) in
       Report.meta shown = Report.meta_field payload
       ∧ Report.coinsUSD shown = default [] (Report.coins_USD payload)
       ∧ Report.coinsTHB shown = default [] (Report.coins_THB payload)
       ∧ Report.rawPreview shown
         = default Report.EMPTY_PREVIEW (Report.rawPreview_field payload)
       ∧ Report.cleanPreview shown
         = default Report.EMPTY_PREVIEW (Report.cleanPreview_field payload)
       ∧ Report.errorMsg shown = []
       ∧ Report.loadingPreview shown = false)
  ∧ (∀ requestId r (s : Report.View),
       Report.settle requestId r s = s
       ∨ requestId = Report.previewReqRef s)
  ∧ (∀ f1 o1 b1 f2 o2 b2,
       let c1 := Report.callPreview (Some f1) o1 b1 Report.initialView in
       let c2 := Report.callPreview (Some f2) o2 b2 c1.1 in
       Report.rq_id <$> c1.2 = Some 1 ∧ Report.rq_id <$> c2.2 = Some 2)
  ∧ (∀ (s : Etl.View) f1 lang1 f2 lang2 r1 r2,
       let c1 := Etl.previewEffect (Some f1) lang1 s in
       let c2 := Etl.previewEffect (Some f2) lang2 c1.1 in
       let id1 := S (Etl.previewReqRef s) in
       let id2 := S id1 in
       Etl.rq_id <$> c1.2 = Some id1
       ∧ Etl.rq_id <$> c2.2 = Some id2
       ∧ Etl.previewReqRef c2.1 = id2
       ∧ Etl.settle id1 r1 (Etl.settle id2 r2 c2.1)
         = Etl.settle id2 r2 c2.1)
  ∧ (∀ (s : Etl.View) f1 lang1 f2 lang2 r1 json,
       let c1 := Etl.previewEffect (Some f1) lang1 s in
       let c2 := Etl.previewEffect (Some f2) lang2 c1.1 in
       let id1 := S (Etl.previewReqRef s) in
       let id2 := S id1 in
       let shown := Etl.settle id1 r1 (Etl.settle id2 (Etl.Ok json) c2.1) in
       Etl.previewData shown = Some json
       ∧ Etl.previewLoading shown = false)
  ∧ (∀ requestId r (s : Etl.View),
       Etl.settle requestId r s = s ∨ requestId = Etl.previewReqRef s)
  ∧ (∀ f1 lang1 f2 lang2,
       let c1 := Etl.previewEffect (Some f1) lang1 Etl.initialView in
       let c2 := Etl.previewEffect (Some f2) lang2 c1.1 in
       Etl.rq_id <$> c1.2 = Some 1 ∧ Etl.rq_id <$> c2.2 = Some 2).
Proof.
  assert (Hreport : ∀ (s : Report.View) f1 o1 b1 f2 o2 b2 r1 r2,
            let c1 := Report.callPreview (Some f1) o1 b1 s in
            let c2 := Report.callPreview (Some f2) o2 b2 c1.1 in
            Report.settle (S (Report.previewReqRef s)) r1
              (Report.settle (S (S (Report.previewReqRef s))) r2 c2.1)
            = Report.settle (S (S (Report.previewReqRef s))) r2 c2.1).
  { intros. apply ReportFacts.report_settle_stale.
    rewrite ReportFacts.report_settle_ref. simpl. lia. }
  assert (Hetl : ∀ (s : Etl.View) f1 lang1 f2 lang2 r1 r2,
            let c1 := Etl.previewEffect (Some f1) lang1 s in
            let c2 := Etl.previewEffect (Some f2) lang2 c1.1 in
            Etl.settle (S (Etl.previewReqRef s)) r1
              (Etl.settle (S (S (Etl.previewReqRef s))) r2 c2.1)
            = Etl.settle (S (S (Etl.previewReqRef s))) r2 c2.1).
  { intros. apply EtlFacts.etl_settle_stale.
    rewrite EtlFacts.etl_settle_ref. simpl. lia. }
  repeat apply conj.
  - intros. repeat split. apply Hreport.
  - intros s f1 o1 b1 f2 o2 b2 r1 status payload c1 c2 id1 id2 shown.
    unfold shown, id1, id2, c2, c1. rewrite Hreport.
    destruct (ReportFacts.report_settle_success
                (S (S (Report.previewReqRef s))) status payload
                (Report.callPreview (Some f2) o2 b2
                   (Report.callPreview (Some f1) o1 b1 s).1).1 eq_refl)
      as (H1 & H2 & H3 & H4 & H5 & H6 & H7).
    repeat split; assumption.
  - apply ReportFacts.report_settle_latest_or_unchanged.
  - intros. split; reflexivity.
  - intros. repeat split. apply Hetl.
  - intros s f1 lang1 f2 lang2 r1 json c1 c2 id1 id2 shown.
    unfold shown, id1, id2, c2, c1. rewrite Hetl.
    apply EtlFacts.etl_settle_success. reflexivity.
  - apply EtlFacts.etl_settle_latest_or_unchanged.
  - intros. split; reflexivity.
Qed.

(** C7, as the code has it.  On a failure of the latest request that is
    not an abort, the ETL flow replaces the preview with a payload that
    holds exactly one validation error (error count 1, one entry with row
    1, field Preview and the message, empty raw and clean tables), and the
    report flow sets the error message and leaves the tables and the coin
    lists as they are.  In both flows an aborted request surfaces nothing:
    it leaves the preview data and the error message as they are, and
    changes at most the loading flag, which it clears when it is still the
    latest request. *)
Theorem preview_failure_handling :
  (∀ (s : Etl.View) e,
     isAbortError e = false →
     Etl.previewReqRef s ∉ Etl.abortedSignals s →
     Etl.settle (Etl.previewReqRef s) (Etl.Rejects e) s
     = Etl.setPreviewLoading false
         (Etl.setPreviewData (Some (Etl.failurePreview (messageOf e))) s))
  ∧ (∀ (s : Etl.View) text,
       Etl.previewReqRef s ∉ Etl.abortedSignals s →
       Etl.settle (Etl.previewReqRef s) (Etl.NotOk text) s
       = Etl.setPreviewLoading false
           (Etl.setPreviewData
              (Some (Etl.failurePreview (messageOf (newError text)))) s))
  ∧ (∀ msg,
       Etl.failurePreview msg
       = {| Etl.summary := None;
            Etl.validation :=
              {| Etl.error_count := 1; Etl.warning_count := 0;
                 Etl.errors := [{| Etl.row := 1; Etl.field := js "Preview";
                                   Etl.message := msg |}];
                 Etl.warnings := [] |};
            Etl.preview_raw := {| Etl.columns := []; Etl.rows := [] |};
            Etl.preview_clean := {| Etl.columns := []; Etl.rows := [] |} |})
  ∧ (∀ (s : Report.View) e,
       isAbortError e = false →
       Report.previewReqRef s ∉ Report.abortedSignals s →
       Report.settle (Report.previewReqRef s) (Report.FetchRejects e) s
       = Report.setLoadingPreview false
           (Report.setErrorMsg (messageOf e) s))
  ∧ (∀ (s : Report.View) status body,
       Report.previewReqRef s ∉ Report.abortedSignals s →
       Report.settle (Report.previewReqRef s)
         (Report.Response false status body) s
       = Report.setLoadingPreview false
           (Report.setErrorMsg
              (orElse (Report.detail (default Report.emptyObject body))
                 (httpStatusText status)) s))
  ∧ (∀ (s : Report.View) msg,
       let s' := Report.setLoadingPreview false (Report.setErrorMsg msg s) in
       Report.errorMsg s' = msg
       ∧ Report.meta s' = Report.meta s
       ∧ Report.coinsUSD s' = Report.coinsUSD s
       ∧ Report.coinsTHB s' = Report.coinsTHB s
       ∧ Report.rawPreview s' = Report.rawPreview s
       ∧ Report.cleanPreview s' = Report.cleanPreview s)
  ∧ (∀ (s : Etl.View) requestId e,
       isAbortError e = true ∨ requestId ∈ Etl.abortedSignals s →
       Etl.settle requestId (Etl.Rejects e) s
       = if decide (Etl.previewReqRef s = requestId)
         then Etl.setPreviewLoading false s else s)
  ∧ (∀ (s : Report.View) requestId e,
       isAbortError e = true ∨ requestId ∈ Report.abortedSignals s →
       Report.settle requestId (Report.FetchRejects e) s
       = if decide (Report.previewReqRef s = requestId)
         then Report.setLoadingPreview false s else s)
  ∧ (∀ (s : Etl.View) b,
       Etl.previewData (Etl.setPreviewLoading b s) = Etl.previewData s)
  ∧ (∀ (s : Report.View) b,
       let s' := Report.setLoadingPreview b s in
       Report.errorMsg s' = Report.errorMsg s
       ∧ Report.meta s' = Report.meta s
       ∧ Report.coinsUSD s' = Report.coinsUSD s
       ∧ Report.coinsTHB s' = Report.coinsTHB s
       ∧ Report.rawPreview s' = Report.rawPreview s
       ∧ Report.cleanPreview s' = Report.cleanPreview s).
Proof.
  repeat apply conj.
  - intros s e Hname Hsig.
    apply EtlFacts.etl_catchBranch_failure; auto.
  - intros s text Hsig.
    apply (EtlFacts.etl_catchBranch_failure _ (newError text)); auto.
  - reflexivity.
  - intros s e Hname Hsig.
    apply ReportFacts.report_catchBranch_failure; auto.
  - intros s status body Hsig. unfold Report.settle. cbn [negb].
    rewrite ReportFacts.report_catchBranch_failure; auto.
    rewrite messageOf_newError; [reflexivity|].
    apply orElse_nonempty. discriminate.
  - intros. repeat split.
  - intros s requestId e H. apply EtlFacts.etl_catchBranch_abort, H.
  - intros s requestId e H. apply ReportFacts.report_catchBranch_abort, H.
  - reflexivity.
  - intros. repeat split.
Qed.

(** An instance of C7: the latest ETL request fails with a network
    error. *)
Lemma preview_failure_handling_witness :
  let s := (Etl.previewEffect (Some 7) (js "en") Etl.initialView).1 in
  let e := {| e_name := js "TypeError"; e_message := js "Failed to fetch" |} in
  Etl.settle (Etl.previewReqRef s) (Etl.Rejects e) s
  = Etl.setPreviewLoading false
      (Etl.setPreviewData (Some (Etl.failurePreview (messageOf e))) s).
Proof.
  apply (proj1 preview_failure_handling).
  - reflexivity.
  - apply not_elem_of_empty.
Defined.

(** C7 as stated fails for the loading flag: when the file is removed
    while its ETL preview is in flight, the cleanup aborts the request,
    and the aborted request, still the latest, clears the loading flag. *)
Lemma aborted_request_clears_loading :
  let s1 := (Etl.previewEffect (Some 7) (js "en") Etl.initialView).1 in
  let s2 := (Etl.previewEffect None (js "en") s1).1 in
  let abort := {| e_name := js "AbortError"; e_message := [] |} in
  let s3 := Etl.settle 1 (Etl.Rejects abort) s2 in
  1 ∈ Etl.abortedSignals s2
  ∧ Etl.previewLoading s2 = true
  ∧ Etl.previewLoading s3 = false
  ∧ s3 ≠ s2.
Proof.
  cbv zeta. split; [|split; [|split]].
  - apply (bool_decide_unpack _). vm_compute. exact I.
  - reflexivity.
  - vm_compute. reflexivity.
  - intros H. apply (f_equal Etl.previewLoading) in H.
    vm_compute in H. discriminate.
Qed.

(** ** Scheduling of the report preview *)

Module ScheduleFacts.

Import Report.

Lemma clearTimeout_own (t : Timer) : clearTimeout (timerId t) [t] = [].
Proof.
  unfold clearTimeout. rewrite filter_cons, filter_nil.
  destruct (decide (timerId t ≠ timerId t)); [contradiction | reflexivity].
Qed.

(** The cleanup of the effect leaves no timer pending. *)
Lemma cleanup_clears (p : Page) :
  Pending p →
  match effectCleanup p with
  | Some tmr => clearTimeout tmr (timers p)
  | None => timers p
  end = [].
Proof.
  unfold Pending. intros H.
  destruct (effectCleanup p) as [tmr|] eqn:E.
  - unfold clearTimeout. induction H as [|t ts Ht _ IH]; [reflexivity|].
    rewrite filter_cons. injection Ht as ->.
    destruct (decide (timerId t ≠ timerId t)); [contradiction | exact IH].
  - destruct H as [|t ts Ht _]; [reflexivity | discriminate].
Qed.

(** What a run of the effect leaves, for a render with a file. *)
Lemma schedulingEffect_file (r : Render) (f : nat) (p : Page) :
  Pending p →
  r_file r = Some f →
  let blocking :=
    bool_decide (cfg_file (prevPreviewConfigRef p) ≠ Some f)
    || bool_decide (cfg_asset (prevPreviewConfigRef p) ≠ r_asset r)
    || bool_decide (cfg_includeBot (prevPreviewConfigRef p) ≠ r_includeBot r) in
  schedulingEffect r p
  = {| view := view p;
       prevPreviewConfigRef :=
         {| cfg_file := Some f; cfg_asset := r_asset r;
            cfg_includeBot := r_includeBot r |};
       timers := [{| timerId := nextTimerId p;
                     due := now p + (if blocking then 0 else 260);
                     closure := r; isBlockingPreview := blocking |}];
       nextTimerId := S (nextTimerId p);
       effectCleanup := Some (nextTimerId p);
       now := now p; network := network p |}.
Proof.
  intros Hp Hf. unfold schedulingEffect.
  rewrite (cleanup_clears p Hp), Hf. reflexivity.
Qed.

Lemma structural_blocking (cfg : Config) (r : Render) (f : nat) :
  r_file r = Some f →
  Structural cfg r →
  bool_decide (cfg_file cfg ≠ Some f)
  || bool_decide (cfg_asset cfg ≠ r_asset r)
  || bool_decide (cfg_includeBot cfg ≠ r_includeBot r) = true.
Proof.
  intros Hf [_ H]. rewrite Hf in H. rewrite !orb_true_iff.
  rewrite !bool_decide_eq_true. tauto.
Qed.

Lemma refinement_not_blocking (cfg : Config) (r : Render) (f : nat) :
  r_file r = Some f →
  Refinement cfg r →
  bool_decide (cfg_file cfg ≠ Some f)
  || bool_decide (cfg_asset cfg ≠ r_asset r)
  || bool_decide (cfg_includeBot cfg ≠ r_includeBot r) = false
  ∧ {| cfg_file := Some f; cfg_asset := r_asset r;
       cfg_includeBot := r_includeBot r |} = cfg.
Proof.
  intros Hf (_ & H1 & H2 & H3). rewrite Hf in H1.
  destruct cfg as [cf ca cb]. simpl in *. subst. split; [|reflexivity].
  rewrite !orb_false_iff, !bool_decide_eq_false. tauto.
Qed.

Lemma nextDue_single (time : nat) (t : Timer) :
  nextDue time [t] = if decide (due t ≤ time) then Some t else None.
Proof. reflexivity. Qed.

(** Time passes over a single timer that is not yet due. *)
Lemma elapse_waiting (dt : nat) (t : Timer) (p : Page) :
  timers p = [t] →
  now p + dt < due t →
  elapse dt p
  = {| view := view p; prevPreviewConfigRef := prevPreviewConfigRef p;
       timers := [t]; nextTimerId := nextTimerId p;
       effectCleanup := effectCleanup p; now := now p + dt;
       network := network p |}.
Proof.
  intros Ht Hdue. unfold elapse. rewrite Ht. simpl.
  rewrite nextDue_single.
  destruct (decide (due t ≤ now p + dt)); [lia | reflexivity].
Qed.

(** Time passes over a single timer that becomes due: its callback runs. *)
Lemma elapse_firing (dt : nat) (t : Timer) (p : Page) :
  timers p = [t] →
  due t ≤ now p + dt →
  elapse dt p
  = timerCallback t
      {| view := view p; prevPreviewConfigRef := prevPreviewConfigRef p;
         timers := []; nextTimerId := nextTimerId p;
         effectCleanup := effectCleanup p; now := now p + dt;
         network := network p |}.
Proof.
  intros Ht Hdue. unfold elapse. rewrite Ht. simpl.
  rewrite nextDue_single.
  destruct (decide (due t ≤ now p + dt)); [|lia].
  rewrite clearTimeout_own. reflexivity.
Qed.

Lemma elapse_idle (dt : nat) (p : Page) :
  timers p = [] →
  elapse dt p
  = {| view := view p; prevPreviewConfigRef := prevPreviewConfigRef p;
       timers := []; nextTimerId := nextTimerId p;
       effectCleanup := effectCleanup p; now := now p + dt;
       network := network p |}.
Proof. intros Ht. unfold elapse. rewrite Ht. reflexivity. Qed.

(** The pending timers stay those of the last run of the effect. *)
Lemma Pending_initial : Pending initialPage.
Proof. constructor. Qed.

Lemma Pending_schedulingEffect (r : Render) (p : Page) :
  Pending p → Pending (schedulingEffect r p).
Proof.
  intros Hp. destruct (r_file r) as [f|] eqn:Hf.
  - rewrite (schedulingEffect_file r f p Hp Hf).
    repeat constructor.
  - unfold schedulingEffect. rewrite (cleanup_clears p Hp), Hf. constructor.
Qed.

Lemma schedulingEffect_replaces (r : Render) (p : Page) :
  Pending p → length (timers (schedulingEffect r p)) ≤ 1.
Proof.
  intros Hp. destruct (r_file r) as [f|] eqn:Hf.
  - rewrite (schedulingEffect_file r f p Hp Hf). reflexivity.
  - unfold schedulingEffect. rewrite (cleanup_clears p Hp), Hf. simpl. lia.
Qed.

(** The callback of a timer sends one request. *)
Lemma timerCallback_sends (t : Timer) (f : nat) (p : Page) :
  r_file (closure t) = Some f →
  network (timerCallback t p)
  = network p ++ [requestOf (previewReqRef (view p)) f (closure t)]
  ∧ loadingPreview (view (timerCallback t p))
    = (if isBlockingPreview t then true else loadingPreview (view p))
  ∧ timers (timerCallback t p) = timers p.
Proof.
  intros Hf. unfold timerCallback. rewrite Hf. simpl. auto.
Qed.

(** A structural change: the request goes out at once, with the loader. *)
Lemma structural_immediate (r : Render) (f : nat) (p : Page) :
  Pending p →
  r_file r = Some f →
  Structural (prevPreviewConfigRef p) r →
  timers (schedulingEffect r p)
  = [{| timerId := nextTimerId p; due := now p + 0; closure := r;
        isBlockingPreview := true |}]
  ∧ network (elapse 0 (schedulingEffect r p))
    = network p ++ [requestOf (previewReqRef (view p)) f r]
  ∧ loadingPreview (view (elapse 0 (schedulingEffect r p))) = true
  ∧ timers (elapse 0 (schedulingEffect r p)) = [].
Proof.
  intros Hp Hf Hs.
  rewrite (schedulingEffect_file r f p Hp Hf).
  rewrite (structural_blocking _ r f Hf Hs).
  split; [reflexivity|].
  erewrite elapse_firing; [|reflexivity | simpl; lia].
  match goal with
  | |- context [timerCallback ?t ?q] =>
      destruct (timerCallback_sends t f q Hf) as (H1 & H2 & H3)
  end.
  rewrite H1, H2, H3. simpl. auto.
Qed.

(** A refinement change: the request waits 260 ms, without the loader. *)
Lemma refinement_debounced (r : Render) (f : nat) (p : Page) :
  Pending p →
  r_file r = Some f →
  Refinement (prevPreviewConfigRef p) r →
  Debouncing p r (schedulingEffect r p).
Proof.
  intros Hp Hf Hr.
  rewrite (schedulingEffect_file r f p Hp Hf).
  destruct (refinement_not_blocking _ r f Hf Hr) as [-> ->].
  exists (nextTimerId p). simpl. auto.
Qed.

Lemma debouncing_waits (p0 : Page) (r : Render) (q : Page) (dt : nat) :
  Debouncing p0 r q →
  dt < 260 →
  network (elapse dt q) = network p0
  ∧ view (elapse dt q) = view p0
  ∧ Pending (elapse dt q)
  ∧ prevPreviewConfigRef (elapse dt q) = prevPreviewConfigRef p0.
Proof.
  intros (tmr & Ht & Hc & Hv & Hn & Hcfg) Hdt.
  rewrite (elapse_waiting dt _ q Ht) by (simpl; lia).
  simpl. repeat split; auto.
  constructor; [exact Hc | constructor].
Qed.

Lemma debouncing_next (p0 : Page) (r r' : Render) (q : Page) (gap : nat) :
  Debouncing p0 r q →
  gap < 260 →
  Refinement (prevPreviewConfigRef p0) r' →
  Debouncing p0 r' (schedulingEffect r' (elapse gap q)).
Proof.
  intros Hq Hgap Hr.
  destruct (debouncing_waits p0 r q gap Hq Hgap) as (Hn & Hv & Hp & Hcfg).
  destruct Hr as (Hsome & Hrest). destruct Hsome as [f Hf].
  assert (Hr' : Refinement (prevPreviewConfigRef (elapse gap q)) r').
  { rewrite Hcfg. split; [eauto | exact Hrest]. }
  destruct (refinement_debounced r' f _ Hp Hf Hr')
    as (tmr & Ht & Hc & Hv' & Hn' & Hcfg').
  exists tmr. repeat split; congruence.
Qed.

Lemma last_cons_default {A : Type} (a d : A) (l : list A) :
  List.last (a :: l) d = List.last l a.
Proof.
  revert a d. induction l as [|b l IH]; intros a d; [reflexivity|].
  change (List.last (a :: b :: l) d) with (List.last (b :: l) d).
  rewrite !IH. reflexivity.
Qed.

(** A burst of refinement changes leaves the page waiting on the timer of
    the last one. *)
Lemma burst_debouncing (p0 : Page) (rest : list (nat * Render)) :
  ∀ (r : Render) (q : Page),
    Debouncing p0 r q →
    Forall (fun c => c.1 < 260 ∧ Refinement (prevPreviewConfigRef p0) c.2)
           rest →
    Debouncing p0 (List.last (List.map snd rest) r) (burst rest q).
Proof.
  induction rest as [|[gap r'] rest IH]; intros r q Hq Hall; [exact Hq|].
  apply Forall_cons in Hall as [[Hgap Hr] Hall].
  simpl List.map. rewrite last_cons_default. simpl burst.
  apply IH; [|exact Hall].
  apply (debouncing_next p0 r r' q gap); assumption.
Qed.

Lemma debouncing_fires (p0 : Page) (r : Render) (f : nat) (q : Page)
    (wait : nat) :
  Debouncing p0 r q →
  r_file r = Some f →
  260 ≤ wait →
  network (elapse wait q)
  = network p0 ++ [requestOf (previewReqRef (view p0)) f r]
  ∧ loadingPreview (view (elapse wait q)) = loadingPreview (view p0)
  ∧ timers (elapse wait q) = [].
Proof.
  intros (tmr & Ht & Hc & Hv & Hn & Hcfg) Hf Hwait.
  rewrite (elapse_firing wait _ q Ht) by (simpl; lia).
  match goal with
  | |- context [timerCallback ?t ?p] =>
      destruct (timerCallback_sends t f p Hf) as (H1 & H2 & H3)
  end.
  rewrite H1, H2, H3. simpl. rewrite Hv, Hn. auto.
Qed.

Lemma Pending_runTimers (fuel : nat) (p : Page) :
  Pending p → Pending (runTimers fuel p).
Proof.
  revert p. induction fuel as [|fuel IH]; intros p Hp; [exact Hp|].
  simpl. destruct (nextDue (now p) (timers p)) as [t|]; [|exact Hp].
  apply IH. unfold Pending, timerCallback in *.
  destruct (callPreview _ _ _ _) as [v sent]. simpl.
  unfold clearTimeout. apply Forall_forall. intros x Hx.
  apply list_elem_of_filter in Hx as [_ Hx].
  rewrite Forall_forall in Hp. apply Hp, Hx.
Qed.

Lemma Pending_elapse (dt : nat) (p : Page) : Pending p → Pending (elapse dt p).
Proof. intros Hp. apply Pending_runTimers. exact Hp. Qed.

Lemma Pending_respond (requestId : nat) (r : Fetch) (p : Page) :
  Pending p → Pending (respond requestId r p).
Proof. intros Hp. exact Hp. Qed.

(** C2. A structural change (the file, the asset or the includeBot flag
    differs from the previous scheduled preview) sets a timer with no
    delay, and its request goes out with the blocking loader shown.  A
    refinement change (the coin selection only) sets a timer of 260 ms
    without the loader, and nothing is sent before it is due.  Every run
    of the scheduling effect clears the pending timer and leaves at most
    the one it sets.  So a burst of refinement changes, each less than
    260 ms after the previous one, sends exactly one request, 260 ms after
    the last change, with the parameters of the last change. *)
Theorem preview_debounce_policy :
  (∀ p r f,
     Pending p → r_file r = Some f →
     Structural (prevPreviewConfigRef p) r →
     timers (schedulingEffect r p)
     = [{| timerId := nextTimerId p; due := now p + 0; closure := r;
           isBlockingPreview := true |}]
     ∧ network (elapse 0 (schedulingEffect r p))
       = network p ++ [requestOf (previewReqRef (view p)) f r]
     ∧ loadingPreview (view (elapse 0 (schedulingEffect r p))) = true
     ∧ timers (elapse 0 (schedulingEffect r p)) = [])
  ∧ (∀ p r f dt,
       Pending p → r_file r = Some f →
       Refinement (prevPreviewConfigRef p) r →
       dt < 260 →
       timers (schedulingEffect r p)
       = [{| timerId := nextTimerId p; due := now p + 260; closure := r;
             isBlockingPreview := false |}]
       ∧ network (elapse dt (schedulingEffect r p)) = network p
       ∧ view (elapse dt (schedulingEffect r p)) = view p)
  ∧ (∀ p r,
       Pending p →
       Pending (schedulingEffect r p)
       ∧ length (timers (schedulingEffect r p)) ≤ 1)
  ∧ (∀ p f first rest wait,
       Pending p →
       cfg_file (prevPreviewConfigRef p) = Some f →
       Refinement (prevPreviewConfigRef p) first →
       Forall (fun c => c.1 < 260
                        ∧ Refinement (prevPreviewConfigRef p) c.2) rest →
       260 ≤ wait →
       let changed := burst rest (schedulingEffect first p) in
       let lastRender := List.last (List.map snd rest) first in
       network changed = network p
       ∧ network (elapse wait changed)
         = network p ++ [requestOf (previewReqRef (view p)) f lastRender]
       ∧ loadingPreview (view (elapse wait changed))
         = loadingPreview (view p)
       ∧ timers (elapse wait changed) = []).
Proof.
  repeat apply conj.
  - intros p r f. apply structural_immediate.
  - intros p r f dt Hp Hf Hr Hdt.
    pose proof (refinement_debounced r f p Hp Hf Hr) as Hd.
    destruct (debouncing_waits p r _ dt Hd Hdt) as (Hn & Hv & _ & _).
    split; [|auto].
    rewrite (schedulingEffect_file r f p Hp Hf).
    destruct (refinement_not_blocking _ r f Hf Hr) as [-> _]. reflexivity.
  - intros p r Hp. split.
    + apply Pending_schedulingEffect, Hp.
    + apply schedulingEffect_replaces, Hp.
  - intros p f first rest wait Hp Hfile Hfirst Hrest Hwait changed lastRender.
    assert (Hf1 : r_file first = Some f).
    { destruct Hfirst as (_ & <- & _). exact Hfile. }
    pose proof (refinement_debounced first f p Hp Hf1 Hfirst) as Hd.
    pose proof (burst_debouncing p rest first _ Hd Hrest) as Hb.
    fold changed lastRender in Hb.
    assert (Hfl : r_file lastRender = Some f).
    { unfold lastRender.
      assert (Hall : Forall (fun r => r_file r = Some f) (List.map snd rest)).
      { clear -Hrest Hfile. induction Hrest as [|[g r] l [_ Hr] _ IH];
          simpl; constructor; [|exact IH].
        destruct Hr as (_ & Hr & _). simpl in Hr. congruence. }
      clear -Hall Hf1. revert first Hf1.
      induction Hall as [|r l Hr _ IH]; intros first Hf1; [exact Hf1|].
      rewrite last_cons_default. apply IH, Hr. }
    split.
    + destruct Hb as (_ & _ & _ & _ & Hn & _). exact Hn.
    + apply (debouncing_fires p lastRender f changed wait Hb Hfl Hwait).
Qed.

(** An instance of C2: on a loaded page, three selections follow one
    another after 100 ms and 200 ms; one request goes out, with the last
    selection. *)
Lemma preview_debounce_witness :
  let changed :=
    burst [(100, selecting [js "BTC"; js "ETH"]);
           (200, selecting [js "BTC"; js "ETH"; js "XRP"])]
      (schedulingEffect (selecting [js "BTC"]) loadedPage) in
  network changed = network loadedPage
  ∧ network (elapse 260 changed)
    = network loadedPage
      ++ [requestOf (previewReqRef (view loadedPage)) 7
            (selecting [js "BTC"; js "ETH"; js "XRP"])]
  ∧ loadingPreview (view (elapse 260 changed))
    = loadingPreview (view loadedPage)
  ∧ timers (elapse 260 changed) = [].
Proof.
  apply (proj2 (proj2 (proj2 preview_debounce_policy)) loadedPage 7
           (selecting [js "BTC"])
           [(100, selecting [js "BTC"; js "ETH"]);
            (200, selecting [js "BTC"; js "ETH"; js "XRP"])]
           260).
  - constructor.
  - reflexivity.
  - repeat split. eexists. reflexivity.
  - repeat constructor; simpl; try lia; eexists; reflexivity.
  - lia.
Defined.

End ScheduleFacts.

(** ** The embedding on concrete inputs *)

Example trim_example : trim (js "  a b  ") = js "a b".
Proof. reflexivity. Qed.

Example trim_blank_example : trim [9; 10; 160; 8232; 65279]%N = [].
Proof. reflexivity. Qed.

Example httpStatusText_example : httpStatusText 404 = js "HTTP 404".
Proof. reflexivity. Qed.

Example messageOf_example :
  messageOf (newError []) = js "Error"
  ∧ messageOf {| e_name := js "TypeError";
                 e_message := js "Failed to fetch" |}
    = js "Failed to fetch".
Proof. split; reflexivity. Qed.

Example normalize_not_array_example :
  normalizeCoinList asciiToLowerCase None = [].
Proof. reflexivity. Qed.

Example reconcile_keeps_example :
  reconcileWatchlist asciiToLowerCase
    (Some [js "xrp"; js "DOGE"; js " btc "])
    (Some [js "BTC"; js "ETH"; js "XRP"]) (Some []) (Some [])
  = [js "XRP"; js "BTC"].
Proof. vm_compute. reflexivity. Qed.

Example reconcile_fallback_example :
  reconcileWatchlist asciiToLowerCase (Some [])
    (Some [js "A"; js "B"; js "C"; js "D"; js "E"; js "F"; js "G";
           js "H"; js "I"; js "J"; js "K"; js "L"; js "M"; js "N"])
    (Some [js "A"]) (Some [js "B"])
  = [js "A"; js "B"; js "C"; js "D"; js "E"; js "F"; js "G";
     js "H"; js "I"; js "J"; js "K"; js "L"].
Proof. vm_compute. reflexivity. Qed.

Example toggleCoin_example :
  toggleCoin (js "XRP") (toggleCoin (js "ETH") (toggleCoin (js "XRP") []))
  = [js "ETH"].
Proof. vm_compute. reflexivity. Qed.

Example regexExec_first_example :
  Download.regexExec
    (js "a; filename=" ++ [Download.quote] ++ js "x.csv" ++ [Download.quote]
     ++ js "; filename=" ++ [Download.quote] ++ js "y.csv" ++ [Download.quote])
  = Some (js "x.csv").
Proof. vm_compute. reflexivity. Qed.

Example regexExec_empty_name_example :
  Download.cleanFilename
    (Some (js "attachment; filename=" ++ [Download.quote; Download.quote]))
  = js "CLEAN.csv".
Proof. vm_compute. reflexivity. Qed.

Example regexExec_unquoted_example :
  Download.reportFilename (Some (js "attachment; filename=report.xlsx"))
  = Normal (js "REPORT_CLEAN.xlsx").
Proof. vm_compute. reflexivity. Qed.

Example readTheme_attribute_example :
  Theme.readTheme
    {| Theme.document :=
         {| Theme.elements :=
              {[ 0 := {| Theme.dataTheme := Some (js "auto");
                         Theme.classList := [js "dark"] |};
                 1 := {| Theme.dataTheme := Some (js "light");
                         Theme.classList := [] |} ]};
            Theme.documentElement := 0; Theme.body := Some 1;
            Theme.rootElement := None;
            Theme.rootFirstElementChild := None |};
       Theme.localStorage :=
         {| accessible := true; quotaExceeded := false;
            items := {[ js "theme" := js "dark" ]} |};
       Theme.matchMedia := Some true |}
  = Theme.Light.
Proof. vm_compute. reflexivity. Qed.

Example readTheme_storage_example :
  Theme.readTheme
    {| Theme.document :=
         {| Theme.elements := ∅;
            Theme.documentElement := 0; Theme.body := Some 1;
            Theme.rootElement := Some 2;
            Theme.rootFirstElementChild := Some 3 |};
       Theme.localStorage :=
         {| accessible := true; quotaExceeded := false;
            items := {[ js "theme" := js "system";
                        js "eglc_theme" := js "dark" ]} |};
       Theme.matchMedia := None |}
  = Theme.Dark.
Proof. vm_compute. reflexivity. Qed.

Example readTheme_default_example :
  Theme.readTheme
    {| Theme.document :=
         {| Theme.elements := ∅;
            Theme.documentElement := 0; Theme.body := None;
            Theme.rootElement := None;
            Theme.rootFirstElementChild := None |};
       Theme.localStorage :=
         {| accessible := false; quotaExceeded := false;
            items := {[ js "theme" := js "dark" ]} |};
       Theme.matchMedia := Some false |}
  = Theme.Light.
Proof. vm_compute. reflexivity. Qed.

Example structural_then_refinement_example :
  let p1 := Report.schedulingEffect (Report.selecting []) Report.initialPage in
  let p2 := Report.elapse 0 p1 in
  let p3 := Report.schedulingEffect (Report.selecting [js "BTC"]) p2 in
  List.map Report.rq_id (Report.network p2) = [1]
  ∧ Report.loadingPreview (Report.view p2) = true
  ∧ Report.network (Report.elapse 259 p3) = Report.network p2
  ∧ List.map Report.rq_coins (Report.network (Report.elapse 260 p3))
    = [[]; js "BTC"].
Proof. vm_compute. repeat split; reflexivity. Qed.

(** ** The base of the API *)

Module ApiFacts.

Import Api.

Lemma onlySlashes_replicate (n : nat) : onlySlashes (replicate n slash) = true.
Proof. induction n as [|n IH]; [reflexivity | exact IH]. Qed.

Lemma onlySlashes_spec (s : jsstring) :
  onlySlashes s = true ↔ s = replicate (length s) slash.
Proof.
  induction s as [|c r IH]; [simpl; tauto|].
  change (onlySlashes (c :: r))
    with (bool_decide (c = slash) && onlySlashes r).
  rewrite andb_true_iff, bool_decide_eq_true, IH. simpl. split.
  - intros [-> E]. f_equal. exact E.
  - intros [= -> E]. split; [reflexivity | exact E].
Qed.

Lemma onlySlashes_snoc (s : jsstring) :
  onlySlashes (s ++ [slash]) = onlySlashes s.
Proof.
  unfold onlySlashes. rewrite forallb_app. simpl.
  apply andb_true_r.
Qed.

Lemma stripTrailingSlashes_cons (c : N) (r : jsstring) :
  stripTrailingSlashes (c :: r)
  = if onlySlashes (c :: r) then [] else c :: stripTrailingSlashes r.
Proof. reflexivity. Qed.

(** What is stripped is a run of slashes. *)
Lemma stripTrailingSlashes_split (s : jsstring) :
  ∃ n, s = stripTrailingSlashes s ++ replicate n slash.
Proof.
  induction s as [|c r [n IH]].
  - exists 0. reflexivity.
  - rewrite stripTrailingSlashes_cons. destruct (onlySlashes (c :: r)) eqn:E.
    + exists (length (c :: r)). apply onlySlashes_spec, E.
    + exists n. simpl. f_equal. exact IH.
Qed.

(** What is left does not end with a slash. *)
Lemma stripTrailingSlashes_last (s : jsstring) :
  last (stripTrailingSlashes s) ≠ Some slash.
Proof.
  induction s as [|c r IH]; [discriminate|].
  rewrite stripTrailingSlashes_cons. destruct (onlySlashes (c :: r)) eqn:E;
    [discriminate|].
  destruct (stripTrailingSlashes r) as [|d r'] eqn:R.
  - simpl. intros [= ->].
    destruct (stripTrailingSlashes_split r) as [n Hn].
    rewrite R in Hn. simpl in Hn. subst r.
    change (slash :: replicate n slash) with (replicate (S n) slash) in E.
    rewrite onlySlashes_replicate in E. discriminate.
  - exact IH.
Qed.

Lemma stripTrailingSlashes_snoc (s : jsstring) :
  stripTrailingSlashes (s ++ [slash]) = stripTrailingSlashes s.
Proof.
  induction s as [|c r IH]; [reflexivity|].
  change ((c :: r) ++ [slash]) with (c :: (r ++ [slash])).
  rewrite !stripTrailingSlashes_cons, IH.
  change (c :: (r ++ [slash])) with ((c :: r) ++ [slash]).
  rewrite onlySlashes_snoc. reflexivity.
Qed.

Lemma stripTrailingSlashes_fixed (s : jsstring) :
  last s ≠ Some slash → stripTrailingSlashes s = s.
Proof.
  induction s as [|c r IH]; intros Hl; [reflexivity|].
  rewrite stripTrailingSlashes_cons. destruct (onlySlashes (c :: r)) eqn:E.
  - exfalso. apply Hl. apply onlySlashes_spec in E. rewrite E.
    simpl length. rewrite replicate_S_end. apply last_snoc.
  - f_equal. apply IH. intros Hr. apply Hl.
    destruct r; [discriminate | exact Hr].
Qed.

(** X1. The base is the configured value without its trailing slashes: it
    never ends with a slash, a base that does not end with a slash is kept
    as it is, and one more trailing slash in the configuration makes no
    difference to any URL.  [apiUrl] puts exactly the path after the base,
    with a slash in front when the path has none, so that a path gives
    the same URL with and without its leading slash; with no base
    configured the URL is the same-origin path. *)
Theorem apiUrl_base_and_path :
  (∀ raw, last (API_BASE raw) ≠ Some slash)
  ∧ (∀ raw, ∃ n, orElse raw [] = API_BASE raw ++ replicate n slash)
  ∧ (∀ base, last base ≠ Some slash → API_BASE (Some base) = base)
  ∧ (∀ base path,
       apiUrl (Some (base ++ [slash])) path = apiUrl (Some base) path)
  ∧ (∀ raw path,
       startsWithSlash path = false →
       apiUrl raw path = apiUrl raw (slash :: path)
       ∧ apiUrl raw path = API_BASE raw ++ slash :: path)
  ∧ (∀ path, apiUrl None (slash :: path) = slash :: path).
Proof.
  repeat apply conj.
  - intros raw. apply stripTrailingSlashes_last.
  - intros raw. apply stripTrailingSlashes_split.
  - intros base Hl. unfold API_BASE, orElse, truthy.
    destruct (decide (base = [])) as [->|_]; [reflexivity|].
    apply stripTrailingSlashes_fixed, Hl.
  - intros base path. unfold apiUrl, API_BASE, orElse, truthy.
    destruct (decide (base ++ [slash] = [])) as [E|_];
      [destruct base; discriminate|].
    rewrite stripTrailingSlashes_snoc.
    destruct (decide (base = [])) as [->|_]; reflexivity.
  - intros raw path Hp. unfold apiUrl. rewrite Hp. split; reflexivity.
  - intros path. reflexivity.
Qed.

(** An instance of X1: the deployed base with a trailing slash, and a path
    without its leading slash. *)
Lemma apiUrl_base_and_path_witness :
  apiUrl (Some (js "https://lunagrid.vercel.app/")) (js "api/clean")
  = js "https://lunagrid.vercel.app/api/clean".
Proof.
  rewrite (proj1 (proj1 (proj2 (proj2 (proj2 (proj2 apiUrl_base_and_path))))
                    (Some (js "https://lunagrid.vercel.app/"))
                    (js "api/clean") eq_refl)).
  vm_compute. reflexivity.
Defined.

End ApiFacts.

(** ** Comparison of coin arrays *)

Lemma sameEntriesFrom_spec (remaining : nat) :
  ∀ (i : nat) (a b : list jsstring),
    length a = remaining + i → length b = remaining + i →
    sameEntriesFrom remaining i a b = true ↔ drop i a = drop i b.
Proof.
  induction remaining as [|k IH]; intros i a b Ha Hb.
  - simpl. rewrite !drop_ge by lia. tauto.
  - simpl. destruct (a !! i) as [x|] eqn:Ex.
    2:{ apply lookup_ge_None in Ex. lia. }
    destruct (b !! i) as [y|] eqn:Ey.
    2:{ apply lookup_ge_None in Ey. lia. }
    rewrite (drop_S a x i Ex), (drop_S b y i Ey).
    destruct (decide (Some x ≠ Some y)) as [Hne|He].
    + split; [discriminate|]. intros [= -> _]. contradiction.
    + assert (x = y) as ->.
      { destruct (decide (x = y)) as [E|E]; [exact E|].
        exfalso. apply He. congruence. }
      rewrite IH by lia. split; [intros ->; reflexivity | intros [= E]; exact E].
Qed.

(** X2. [areSameStringArray] answers true exactly when the two arrays are
    equal, entry by entry: its loop over the indices, run after the test
    of the lengths, decides equality of the arrays. *)
Theorem areSameStringArray_decides_equality :
  ∀ a b : list jsstring,
    areSameStringArrayLoop a b = bool_decide (a = b)
    ∧ areSameStringArrayLoop a b = Report.areSameStringArray a b.
Proof.
  intros a b.
  assert (H : areSameStringArrayLoop a b = bool_decide (a = b));
    [|split; [exact H | exact H]].
  unfold areSameStringArrayLoop.
  destruct (decide (length a ≠ length b)) as [Hl|Hl].
  - symmetry. apply bool_decide_eq_false. intros ->. contradiction.
  - assert (El : length a = length b) by lia.
    apply eq_true_iff_eq.
    rewrite (sameEntriesFrom_spec (length a) 0 a b) by lia.
    rewrite bool_decide_eq_true. tauto.
Qed.

(** ** Writing the theme *)

Module ThemeSyncFacts.

Import Theme ThemeSync.

Lemma updateElement_shape (m : Mode) (targets : list nat) (d : Document) :
  let d' := fold_left (updateElement m) targets d in
  documentElement d' = documentElement d ∧ body d' = body d
  ∧ rootElement d' = rootElement d
  ∧ rootFirstElementChild d' = rootFirstElementChild d.
Proof.
  revert d. induction targets as [|el r IH]; intros d; simpl; [auto|].
  destruct (IH (updateElement m d el)) as (H1 & H2 & H3 & H4).
  simpl in *. auto.
Qed.

Lemma element_updateElement (m : Mode) (d : Document) (el x : nat) :
  element (updateElement m d el) x
  = if decide (el = x) then applyMode m (element d el) else element d x.
Proof.
  unfold element at 1. simpl. rewrite lookup_insert.
  destruct (decide (el = x)); reflexivity.
Qed.

(** After the loop, every target is as [applyMode] leaves an element. *)
Lemma targets_applied (m : Mode) (targets : list nat) (x : nat) :
  ∀ d,
    x ∈ targets ∨ (∃ e, element d x = applyMode m e) →
    ∃ e, element (fold_left (updateElement m) targets d) x = applyMode m e.
Proof.
  induction targets as [|el r IH]; intros d H; simpl.
  - destruct H as [H|H]; [inversion H | exact H].
  - apply IH. rewrite element_updateElement.
    destruct (decide (el = x)) as [->|Hne]; [right; eauto|].
    destruct H as [H|H]; [|right; exact H].
    apply elem_of_cons in H as [->|H]; [contradiction | left; exact H].
Qed.

Lemma others_untouched (m : Mode) (targets : list nat) (x : nat) :
  ∀ d, x ∉ targets →
       element (fold_left (updateElement m) targets d) x = element d x.
Proof.
  induction targets as [|el r IH]; intros d H; simpl; [reflexivity|].
  rewrite IH, element_updateElement.
  - destruct (decide (el = x)) as [->|_]; [|reflexivity].
    exfalso. apply H, list_elem_of_here.
  - intros Hx. apply H, list_elem_of_further, Hx.
Qed.

Lemma classToggle_on (name : jsstring) (classes : list jsstring) :
  name ∈ classToggle name true classes.
Proof.
  unfold classToggle. destruct (bool_decide (name ∈ classes)) eqn:E.
  - apply bool_decide_eq_true in E. exact E.
  - apply elem_of_app. right. apply list_elem_of_here.
Qed.

Lemma classToggle_off (name : jsstring) (classes : list jsstring) :
  name ∉ classToggle name false classes.
Proof.
  unfold classToggle. intros H. apply list_elem_of_filter in H as [H _].
  contradiction.
Qed.

Lemma classToggle_other (name other : jsstring) (force : bool)
    (classes : list jsstring) :
  other ≠ name →
  other ∈ classToggle name force classes ↔ other ∈ classes.
Proof.
  intros Hne. unfold classToggle. destruct force.
  - destruct (bool_decide (name ∈ classes)); [tauto|].
    rewrite elem_of_app, list_elem_of_singleton. tauto.
  - rewrite list_elem_of_filter. tauto.
Qed.

(** What [applyMode] leaves: the attribute is the mode, and of the two
    classes exactly the one of the mode is there. *)
Lemma applyMode_marks (m : Mode) (e : Element) :
  dataTheme (applyMode m e) = Some (modeName m)
  ∧ (js "dark" ∈ classList (applyMode m e) ↔ m = Dark)
  ∧ (js "light" ∈ classList (applyMode m e) ↔ m = Light).
Proof.
  split; [reflexivity|].
  unfold applyMode. cbn [classList].
  assert (Hdl : js "dark" ≠ js "light") by discriminate.
  assert (Hld : js "light" ≠ js "dark") by discriminate.
  rewrite (classToggle_other (js "light") (js "dark")) by exact Hdl.
  destruct m; simpl bool_decide; cbn [negb].
  - split; split; intros H; try discriminate; try reflexivity.
    + apply classToggle_on.
    + exfalso. exact (classToggle_off _ _ H).
  - split; split; intros H; try discriminate; try reflexivity.
    + exfalso. exact (classToggle_off _ _ H).
    + apply classToggle_on.
Qed.

Lemma validMode_modeName (m : Mode) : validMode (Some (modeName m)) = Some m.
Proof. destruct m; reflexivity. Qed.

(** The document element is among the targets of both writers. *)
Lemma html_in_themeTargets (d : Document) : documentElement d ∈ themeTargets d.
Proof.
  rewrite ThemeFacts.themeTargets_roots, ThemeFacts.elem_of_uniqueInOrder.
  unfold observedRoots. apply list_elem_of_here.
Qed.

Lemma html_in_appTargets (d : Document) : documentElement d ∈ appTargets d.
Proof. unfold appTargets. simpl. apply list_elem_of_here. Qed.

(** Whatever the targets, when html is one of them [readTheme] gives the
    mode written. *)
Lemma readTheme_after_write (targets : list nat) (m : Mode) (p : Page) :
  documentElement (document (env p)) ∈ targets →
  readTheme (env (writeTo targets m p)) = m.
Proof.
  intros Hin. rewrite ThemeFacts.readTheme_readPreference.
  unfold readPreference, explicitAttribute, observedRoots, writeTo.
  cbn [env document].
  destruct (updateElement_shape m targets (document (env p))) as (-> & _).
  destruct (targets_applied m targets _ (document (env p)) (or_introl Hin))
    as [e He].
  cbn [app List.map firstValid]. rewrite He.
  cbn [applyMode dataTheme]. rewrite validMode_modeName. reflexivity.
Qed.

Lemma storeMode_writable (m : Mode) (st : Storage) :
  accessible st = true → quotaExceeded st = false →
  storeMode m THEME_KEYS st
  = {| accessible := true; quotaExceeded := false;
       items := <[ js "eglc_theme" := modeName m ]>
                  (<[ js "vite-ui-theme" := modeName m ]>
                     (<[ js "theme" := modeName m ]> (items st))) |}.
Proof.
  intros Ha Hq. unfold storeMode, THEME_KEYS, setItem. simpl.
  rewrite Ha, Hq. reflexivity.
Qed.

(** When storage cannot be written it is left as it was. *)
Lemma storeMode_failing (m : Mode) (st : Storage) :
  accessible st && negb (quotaExceeded st) = false →
  storeMode m THEME_KEYS st = st.
Proof.
  intros H. unfold storeMode, THEME_KEYS, setItem. simpl.
  rewrite H. reflexivity.
Qed.

Lemma stored_keys (m : Mode) (st : Storage) (k : jsstring) :
  accessible st = true → quotaExceeded st = false →
  k ∈ THEME_KEYS →
  getItem k (storeMode m THEME_KEYS st) = Some (Some (modeName m)).
Proof.
  intros Ha Hq Hk. rewrite (storeMode_writable m st Ha Hq).
  unfold getItem. simpl. f_equal.
  unfold THEME_KEYS in Hk.
  repeat (apply elem_of_cons in Hk as [->|Hk]);
    [| |
     |inversion Hk].
  - rewrite lookup_insert_ne by discriminate.
    rewrite lookup_insert_ne by discriminate. apply lookup_insert_eq.
  - rewrite lookup_insert_ne by discriminate. apply lookup_insert_eq.
  - apply lookup_insert_eq.
Qed.

(** X3. What [writeTheme] writes, [readTheme] reads: after
    [writeTheme(mode)] the theme resolves to that mode, whatever the
    document and the storage were and even when storage cannot be
    written.  Every observed root then carries the attribute of the mode
    and, of the classes dark and light, exactly the one of the mode;
    elements that are not observed are untouched; and the listener of the
    toggle, run on the event that the write dispatches, leaves the mode
    as it is. *)
Theorem writeTheme_then_readTheme :
  ∀ (m : Mode) (p : Page),
    let p' := writeTheme m p in
    readTheme (env p') = m
    ∧ (∀ el, el ∈ observedRoots (document (env p)) →
         let e := element (document (env p')) el in
         dataTheme e = Some (modeName m)
         ∧ (js "dark" ∈ classList e ↔ m = Dark)
         ∧ (js "light" ∈ classList e ↔ m = Light))
    ∧ (∀ el, el ∉ observedRoots (document (env p)) →
         element (document (env p')) el = element (document (env p)) el)
    ∧ colorScheme p' = Some m
    ∧ themeEvents p' = S (themeEvents p)
    ∧ onSync p' m = m.
Proof.
  intros m p p'. assert (Hread : readTheme (env p') = m).
  { apply readTheme_after_write, html_in_themeTargets. }
  repeat apply conj; auto.
  - intros el Hel e.
    assert (Hin : el ∈ themeTargets (document (env p))).
    { rewrite ThemeFacts.themeTargets_roots, ThemeFacts.elem_of_uniqueInOrder.
      exact Hel. }
    destruct (targets_applied m _ el (document (env p)) (or_introl Hin))
      as [e0 He0].
    unfold e, p', writeTheme, writeTo. cbn [env document]. rewrite He0.
    apply applyMode_marks.
  - intros el Hel. unfold p', writeTheme, writeTo. cbn [env document].
    apply others_untouched.
    rewrite ThemeFacts.themeTargets_roots, ThemeFacts.elem_of_uniqueInOrder.
    exact Hel.
  - unfold onSync. rewrite Hread.
    destruct (decide (m = m)); reflexivity.
Qed.

(** X4. The two pages agree on the theme.  After the theme effect of App
    has run for a theme, [readTheme] of the report page gives that theme;
    and when storage can be written, the initial theme of App is the mode
    that [writeTheme] of the report page, or the effect of App, wrote
    last.  When storage cannot be written, the initial theme of App is
    what it was before the write. *)
Theorem pages_agree_on_theme :
  (∀ m p, readTheme (env (appThemeEffect m p)) = m)
  ∧ (∀ m p,
       accessible (localStorage (env p)) = true →
       quotaExceeded (localStorage (env p)) = false →
       appInitialTheme (env (writeTheme m p)) = m
       ∧ appInitialTheme (env (appThemeEffect m p)) = m)
  ∧ (∀ m p,
       accessible (localStorage (env p))
       && negb (quotaExceeded (localStorage (env p))) = false →
       appInitialTheme (env (writeTheme m p)) = appInitialTheme (env p)).
Proof.
  repeat apply conj.
  - intros m p. apply readTheme_after_write, html_in_appTargets.
  - intros m p Ha Hq.
    assert (H : ∀ targets, appInitialTheme (env (writeTo targets m p)) = m).
    { intros targets. unfold appInitialTheme, writeTo. cbn [env localStorage].
      rewrite (stored_keys m _ (js "theme") Ha Hq)
        by (unfold THEME_KEYS; apply list_elem_of_here).
      rewrite validMode_modeName. reflexivity. }
    split; apply H.
  - intros m p H. unfold appInitialTheme, writeTheme, writeTo.
    cbn [env localStorage matchMedia].
    rewrite (storeMode_failing m _ H). reflexivity.
Qed.

(** An instance of X4: a page whose storage holds the theme light, on
    which the report page writes dark. *)
Lemma pages_agree_on_theme_witness :
  let p := {| env := {| document :=
                          {| elements := ∅; documentElement := 0;
                             body := Some 1; rootElement := Some 2;
                             rootFirstElementChild := Some 3 |};
                        localStorage :=
                          {| accessible := true; quotaExceeded := false;
                             items := {[ js "theme" := js "light" ]} |};
                        matchMedia := Some false |};
              colorScheme := None; themeEvents := 0 |} in
  appInitialTheme (env p) = Light
  ∧ appInitialTheme (env (writeTheme Dark p)) = Dark.
Proof.
  split; [vm_compute; reflexivity|].
  apply (proj1 (proj2 pages_agree_on_theme)); reflexivity.
Defined.

End ThemeSyncFacts.

(** ** Runs of the report preview: one live request *)

Module ReportRunFacts.

Import Report ReportRun.

Lemma catchBranch_frame (requestId : nat) (e : JsError) (s : View) :
  abortRef (catchBranch requestId e s) = abortRef s
  ∧ abortedSignals (catchBranch requestId e s) = abortedSignals s.
Proof.
  unfold catchBranch. destruct (_ || _); [auto|].
  destruct (decide _); auto.
Qed.

(** Settling touches neither the controllers nor the id. *)
Lemma settle_frame (requestId : nat) (r : Fetch) (s : View) :
  previewReqRef (settle requestId r s) = previewReqRef s
  ∧ abortRef (settle requestId r s) = abortRef s
  ∧ abortedSignals (settle requestId r s) = abortedSignals s.
Proof.
  split; [apply ReportFacts.report_settle_ref|].
  unfold settle, finallyBranch.
  destruct r as [e|ok status body]; cbn zeta.
  - destruct (decide _); simpl; apply catchBranch_frame.
  - destruct ok; cbn [negb].
    + destruct (decide (previewReqRef s ≠ requestId));
        destruct (decide _); auto.
    + destruct (decide _); simpl; apply catchBranch_frame.
Qed.

Lemma OneLive_initial : OneLive initialView.
Proof.
  repeat split; simpl; try lia; try discriminate.
Qed.

Lemma aborted_grows (s : View) (id : nat) :
  id ∈ abortedSignals s →
  id ∈ match abortRef s with
       | Some c => {[ c ]} ∪ abortedSignals s
       | None => abortedSignals s
       end.
Proof.
  intros H. destruct (abortRef s); [apply elem_of_union; right|]; exact H.
Qed.

Lemma latest_aborted (s : View) :
  OneLive s → 0 < previewReqRef s →
  previewReqRef s ∈ match abortRef s with
                    | Some c => {[ c ]} ∪ abortedSignals s
                    | None => abortedSignals s
                    end.
Proof.
  intros (_ & Hnone & Hsome) Hpos.
  destruct (abortRef s) as [c|] eqn:E.
  - destruct (Hsome c eq_refl) as [-> _].
    apply elem_of_union. left. apply elem_of_singleton. reflexivity.
  - rewrite (Hnone eq_refl) in Hpos. lia.
Qed.

Lemma OneLive_step (s : View) (e : Event) : OneLive s → OneLive (step s e).
Proof.
  intros Hs. pose proof Hs as (Hold & Hnone & Hsome).
  destruct e as [f opts l|requestId r|].
  - simpl. split; [|split]; simpl.
    + intros id [Hpos Hlt].
      destruct (decide (id = previewReqRef s)) as [->|Hne].
      * apply latest_aborted; assumption.
      * apply aborted_grows, Hold. lia.
    + discriminate.
    + intros c [= <-]. split; [reflexivity | lia].
  - simpl. destruct (settle_frame requestId r s) as (E1 & E2 & E3).
    unfold OneLive. rewrite E1, E2, E3. exact Hs.
  - simpl. unfold unmount. split; [|split]; simpl.
    + intros id Hid. apply aborted_grows, Hold, Hid.
    + exact Hnone.
    + exact Hsome.
Qed.

Lemma OneLive_run (events : list Event) : OneLive (run events).
Proof.
  unfold run. generalize OneLive_initial. generalize initialView.
  induction events as [|e r IH]; intros s Hs; [exact Hs|].
  simpl. apply IH, OneLive_step, Hs.
Qed.

(** X5. In the report flow at most one preview request is live.  After
    any sequence of invocations of [callPreview], settled fetches and
    teardown, the controller of every request but the latest has been
    aborted, so the late completion of such a request is the rejection of
    an aborted fetch and changes nothing; and once the page is torn down
    the controller of the latest request is aborted as well. *)
Theorem report_one_live_request :
  ∀ events : list Event,
    let s := run events in
    (∀ id, 0 < id < previewReqRef s → id ∈ abortedSignals s)
    ∧ (∀ id r, 0 < id < previewReqRef s → settle id r s = s)
    ∧ (∀ id, 0 < id ≤ previewReqRef (run (events ++ [Unmount])) →
             id ∈ abortedSignals (run (events ++ [Unmount]))).
Proof.
  intros events s. destruct (OneLive_run events) as (Hold & Hnone & Hsome).
  fold s in Hold, Hnone, Hsome. repeat apply conj.
  - exact Hold.
  - intros id r Hid. apply ReportFacts.report_settle_stale. lia.
  - unfold run. rewrite fold_left_app. fold (run events). fold s.
    simpl. intros id [Hpos Hle].
    destruct (decide (id = previewReqRef s)) as [->|Hne].
    + apply latest_aborted; [apply OneLive_run | exact Hpos].
    + apply aborted_grows, Hold. lia.
Qed.

(** An instance of X5: three invocations, the second of which has
    settled; the first two controllers are aborted. *)
Lemma report_one_live_request_witness :
  let opts := {| o_asset := USD; o_includeBot := true; o_coins := [] |} in
  let s := run [Call 7 opts true; Call 7 opts false;
                Settle 2 (Response true 200 None); Call 8 opts true] in
  previewReqRef s = 3 ∧ 1 ∈ abortedSignals s ∧ 2 ∈ abortedSignals s.
Proof.
  cbv zeta.
  pose proof (proj1 (report_one_live_request
    [Call 7 {| o_asset := USD; o_includeBot := true; o_coins := [] |} true;
     Call 7 {| o_asset := USD; o_includeBot := true; o_coins := [] |} false;
     Settle 2 (Response true 200 None);
     Call 8 {| o_asset := USD; o_includeBot := true; o_coins := [] |} true]))
    as H.
  split; [reflexivity|].
  split; apply H; vm_compute; split; lia.
Defined.

End ReportRunFacts.

(** ** Runs of the ETL preview: one live request *)

Module EtlRunFacts.

Import Etl EtlRun.

Lemma etl_catchBranch_frame (requestId : nat) (e : JsError) (s : View) :
  effectCleanup (catchBranch requestId e s) = effectCleanup s
  ∧ abortedSignals (catchBranch requestId e s) = abortedSignals s.
Proof.
  unfold catchBranch. destruct (_ && _); [|auto].
  destruct (decide _); auto.
Qed.

Lemma etl_settle_frame (requestId : nat) (r : Fetch) (s : View) :
  previewReqRef (settle requestId r s) = previewReqRef s
  ∧ effectCleanup (settle requestId r s) = effectCleanup s
  ∧ abortedSignals (settle requestId r s) = abortedSignals s.
Proof.
  split; [apply EtlFacts.etl_settle_ref|].
  unfold settle, finallyBranch.
  destruct r as [e|text|json].
  - destruct (decide _); simpl; apply etl_catchBranch_frame.
  - destruct (decide _); simpl; apply etl_catchBranch_frame.
  - destruct (decide (previewReqRef s ≠ requestId));
      destruct (decide _); auto.
Qed.

Lemma etl_OneLive_initial : OneLive initialView.
Proof. split; simpl; [lia | discriminate]. Qed.

Lemma etl_aborted_after_cleanup (s : View) (id : nat) :
  id ∈ abortedSignals s ∨ effectCleanup s = Some id →
  id ∈ match effectCleanup s with
       | Some c => {[ c ]} ∪ abortedSignals s
       | None => abortedSignals s
       end.
Proof.
  intros [H|H].
  - destruct (effectCleanup s); [apply elem_of_union; right|]; exact H.
  - rewrite H. apply elem_of_union. left. apply elem_of_singleton.
    reflexivity.
Qed.

Lemma etl_OneLive_step (s : View) (e : Event) :
  OneLive s → OneLive (step s e).
Proof.
  intros Hs. pose proof Hs as (Hold & Hsome).
  destruct e as [file lang|requestId r|].
  - destruct file as [f|]; simpl; split; simpl.
    + intros id [Hpos Hle].
      destruct (decide (id = S (previewReqRef s))) as [->|Hne];
        [right; reflexivity|].
      left. apply etl_aborted_after_cleanup, Hold. lia.
    + intros c [= <-]. split; [reflexivity | lia].
    + intros id Hid. left. apply etl_aborted_after_cleanup, Hold, Hid.
    + discriminate.
  - simpl. destruct (etl_settle_frame requestId r s) as (E1 & E2 & E3).
    unfold OneLive. rewrite E1, E2, E3. exact Hs.
  - simpl. unfold unmount. split; simpl; [|discriminate].
    intros id Hid. left. apply etl_aborted_after_cleanup, Hold, Hid.
Qed.

Lemma etl_OneLive_run (events : list Event) : OneLive (run events).
Proof.
  unfold run. generalize etl_OneLive_initial. generalize initialView.
  induction events as [|e r IH]; intros s Hs; [exact Hs|].
  simpl. apply IH, etl_OneLive_step, Hs.
Qed.

(** X6. In the ETL flow at most one preview request is live.  After any
    sequence of renders, settled requests and teardown, the controller of
    every request but the latest has been aborted, and the late completion
    of such a request changes nothing.  When the file is removed, or App
    is torn down, the controller of the latest request is aborted too,
    and removing the file clears the preview. *)
Theorem etl_one_live_request :
  ∀ events : list Event,
    let s := run events in
    (∀ id, 0 < id < previewReqRef s → id ∈ abortedSignals s)
    ∧ (∀ id r, 0 < id < previewReqRef s → settle id r s = s)
    ∧ (∀ lang id,
         let s' := run (events ++ [Render None lang]) in
         previewData s' = None
         ∧ (0 < id ≤ previewReqRef s' → id ∈ abortedSignals s'))
    ∧ (∀ id, 0 < id ≤ previewReqRef (run (events ++ [Unmount])) →
             id ∈ abortedSignals (run (events ++ [Unmount]))).
Proof.
  intros events s.
  assert (Hall : ∀ e, (e = Unmount ∨ ∃ lang, e = Render None lang) →
            ∀ id, 0 < id ≤ previewReqRef (run (events ++ [e])) →
                  id ∈ abortedSignals (run (events ++ [e]))).
  { intros e He id Hid.
    destruct (etl_OneLive_run (events ++ [e])) as (Hold & _).
    destruct (Hold id Hid) as [H|H]; [exact H|].
    exfalso. unfold run in H. rewrite fold_left_app in H. simpl in H.
    destruct He as [->|[lang ->]]; discriminate. }
  destruct (etl_OneLive_run events) as (Hold & Hsome). fold s in Hold, Hsome.
  repeat apply conj.
  - intros id Hid. destruct (Hold id) as [H|H]; [lia | exact H |].
    destruct (Hsome id H). lia.
  - intros id r Hid. apply EtlFacts.etl_settle_stale. lia.
  - intros lang id s'. split.
    + unfold s', run. rewrite fold_left_app. reflexivity.
    + apply Hall. right. eauto.
  - apply Hall. left. reflexivity.
Qed.

(** An instance of X6: a file is dropped, replaced, then removed. *)
Lemma etl_one_live_request_witness :
  let s := run [Render (Some 7) (js "en"); Render (Some 8) (js "en");
                Render None (js "en")] in
  previewReqRef s = 2 ∧ 1 ∈ abortedSignals s ∧ 2 ∈ abortedSignals s.
Proof.
  cbv zeta.
  pose proof (proj1 (proj2 (proj2 (etl_one_live_request
    [Render (Some 7) (js "en"); Render (Some 8) (js "en")])))
    (js "en")) as H.
  split; [reflexivity|].
  split; apply H; vm_compute; split; lia.
Defined.

End EtlRunFacts.

(** ** The watchlists and the coin picker *)

Section CoinsPageFacts.

Variable toLowerCase : jsstring -> jsstring.

Abbreviation lower := toLowerCase (only parsing).

Lemma entryFor_self (available : list jsstring) (coin : jsstring) :
  NoDup (List.map lower available) →
  coin ∈ available →
  entryFor toLowerCase available coin = Some coin.
Proof.
  unfold entryFor.
  induction available as [|a r IH]; intros Hnd Hin; [inversion Hin|].
  simpl in Hnd. apply NoDup_cons in Hnd as [Ha Hnd]. simpl.
  destruct (decide (lower a = lower coin)) as [E|E].
  - rewrite bool_decide_eq_true_2 by exact E.
    apply elem_of_cons in Hin as [->|Hin]; [reflexivity|].
    exfalso. apply Ha. rewrite E. apply elem_of_map. eauto.
  - rewrite bool_decide_eq_false_2 by exact E.
    apply elem_of_cons in Hin as [->|Hin]; [contradiction|].
    apply IH; assumption.
Qed.

Lemma entryFor_hasKey (available : list jsstring) (coin : jsstring) :
  hasKey toLowerCase available coin →
  is_Some (entryFor toLowerCase available coin).
Proof.
  unfold hasKey, entryFor. intros H.
  apply elem_of_map in H as (a & Ha & Hin).
  destruct (List.find _ available) as [x|] eqn:F; [eauto|].
  exfalso. apply list_elem_of_In in Hin.
  pose proof (List.find_none _ _ F a Hin) as Hn.
  apply bool_decide_eq_false in Hn. congruence.
Qed.

Lemma omap_entryFor_self (available kept : list jsstring) :
  NoDup (List.map lower available) →
  (∀ coin, coin ∈ kept → coin ∈ available) →
  omap (entryFor toLowerCase available) kept = kept.
Proof.
  intros Hnd. induction kept as [|c r IH]; intros Hsub; [reflexivity|].
  rewrite omap_cons, entryFor_self, IH; auto.
  - intros coin Hc. apply Hsub, list_elem_of_further, Hc.
  - apply Hsub, list_elem_of_here.
Qed.

(** The result of a reconciliation is a normalized list. *)
Lemma reconcile_Normalized (previous available usd thb : list jsstring) :
  Normalized toLowerCase
    (reconcileWatchlist toLowerCase (Some previous) (Some available)
       (Some usd) (Some thb)).
Proof.
  rewrite reconcile_reference.
  destruct (reference_invariants toLowerCase previous available usd thb)
    as (Hin & Hnd & _).
  split; [|exact Hnd].
  destruct (normalize_Normalized toLowerCase (Some available)) as [Htrim _].
  rewrite Forall_forall in Htrim |- *. intros c Hc. apply Htrim, Hin, Hc.
Qed.

(** A reconciled watchlist is a fixed point of reconciliation with the
    same coins. *)
Lemma reconcile_idem (previous available usd thb : list jsstring) :
  let kept :=
    reconcileWatchlist toLowerCase (Some previous) (Some available)
      (Some usd) (Some thb) in
  reconcileWatchlist toLowerCase (Some kept) (Some available)
    (Some usd) (Some thb)
  = kept.
Proof.
  intros kept.
  pose proof (reconcile_Normalized previous available usd thb) as Hn.
  fold kept in Hn.
  assert (Hk : kept = reconcileReference toLowerCase previous available
                        usd thb) by apply reconcile_reference.
  destruct (reference_invariants toLowerCase previous available usd thb)
    as (Hin & _ & Hempty).
  rewrite <- Hk in Hin, Hempty.
  rewrite reconcile_reference. unfold reconcileReference.
  destruct (normalize_Normalized toLowerCase (Some available)) as [_ Hnd].
  destruct (normalizeCoinList toLowerCase (Some available)) as [|a av] eqn:E.
  { symmetry. apply Hempty. reflexivity. }
  rewrite (normalize_fixed toLowerCase kept Hn).
  rewrite (omap_entryFor_self (a :: av) kept Hnd Hin).
  destruct kept as [|k kept']; [|reflexivity].
  exfalso. assert (H : a :: av = []) by (apply Hempty; reflexivity).
  discriminate.
Qed.

Lemma reconcileWatchlists_unchanged (coinsUSD coinsTHB : list jsstring)
    (w : Watchlists) :
  wl_USD w = reconcileWatchlist toLowerCase (Some (wl_USD w)) (Some coinsUSD)
               (Some coinsUSD) (Some coinsTHB) →
  wl_THB w = reconcileWatchlist toLowerCase (Some (wl_THB w)) (Some coinsTHB)
               (Some coinsUSD) (Some coinsTHB) →
  reconcileWatchlists toLowerCase coinsUSD coinsTHB w = w.
Proof.
  intros Hu Ht. unfold reconcileWatchlists, Report.areSameStringArray.
  rewrite (bool_decide_eq_true_2 _ Hu), (bool_decide_eq_true_2 _ Ht).
  reflexivity.
Qed.

Lemma reconcileWatchlists_idem (coinsUSD coinsTHB : list jsstring)
    (w : Watchlists) :
  reconcileWatchlists toLowerCase coinsUSD coinsTHB
    (reconcileWatchlists toLowerCase coinsUSD coinsTHB w)
  = reconcileWatchlists toLowerCase coinsUSD coinsTHB w.
Proof.
  apply reconcileWatchlists_unchanged;
    unfold reconcileWatchlists, Report.areSameStringArray;
    destruct (bool_decide _ && bool_decide _) eqn:Same.
  - apply andb_true_iff in Same as [Hu _].
    apply bool_decide_eq_true in Hu. exact Hu.
  - cbn [wl_USD]. symmetry. apply reconcile_idem.
  - apply andb_true_iff in Same as [_ Ht].
    apply bool_decide_eq_true in Ht. exact Ht.
  - cbn [wl_THB]. symmetry. apply reconcile_idem.
Qed.

(** X7. Reconciliation settles in one step.  The result of
    [reconcileWatchlist] is a normalized list and a fixed point: given
    again as the previous watchlist with the same coins, it is returned
    unchanged.  So the watchlist effect, run a second time on the same
    file and coins, changes nothing. *)
Theorem watchlist_reconciliation_settles :
  (∀ previous available usd thb,
     let kept :=
       reconcileWatchlist toLowerCase (Some previous) (Some available)
         (Some usd) (Some thb) in
     Normalized toLowerCase kept
     ∧ reconcileWatchlist toLowerCase (Some kept) (Some available)
         (Some usd) (Some thb)
       = kept)
  ∧ (∀ file coinsUSD coinsTHB w,
       let w' := watchlistEffect toLowerCase file coinsUSD coinsTHB w in
       watchlistEffect toLowerCase file coinsUSD coinsTHB w' = w').
Proof.
  split.
  - intros previous available usd thb kept. split.
    + apply reconcile_Normalized.
    + apply reconcile_idem.
  - intros file coinsUSD coinsTHB w w'. unfold w', watchlistEffect.
    destruct file as [f|]; [|reflexivity].
    destruct (decide _); [reflexivity|].
    apply reconcileWatchlists_idem.
Qed.

(** X8. A watchlist is replaced by auto-detection only when none of its
    entries is still available.  When some entry of the normalized
    previous watchlist matches an available coin, the result does not
    depend on the two universes, and every coin of the result matches an
    entry of the previous watchlist. *)
Theorem watchlist_survivors_are_kept :
  ∀ previous available usd thb usd' thb' survivor,
    survivor ∈ normalizeCoinList toLowerCase (Some previous) →
    hasKey toLowerCase (normalizeCoinList toLowerCase (Some available))
      survivor →
    let kept :=
      reconcileWatchlist toLowerCase (Some previous) (Some available)
        (Some usd) (Some thb) in
    kept = reconcileWatchlist toLowerCase (Some previous) (Some available)
             (Some usd') (Some thb')
    ∧ (∀ coin, coin ∈ kept →
         hasKey toLowerCase (normalizeCoinList toLowerCase (Some previous))
           coin).
Proof.
  intros previous available usd thb usd' thb' survivor Hs Hkey kept.
  unfold kept. rewrite !reconcile_reference. unfold reconcileReference.
  destruct (normalizeCoinList toLowerCase (Some available)) as [|a av] eqn:E.
  { unfold hasKey in Hkey. simpl in Hkey. inversion Hkey. }
  destruct (entryFor_hasKey (a :: av) survivor Hkey) as [x Hx].
  assert (Hin : x ∈ omap (entryFor toLowerCase (a :: av))
                      (normalizeCoinList toLowerCase (Some previous))).
  { apply list_elem_of_omap. eauto. }
  destruct (omap _ _) as [|k r] eqn:K; [inversion Hin|].
  split; [reflexivity|].
  intros coin Hc. rewrite <- K in Hc.
  apply list_elem_of_omap in Hc as (c & Hcin & Hc).
  apply entryFor_elem in Hc as [_ Hk].
  unfold hasKey. rewrite Hk. apply elem_of_map. eauto.
Qed.

(** ** No coin is lost by normalization *)

Lemma keepFirstByKey_complete (l earlier : list jsstring) (x : jsstring) :
  x ∈ l →
  lower x ∈ List.map lower earlier
  ∨ lower x ∈ List.map lower (keepFirstByKey toLowerCase earlier l).
Proof.
  revert earlier. induction l as [|y r IH]; intros earlier Hx;
    [inversion Hx|].
  simpl. apply elem_of_cons in Hx as [->|Hx].
  - destruct (decide _) as [Hin|Hin]; [left; exact Hin|].
    right. simpl. apply list_elem_of_here.
  - destruct (IH (earlier ++ [y]) Hx) as [H|H].
    + rewrite List.map_app in H. apply elem_of_app in H as [H|H].
      * left. exact H.
      * simpl in H. apply list_elem_of_singleton in H. rewrite H.
        destruct (decide _) as [Hin|Hin]; [left; exact Hin|].
        right. simpl. apply list_elem_of_here.
    + destruct (decide _); right; [exact H|].
      simpl. apply list_elem_of_further, H.
Qed.

(** X9. Normalization loses no coin and invents none.  Every entry of the
    result is the trimmed form of an item, and every item that is not
    blank is represented in the result by an entry with its key; the
    result is never longer than the input. *)
Theorem normalizeCoinList_keeps_every_key :
  ∀ items : list jsstring,
    let out := normalizeCoinList toLowerCase (Some items) in
    (∀ coin, coin ∈ out → ∃ item, item ∈ items ∧ coin = trim item)
    ∧ (∀ item, item ∈ items → trim item ≠ [] →
               hasKey toLowerCase out (trim item))
    ∧ length out ≤ length items.
Proof.
  intros items out. unfold out. rewrite normalize_reference.
  unfold normalizeReference.
  pose proof (keepFirstByKey_sublist toLowerCase
                (filter (fun c => c ≠ []) (List.map trim items)) [])
    as Hsub.
  repeat apply conj.
  - intros coin Hc. eapply elem_of_sublist in Hc; [|exact Hsub].
    apply list_elem_of_filter in Hc as [_ Hc].
    apply elem_of_map in Hc as (item & -> & Hin). eauto.
  - intros item Hin Hne. unfold hasKey.
    destruct (keepFirstByKey_complete
                (filter (fun c => c ≠ []) (List.map trim items)) []
                (trim item)) as [H|H]; [|inversion H | exact H].
    apply list_elem_of_filter. split; [exact Hne|].
    apply elem_of_map. eauto.
  - apply sublist_length in Hsub.
    pose proof (length_filter (fun c : jsstring => c ≠ [])
                  (List.map trim items)) as Hf.
    rewrite List.length_map in Hf. lia.
Qed.

(** ** The selection and the coin picker *)

Lemma setAdd_loop (l : list jsstring) :
  ∀ acc, NoDup (acc ++ l) →
         fold_left (fun s x => setAdd x s) l acc = acc ++ l.
Proof.
  induction l as [|x r IH]; intros acc Hnd; simpl.
  - rewrite app_nil_r. reflexivity.
  - assert (Hx : x ∉ acc).
    { apply NoDup_app in Hnd as (_ & Hd & _). intros Hin.
      apply (Hd x Hin), list_elem_of_here. }
    unfold setAdd at 2, setHas. rewrite bool_decide_eq_false_2 by exact Hx.
    rewrite IH; rewrite <- app_assoc; [reflexivity | exact Hnd].
Qed.

Lemma setOfArray_NoDup (l : list jsstring) : NoDup l → setOfArray l = l.
Proof. intros H. apply (setAdd_loop l []). exact H. Qed.

Lemma omap_fixed {A : Type} (f : A → option A) (l : list A) :
  (∀ x, x ∈ l → f x = Some x) → omap f l = l.
Proof.
  induction l as [|x r IH]; intros H; [reflexivity|].
  rewrite omap_cons, H, IH; [reflexivity | | apply list_elem_of_here].
  intros y Hy. apply H, list_elem_of_further, Hy.
Qed.

Lemma coinScope_sublist (watchlistOnly : bool)
    (watchlist availableCoins : list jsstring) :
  sublist (coinScope toLowerCase watchlistOnly watchlist availableCoins)
          availableCoins.
Proof.
  unfold coinScope. destruct watchlistOnly; [apply sublist_filter|reflexivity].
Qed.

(** X10. Select all requests every coin in scope, in the order of the
    available list: when no two available coins have the same key and none
    is the empty string, the coins of a request after [selectAll] are the
    available coins (in the watchlist-only view, those of the watchlist),
    in the order of the available list. *)
Theorem selectAll_requests_scope :
  ∀ watchlistOnly watchlist availableCoins,
    NoDup (List.map lower availableCoins) →
    Forall (fun c => c ≠ []) availableCoins →
    orderedSelectedCoins toLowerCase availableCoins
      (selectAll toLowerCase watchlistOnly watchlist availableCoins)
    = coinScope toLowerCase watchlistOnly watchlist availableCoins.
Proof.
  intros watchlistOnly watchlist availableCoins Hnd Hne.
  pose proof (coinScope_sublist watchlistOnly watchlist availableCoins)
    as Hsub.
  assert (Hnd' : NoDup availableCoins).
  { rewrite map_fmap in Hnd. apply NoDup_fmap_1 in Hnd. exact Hnd. }
  unfold selectAll.
  rewrite setOfArray_NoDup by (apply (sublist_NoDup _ _ Hnd' Hsub)).
  rewrite ordered_reference. unfold orderedReference.
  apply omap_fixed. intros x Hx.
  assert (Hin : x ∈ availableCoins) by (eapply elem_of_sublist; eauto).
  rewrite lastWithKey_NoDup, entryFor_self by assumption.
  rewrite Forall_forall in Hne. simpl.
  destruct (decide (x = [])) as [E|_]; [|reflexivity].
  exfalso. exact (Hne x Hin E).
Qed.

(** X11. Toggling a coin twice gives back the same selection of coins:
    the selection then has the elements it had, and it is the very same
    selection when the coin was not selected.  A toggle flips the
    membership of its coin, leaves that of every other coin, and keeps the
    selection free of duplicates. *)
Theorem toggleCoin_twice :
  ∀ (c : jsstring) (selected : list jsstring),
    (∀ x, x ∈ toggleCoin c selected ↔
          (x ≠ c ∧ x ∈ selected) ∨ (x = c ∧ c ∉ selected))
    ∧ (∀ x, x ∈ toggleCoin c (toggleCoin c selected) ↔ x ∈ selected)
    ∧ (c ∉ selected → toggleCoin c (toggleCoin c selected) = selected)
    ∧ (NoDup selected → NoDup (toggleCoin c selected)).
Proof.
  intros c selected.
  assert (Hflip : ∀ s x, x ∈ toggleCoin c s ↔
                         (x ≠ c ∧ x ∈ s) ∨ (x = c ∧ c ∉ s)).
  { intros s x. unfold toggleCoin, setHas, setAdd, setDelete.
    destruct (bool_decide (c ∈ s)) eqn:E.
    - apply bool_decide_eq_true in E. rewrite list_elem_of_filter.
      split; [tauto|]. intros [H|[_ H]]; [tauto | contradiction].
    - apply bool_decide_eq_false in E. unfold setHas.
      rewrite (bool_decide_eq_false_2 _ E), elem_of_app,
        list_elem_of_singleton.
      split.
      + intros [H | ->]; [|tauto].
        left. split; [|exact H]. intros ->. contradiction.
      + intros [[_ H]|[-> _]]; tauto. }
  repeat apply conj.
  - apply Hflip.
  - intros x. rewrite Hflip, !Hflip.
    destruct (decide (x = c)) as [->|Hne]; [|tauto].
    destruct (decide (c ∈ selected)); tauto.
  - intros Hc. unfold toggleCoin at 2, setHas.
    rewrite (bool_decide_eq_false_2 _ Hc). unfold setAdd, setHas.
    rewrite (bool_decide_eq_false_2 _ Hc).
    unfold toggleCoin, setHas.
    rewrite bool_decide_eq_true_2
      by (apply elem_of_app; right; apply list_elem_of_here).
    unfold setDelete. rewrite filter_app, filter_cons, filter_nil.
    destruct (decide (c ≠ c)); [contradiction|].
    rewrite app_nil_r. clear -Hc.
    induction selected as [|y r IH]; [reflexivity|].
    rewrite filter_cons. destruct (decide (y ≠ c)) as [_|E].
    + f_equal. apply IH. intros H. apply Hc, list_elem_of_further, H.
    + exfalso. apply Hc. destruct (decide (y = c)) as [->|]; [|tauto].
      apply list_elem_of_here.
  - intros Hnd. unfold toggleCoin, setHas, setAdd, setDelete.
    destruct (bool_decide (c ∈ selected)) eqn:E.
    + apply NoDup_filter, Hnd.
    + apply bool_decide_eq_false in E. unfold setHas.
      rewrite (bool_decide_eq_false_2 _ E).
      apply NoDup_app. repeat split; [exact Hnd | | apply NoDup_singleton].
      intros x Hx Hc. apply list_elem_of_singleton in Hc. subst. contradiction.
Qed.

Lemma includes_spec (s q : jsstring) :
  includes s q = true ↔ ∃ pre post, s = pre ++ q ++ post.
Proof.
  induction s as [|c r IH]; simpl.
  - destruct (Download.stripPrefix q []) as [rest|] eqn:E.
    + apply DownloadFacts.stripPrefix_Some in E.
      split; [|reflexivity]. intros _. exists [], rest. exact E.
    + split; [discriminate|]. intros (pre & post & H).
      destruct pre; [|discriminate]. simpl in H.
      assert (E' : Download.stripPrefix q [] = Some post)
        by (apply DownloadFacts.stripPrefix_Some; exact H).
      congruence.
  - destruct (Download.stripPrefix q (c :: r)) as [rest|] eqn:E.
    + apply DownloadFacts.stripPrefix_Some in E.
      split; [|reflexivity]. intros _. exists [], rest. exact E.
    + rewrite IH. split.
      * intros (pre & post & ->). exists (c :: pre), post. reflexivity.
      * intros (pre & post & H). destruct pre as [|d pre].
        -- simpl in H.
           assert (E' : Download.stripPrefix q (c :: r) = Some post)
             by (apply DownloadFacts.stripPrefix_Some; exact H).
           congruence.
        -- injection H as _ ->. eauto.
Qed.

(** X12. The coin picker offers available coins only.  The filtered coins
    are exactly the coins in scope whose lower-cased form contains the
    lower-cased, trimmed search text, in the order of the available list
    (all the coins in scope when the text is blank); in the watchlist-only
    view each of them is a coin of the watchlist.  The suggestions are the
    first filtered coins, at most 10, and none when the text is blank. *)
Theorem coin_picker_lists :
  ∀ watchlistOnly watchlist availableCoins search,
    let q := toLowerCase (trim search) in
    let scope := coinScope toLowerCase watchlistOnly watchlist availableCoins in
    let shown :=
      filteredCoins toLowerCase watchlistOnly watchlist availableCoins search in
    let offered :=
      suggestions toLowerCase watchlistOnly watchlist availableCoins search in
    sublist shown availableCoins
    ∧ (∀ coin, coin ∈ shown ↔
               coin ∈ scope
               ∧ (q = [] ∨ ∃ pre post, toLowerCase coin = pre ++ q ++ post))
    ∧ (watchlistOnly = true →
       ∀ coin, coin ∈ shown → inWatchlist toLowerCase watchlist coin)
    ∧ offered = (if decide (q = []) then [] else take 10 shown)
    ∧ length offered ≤ 10
    ∧ sublist offered availableCoins.
Proof.
  intros watchlistOnly watchlist availableCoins search q scope shown offered.
  pose proof (coinScope_sublist watchlistOnly watchlist availableCoins)
    as Hscope. fold scope in Hscope.
  assert (Hshown : sublist shown scope).
  { unfold shown, filteredCoins. fold q scope.
    destruct (decide (q = [])); [reflexivity | apply sublist_filter]. }
  assert (Hsub : sublist shown availableCoins)
    by (etransitivity; eassumption).
  assert (Hoff : offered = if decide (q = []) then [] else take 10 shown)
    by reflexivity.
  repeat apply conj.
  - exact Hsub.
  - intros coin. unfold shown, filteredCoins. fold q scope.
    destruct (decide (q = [])) as [E|E]; [tauto|].
    rewrite list_elem_of_filter, includes_spec. tauto.
  - intros -> coin Hc. eapply elem_of_sublist in Hc; [|exact Hshown].
    unfold scope, coinScope in Hc.
    apply list_elem_of_filter in Hc. tauto.
  - exact Hoff.
  - rewrite Hoff. destruct (decide (q = [])); [simpl; lia|].
    rewrite length_take. lia.
  - rewrite Hoff. destruct (decide (q = [])); [apply sublist_nil_l|].
    etransitivity; [apply sublist_take | exact Hsub].
Qed.

End CoinsPageFacts.

(** An instance of X8: the previous watchlist holds eth, which is still
    available, so the universes are not consulted. *)
Lemma watchlist_survivors_witness :
  reconcileWatchlist asciiToLowerCase (Some [js "doge"; js "eth"])
    (Some [js "BTC"; js "ETH"]) (Some [js "BTC"]) (Some [js "BTC"])
  = reconcileWatchlist asciiToLowerCase (Some [js "doge"; js "eth"])
      (Some [js "BTC"; js "ETH"]) (Some []) (Some []).
Proof.
  apply (watchlist_survivors_are_kept asciiToLowerCase
           [js "doge"; js "eth"] [js "BTC"; js "ETH"]
           [js "BTC"] [js "BTC"] [] [] (js "eth")).
  - apply (bool_decide_unpack _). vm_compute. exact I.
  - apply (bool_decide_unpack _). vm_compute. exact I.
Defined.

(** An instance of X10: two available coins with different keys, no
    watchlist filter. *)
Lemma selectAll_requests_scope_witness :
  orderedSelectedCoins asciiToLowerCase [js "BTC"; js "ETH"]
    (selectAll asciiToLowerCase false [] [js "BTC"; js "ETH"])
  = coinScope asciiToLowerCase false [] [js "BTC"; js "ETH"].
Proof.
  apply (selectAll_requests_scope asciiToLowerCase false []
           [js "BTC"; js "ETH"]).
  - apply (bool_decide_unpack _). vm_compute. exact I.
  - apply (bool_decide_unpack _). vm_compute. exact I.
Defined.

(** ** Login and logout *)

Module AuthFormFacts.

Import Auth AuthForm.

Lemma read_after_store (tok : jsstring) (st : Storage) :
  tok ≠ [] →
  accessible st = true → quotaExceeded st = false →
  readStoredToken (storeToken tok st) = tok.
Proof.
  intros Hne Ha Hq. unfold storeToken, readStoredToken, setItem, getItem.
  destruct (decide (tok = [])); [contradiction|].
  rewrite Ha, Hq. simpl. rewrite lookup_insert_eq.
  unfold orElse, truthy. destruct (decide (tok = [])); [contradiction|].
  reflexivity.
Qed.

Lemma readSubmit_success (status : N) (d : option jsstring) (tok : jsstring)
    (u : User) :
  tok ≠ [] →
  readSubmit (SubmitResponse true status
                (Some {| b_detail := d; b_token := Some tok;
                         b_user := Some u |}))
  = Normal (tok, u).
Proof.
  intros Hne. unfold readSubmit, orElse, truthy. simpl.
  destruct (decide (tok = [])); [contradiction|].
  destruct (decide (tok = [])); [contradiction | reflexivity].
Qed.

(** X13. Login stores the token and logout clears it.  A 2xx response
    that carries a token and a user makes them the state of the component
    whether or not storage can be written, and when it can, the token is
    what the Token Store then reads, so that the next session check is
    sent with it.  A 2xx response that lacks the token or the user, and a
    response that is not 2xx, leave the session and the storage as they
    were and show a message.  After logout the Token Store reads as
    empty, the token and the user are gone, and no session check is
    sent. *)
Theorem login_logout_token :
  (∀ p status d tok u,
     tok ≠ [] →
     let r := SubmitResponse true status
                (Some {| b_detail := d; b_token := Some tok;
                         b_user := Some u |}) in
     let p' := settleSubmit r p in
     token (bar p') = tok ∧ user (bar p') = Some u
     ∧ submitting p' = false ∧ modalVisible p' = false
     ∧ error p' = error p
     ∧ (sessionEffect (bar p')).2 = Some (nextRun (bar p), tok)
     ∧ (accessible (storage (bar p)) = true →
        quotaExceeded (storage (bar p)) = false →
        readStoredToken (storage (bar p')) = tok))
  ∧ (∀ p status body,
       (b_user (default emptyBody body) = None
        ∨ orElse (b_token (default emptyBody body)) [] = []) →
       let p' := settleSubmit (SubmitResponse true status body) p in
       bar p' = bar p ∧ submitting p' = false
       ∧ error p' = js "Invalid auth response from server.")
  ∧ (∀ p status body,
       let p' := settleSubmit (SubmitResponse false status body) p in
       bar p' = bar p ∧ submitting p' = false
       ∧ error p' = orElse (b_detail (default emptyBody body))
                      (httpStatusText status))
  ∧ (∀ b,
       let b' := onLogout b in
       readStoredToken (storage b') = [] ∧ token b' = [] ∧ user b' = None
       ∧ (sessionEffect b').2 = None).
Proof.
  repeat apply conj.
  - intros p status d tok u Hne r p'.
    unfold p', settleSubmit, r. rewrite (readSubmit_success _ _ _ _ Hne).
    unfold closeModal, withBar, writeStoredToken, sessionEffect.
    cbn [bar token user submitting modalVisible error storage nextRun
         checkingSession aliveRun snd].
    destruct (decide (tok = [])); [contradiction|].
    repeat split. intros Ha Hq. apply read_after_store; assumption.
  - intros p status body Hbad p'.
    assert (Hr : readSubmit (SubmitResponse true status body)
                 = Throw (newError (js "Invalid auth response from server."))).
    { unfold readSubmit. cbn [negb].
      destruct (b_user (default emptyBody body)) as [u|] eqn:Eu;
        [|reflexivity].
      destruct Hbad as [H|H]; [discriminate|]. rewrite H.
      destruct (decide ([] = [])); [reflexivity | contradiction]. }
    unfold p', settleSubmit. rewrite Hr. repeat split.
  - intros p status body p'. unfold p', settleSubmit, readSubmit.
    cbn [negb]. cbn [bar submitting error].
    repeat split. apply messageOf_newError, orElse_nonempty. discriminate.
  - intros b b'. unfold b', onLogout, writeStoredToken, sessionEffect.
    cbn [token user storage snd].
    rewrite AuthFacts.read_after_clear.
    destruct (decide _) as [_|H]; [|contradiction]. repeat split.
Qed.

(** An instance of X13: a login on an empty, writable storage. *)
Lemma login_logout_token_witness :
  let p := {| bar := mount {| accessible := true; quotaExceeded := false;
                              items := ∅ |};
              mode := Some Login; modalVisible := true;
              usernameInput := js " ann "; passwordInput := js "12345678";
              submitting := true; error := []; closeTimer := false |} in
  let p' := settleSubmit
              (SubmitResponse true 200
                 (Some {| b_detail := None; b_token := Some (js "tok");
                          b_user := Some {| username := js "ann" |} |})) p in
  token (bar p') = js "tok"
  ∧ readStoredToken (storage (bar p')) = js "tok"
  ∧ readStoredToken (storage (onLogout (bar p'))) = [].
Proof.
  cbv zeta.
  match goal with
  | |- context [settleSubmit ?r ?p] =>
      destruct (proj1 login_logout_token p 200%N None (js "tok")
                  {| username := js "ann" |})
        as (H1 & _ & _ & _ & _ & _ & H7); [discriminate|]
  end.
  split; [exact H1|]. split; [apply H7; reflexivity|].
  vm_compute. reflexivity.
Defined.

(** X20. A tab follows the token that another tab writes.  The storage
    listener ignores every key but the token key, never writes to storage
    and keeps the user; for the token key it makes the token what the
    Token Store reads from the storage that the event reports.  When the
    value is removed or empty, the session effect that follows clears the
    user and sends no request; otherwise it sends a session check with
    the new token. *)
Theorem storage_event_syncs_token :
  ∀ (b : AuthBar) (st : Storage),
    accessible st = true →
    let b' := onStorage TOKEN_KEY (items st !! TOKEN_KEY) b in
    token b' = readStoredToken st
    ∧ user b' = user b
    ∧ storage b' = storage b
    ∧ (∀ key v, key ≠ TOKEN_KEY → onStorage key v b = b)
    ∧ (readStoredToken st = [] →
       user (sessionEffect b').1 = None ∧ (sessionEffect b').2 = None)
    ∧ (readStoredToken st ≠ [] →
       (sessionEffect b').2 = Some (nextRun b, readStoredToken st)).
Proof.
  intros b st Ha b'.
  assert (Htok : token b' = readStoredToken st).
  { unfold b', onStorage, readStoredToken, getItem. rewrite Ha.
    destruct (decide (TOKEN_KEY ≠ TOKEN_KEY)); [contradiction|].
    reflexivity. }
  assert (Hrest : user b' = user b ∧ storage b' = storage b
                  ∧ nextRun b' = nextRun b).
  { unfold b', onStorage.
    destruct (decide (TOKEN_KEY ≠ TOKEN_KEY)); [contradiction|].
    repeat split. }
  destruct Hrest as (Hu & Hs & Hn).
  split; [exact Htok|]. split; [exact Hu|]. split; [exact Hs|]. split.
  - intros key v Hk. unfold onStorage.
    destruct (decide (key ≠ TOKEN_KEY)); [reflexivity|contradiction].
  - unfold sessionEffect. rewrite Htok, Hn. split.
    + intros E. destruct (decide (readStoredToken st = []));
        [split; reflexivity | contradiction].
    + intros E. destruct (decide (readStoredToken st = []));
        [contradiction | reflexivity].
Qed.

(** An instance of X20: the other tab has logged in with the token tok. *)
Lemma storage_event_witness :
  let b' := onStorage TOKEN_KEY (items storedTok !! TOKEN_KEY)
              (mount {| accessible := true; quotaExceeded := false;
                        items := ∅ |}) in
  token b' = js "tok" ∧ (sessionEffect b').2 = Some (0, js "tok").
Proof.
  destruct (storage_event_syncs_token
              (mount {| accessible := true; quotaExceeded := false;
                        items := ∅ |}) storedTok eq_refl)
    as (H1 & _ & _ & _ & _ & H6).
  split; [exact H1|]. apply H6. vm_compute. discriminate.
Defined.

End AuthFormFacts.

(** ** The downloads *)

Module DownloadGateFacts.

Import EtlClean.

(** X14. A failed preview blocks the download of the cleaned file.  After
    a failure of the latest preview request that is not an abort, [onClean]
    sends nothing as long as the override is off, and it sends the request
    once the override is on (a file being selected and no download
    running).  Dropping a file turns the override off and clears the
    preview, so that the block applies again to the preview of the new
    file. *)
Theorem failed_preview_blocks_clean :
  (∀ (a : App) e lang,
     isAbortError e = false →
     Etl.previewReqRef (view a) ∉ Etl.abortedSignals (view a) →
     let a' := settlePreview (Etl.previewReqRef (view a)) (Etl.Rejects e) a in
     hasErrors (Etl.previewData (view a')) = true
     ∧ (overrideErrors a = false → (onClean lang a').2 = None)
     ∧ (overrideErrors a = true → loading a = false →
        ∀ f, file a = Some f →
             (onClean lang a').2 = Some {| cr_file := f; cr_lang := lang |}))
  ∧ (∀ (a : App) hint accepted,
       overrideErrors (onDrop hint accepted a) = false
       ∧ Etl.previewData (view (onDrop hint accepted a)) = None
       ∧ file (onDrop hint accepted a) = accepted)
  ∧ (∀ (a : App) lang, file a = None → (onClean lang a).2 = None)
  ∧ (∀ (a : App) lang, loading a = true → (onClean lang a).2 = None).
Proof.
  repeat apply conj.
  - intros a e lang Hname Hsig a'.
    assert (Hd : Etl.previewData (view a')
                 = Some (Etl.failurePreview (messageOf e))).
    { unfold a', settlePreview. cbn [view].
      change (Etl.settle (Etl.previewReqRef (view a)) (Etl.Rejects e) (view a))
        with (Etl.finallyBranch (Etl.previewReqRef (view a))
                (Etl.catchBranch (Etl.previewReqRef (view a)) e (view a))).
      rewrite (EtlFacts.etl_catchBranch_failure _ e (view a) eq_refl
                 Hname Hsig).
      reflexivity. }
    repeat split.
    + rewrite Hd. reflexivity.
    + intros Ho. unfold onClean. destruct (file a') as [f|]; [|reflexivity].
      destruct (loading a'); [reflexivity|].
      unfold blockDownload. rewrite Hd.
      change (overrideErrors a') with (overrideErrors a). rewrite Ho.
      reflexivity.
    + intros Ho Hl f Hf. unfold onClean.
      change (file a') with (file a). change (loading a') with (loading a).
      rewrite Hf, Hl. unfold blockDownload.
      change (overrideErrors a') with (overrideErrors a). rewrite Ho.
      rewrite andb_false_r. reflexivity.
  - intros a hint accepted. repeat split.
  - intros a lang Hf. unfold onClean. rewrite Hf. reflexivity.
  - intros a lang Hl. unfold onClean. rewrite Hl.
    destruct (file a); reflexivity.
Qed.

End DownloadGateFacts.

(** ** The download of the report *)

Module ReportDownloadFacts.

Import Report ReportDownload.

(** X15. The download of the report asks for what the preview of the same
    render shows.  Nothing is sent without a file or with an empty
    selection; otherwise the file, the asset, the bot flag and the coins
    of the download are those of the preview request of that render. *)
Theorem download_matches_preview :
  ∀ r : Render,
    (handleDownload r = None ↔ r_file r = None ∨ r_selected r = [])
    ∧ ∀ d, handleDownload r = Some d →
           ∃ f, r_file r = Some f
                ∧ ∀ latest,
                    dl_file d = rq_file (requestOf latest f r)
                    ∧ dl_asset d = rq_asset (requestOf latest f r)
                    ∧ dl_include_bot d
                      = rq_include_bot (requestOf latest f r)
                    ∧ dl_coins d = rq_coins (requestOf latest f r).
Proof.
  intros r. unfold handleDownload. split.
  - destruct (r_file r) as [f|]; [|split; [left; reflexivity|reflexivity]].
    destruct (decide (length (r_selected r) = 0)) as [E|E].
    + split; [|reflexivity]. intros _. right.
      destruct (r_selected r); [reflexivity|discriminate].
    + split; [discriminate|]. intros [H|H]; [discriminate|].
      rewrite H in E. contradiction.
  - intros d Hd. destruct (r_file r) as [f|]; [|discriminate].
    exists f. split; [reflexivity|]. intros latest.
    unfold requestOf. cbn [rq_file rq_asset rq_include_bot rq_coins].
    destruct (decide (length (r_selected r) = 0)); [discriminate|].
    injection Hd as <-. repeat split.
Qed.

End ReportDownloadFacts.

(** ** The language *)

Module LangFacts.

Import Theme ThemeSync Lang.

Lemma supported_elem (l : jsstring) : supported l = true → l ∈ SUPPORTED.
Proof. unfold supported. apply bool_decide_eq_true_1. Qed.

Lemma supported_nonempty (l : jsstring) : l ∈ SUPPORTED → l ≠ [].
Proof.
  unfold SUPPORTED. intros H E. subst l.
  apply elem_of_cons in H as [H|H]; [discriminate|].
  apply elem_of_cons in H as [H|H]; [discriminate|].
  inversion H.
Qed.

Lemma next_supported (lng : jsstring) :
  supported (if supported lng then lng else js "en") = true.
Proof.
  destruct (supported lng) eqn:E; [exact E|].
  apply bool_decide_eq_true_2. unfold SUPPORTED.
  apply list_elem_of_further, list_elem_of_here.
Qed.

Section LangLower.

Variable toLowerCase : jsstring -> jsstring.

Lemma getInitialLang_supported (st : Storage) (nav : option jsstring) :
  getInitialLang toLowerCase st nav ∈ SUPPORTED.
Proof.
  assert (Hen : js "en" ∈ SUPPORTED)
    by (apply list_elem_of_further, list_elem_of_here).
  assert (Hth : js "th" ∈ SUPPORTED) by apply list_elem_of_here.
  unfold getInitialLang.
  destruct (getItem LANG_STORAGE_KEY st) as [saved|]; [|exact Hen].
  destruct (truthy saved) as [s|].
  - destruct (supported s) eqn:E; [apply supported_elem, E|].
    destruct (startsWith _ _); assumption.
  - destruct (startsWith _ _); assumption.
Qed.

(** X16. Only a supported language is used and stored.  The initial
    language is th or en, whatever the storage and the navigator hold.
    setAppLanguage does nothing when the current language starts with
    the language asked for; otherwise the language becomes the one asked
    for if it is supported and en if not, and when the storage takes the
    write, the next load starts in that language whatever the navigator
    says. *)
Theorem language_is_supported_and_kept :
  ∀ (lng : jsstring) (w : World) (nav : option jsstring),
    let next := if supported lng then lng else js "en" in
    let w' := setAppLanguage toLowerCase lng w in
    getInitialLang toLowerCase (langStorage w) nav ∈ SUPPORTED
    ∧ next ∈ SUPPORTED
    ∧ (startsWith (trim (toLowerCase (language w))) next = true → w' = w)
    ∧ (startsWith (trim (toLowerCase (language w))) next = false →
       language w' = next
       ∧ (accessible (langStorage w) = true →
          quotaExceeded (langStorage w) = false →
          getInitialLang toLowerCase (langStorage w') nav = next)
       ∧ (accessible (langStorage w) = false
          ∨ quotaExceeded (langStorage w) = true →
          langStorage w' = langStorage w)).
Proof.
  intros lng w nav next w'.
  assert (Hs : supported next = true) by apply next_supported.
  split; [apply getInitialLang_supported|].
  split; [apply supported_elem, Hs|].
  split.
  - intros H. unfold w', setAppLanguage. fold next. rewrite H. reflexivity.
  - intros H. unfold w', setAppLanguage. fold next. rewrite H.
    cbn [language langStorage animateLanguageSwitch].
    split; [reflexivity|]. split.
    + intros Ha Hq. unfold setItem. rewrite Ha, Hq. cbn [andb negb].
      unfold getInitialLang, getItem. cbn [accessible items].
      rewrite lookup_insert_eq. unfold truthy.
      destruct (decide (next = [])) as [E|_].
      * exfalso. exact (supported_nonempty next (supported_elem _ Hs) E).
      * rewrite Hs. reflexivity.
    + intros Hw. unfold setItem.
      destruct Hw as [Hw|Hw]; rewrite Hw; [reflexivity|].
      rewrite andb_false_r. reflexivity.
Qed.

End LangLower.

(** *** The transition marker *)

Lemma appTargets_marked (on : bool) (targets : list nat) :
  ∀ d, appTargets (fold_left (markElement on) targets d) = appTargets d.
Proof.
  induction targets as [|el r IH]; intros d; simpl; [reflexivity|].
  rewrite IH. reflexivity.
Qed.

Lemma classList_markElement (on : bool) (d : Document) (el x : nat) :
  classList (element (markElement on d el) x)
  = if decide (el = x)
    then classToggle LANG_TRANSITION_CLASS on (classList (element d x))
    else classList (element d x).
Proof.
  unfold element at 1, markElement. cbn [elements].
  destruct (decide (el = x)) as [->|Hne].
  - rewrite lookup_insert_eq. reflexivity.
  - rewrite lookup_insert_ne by exact Hne. reflexivity.
Qed.

(** After the loop that adds the class, every target carries it. *)
Lemma targets_marked (targets : list nat) (x : nat) :
  ∀ d,
    x ∈ targets ∨ LANG_TRANSITION_CLASS ∈ classList (element d x) →
    LANG_TRANSITION_CLASS
      ∈ classList (element (fold_left (markElement true) targets d) x).
Proof.
  induction targets as [|el r IH]; intros d H; simpl.
  - destruct H as [H|H]; [inversion H | exact H].
  - apply IH. rewrite classList_markElement.
    destruct (decide (el = x)) as [->|Hne]; [right; apply ThemeSyncFacts.classToggle_on|].
    destruct H as [H|H]; [|right; exact H].
    apply elem_of_cons in H as [->|H]; [contradiction | left; exact H].
Qed.

(** After the loop that removes the class, no target carries it. *)
Lemma targets_unmarked (targets : list nat) (x : nat) :
  ∀ d,
    x ∈ targets ∨ LANG_TRANSITION_CLASS ∉ classList (element d x) →
    LANG_TRANSITION_CLASS
      ∉ classList (element (fold_left (markElement false) targets d) x).
Proof.
  induction targets as [|el r IH]; intros d H; simpl.
  - destruct H as [H|H]; [inversion H | exact H].
  - apply IH. rewrite classList_markElement.
    destruct (decide (el = x)) as [->|Hne]; [right; apply ThemeSyncFacts.classToggle_off|].
    destruct H as [H|H]; [|right; exact H].
    apply elem_of_cons in H as [->|H]; [contradiction | left; exact H].
Qed.

(** Neither loop touches another class, on any element. *)
Lemma other_classes_kept (on : bool) (targets : list nat) (x : nat)
    (c : jsstring) :
  c ≠ LANG_TRANSITION_CLASS →
  ∀ d,
    c ∈ classList (element (fold_left (markElement on) targets d) x)
    ↔ c ∈ classList (element d x).
Proof.
  intros Hc. induction targets as [|el r IH]; intros d; simpl; [tauto|].
  rewrite IH, classList_markElement.
  destruct (decide (el = x)); [|tauto].
  apply ThemeSyncFacts.classToggle_other, Hc.
Qed.

Lemma held_timer_cleared (w : World) :
  OneTimer w →
  match langTransitionTimer w with
  | Some held => filter (fun t => lt_id t ≠ held) (langTimers w)
  | None => langTimers w
  end = [].
Proof.
  unfold OneTimer. intros H.
  destruct (langTransitionTimer w) as [held|].
  - induction H as [|t r Ht _ IH]; [reflexivity|].
    rewrite filter_cons. injection Ht as ->.
    destruct (decide (lt_id t ≠ lt_id t)); [contradiction|]. exact IH.
  - destruct H as [|t r Ht _]; [reflexivity|discriminate].
Qed.

Lemma animate_armed (d0 : Document) (w : World) :
  OneTimer w →
  appTargets (page w) = appTargets d0 →
  (∀ x c, c ≠ LANG_TRANSITION_CLASS →
          c ∈ classList (element (page w) x)
          ↔ c ∈ classList (element d0 x)) →
  Armed d0 (animateLanguageSwitch w).
Proof.
  intros H1 HT Hother.
  exists {| lt_id := nextLangTimer w;
            lt_due := langClock w + LANG_TRANSITION_MS;
            lt_targets := appTargets (page w) |}.
  unfold animateLanguageSwitch.
  cbn [langTimers langTransitionTimer langClock page lt_id lt_due lt_targets].
  rewrite (held_timer_cleared w H1), appTargets_marked.
  split; [reflexivity|]. split; [reflexivity|]. split; [reflexivity|].
  split; [exact HT|]. split; [exact HT|]. split.
  - intros x Hx. apply targets_marked. left. rewrite HT. exact Hx.
  - intros x c Hc. rewrite (other_classes_kept true _ x c Hc).
    apply Hother, Hc.
Qed.

(** While the timer is not due, the passing of time changes the clock
    only. *)
Lemma armed_waits (d0 : Document) (w : World) (gap : nat) :
  Armed d0 w → gap < LANG_TRANSITION_MS →
  OneTimer (langElapse gap w)
  ∧ page (langElapse gap w) = page w.
Proof.
  intros (t & Ht & Href & Hdue & _) Hgap.
  unfold langElapse. rewrite Ht. cbn [length runLangTimers langClock
    langTimers]. unfold nextLangDue. cbn [fold_left].
  destruct (decide (lt_due t ≤ langClock w + gap)) as [Hle|_]; [lia|].
  cbn [page]. split; [|reflexivity].
  unfold OneTimer. cbn [langTimers langTransitionTimer].
  rewrite Href. constructor; [reflexivity|constructor].
Qed.

Lemma burst_armed (d0 : Document) (gaps : list nat) :
  Forall (fun gap => gap < LANG_TRANSITION_MS) gaps →
  ∀ w, Armed d0 w → Armed d0 (animateBurst gaps w).
Proof.
  induction 1 as [|gap rest Hgap _ IH]; intros w Hw; [exact Hw|].
  cbn [animateBurst]. apply IH.
  destruct (armed_waits d0 w gap Hw Hgap) as [H1 Hp].
  destruct Hw as (t & _ & _ & _ & _ & HT & _ & Hother).
  apply animate_armed; [exact H1 | rewrite Hp; exact HT |].
  intros x c Hc. rewrite Hp. apply Hother, Hc.
Qed.

(** X17. The transition marker of a language switch is removed once,
    260 ms after the last switch.  After switches that follow one another
    by less than 260 ms, html, body and the root element carry the class
    lang-switching and one timer is pending; once 260 ms or more have
    passed, no timer is pending, none is held, none of these elements
    carries the class, and no other class of any element has changed. *)
Theorem language_marker_removed_once :
  ∀ (w : World) (gaps : list nat),
    OneTimer w →
    Forall (fun gap => gap < LANG_TRANSITION_MS) gaps →
    let busy := animateBurst gaps (animateLanguageSwitch w) in
    (∀ x, x ∈ appTargets (page w) →
          LANG_TRANSITION_CLASS ∈ classList (element (page busy) x))
    ∧ length (langTimers busy) = 1
    ∧ ∀ dt, LANG_TRANSITION_MS ≤ dt →
        let done := langElapse dt busy in
        langTimers done = []
        ∧ langTransitionTimer done = None
        ∧ (∀ x, x ∈ appTargets (page w) →
                LANG_TRANSITION_CLASS ∉ classList (element (page done) x))
        ∧ (∀ x c, c ≠ LANG_TRANSITION_CLASS →
                  c ∈ classList (element (page done) x)
                  ↔ c ∈ classList (element (page w) x)).
Proof.
  intros w gaps H1 Hgaps busy.
  assert (Hbusy : Armed (page w) busy).
  { apply burst_armed; [exact Hgaps|].
    apply animate_armed; [exact H1 | reflexivity | tauto]. }
  destruct Hbusy as (t & Ht & Href & Hdue & Htt & HT & Hmark & Hother).
  split; [exact Hmark|]. split; [rewrite Ht; reflexivity|].
  intros dt Hdt done. unfold done, langElapse. rewrite Ht.
  cbn [length runLangTimers langClock langTimers]. unfold nextLangDue.
  cbn [fold_left].
  destruct (decide (lt_due t ≤ langClock busy + dt)) as [_|Hn]; [|lia].
  cbn [lt_id]. rewrite filter_cons.
  destruct (decide (lt_id t ≠ lt_id t)); [contradiction|].
  rewrite filter_nil. unfold langTimerCallback.
  cbn [langTimers langTransitionTimer page]. rewrite Htt.
  split; [reflexivity|]. split; [reflexivity|]. split.
  - intros x Hx. apply targets_unmarked. left. exact Hx.
  - intros x c Hc. rewrite (other_classes_kept false _ x c Hc).
    apply Hother, Hc.
Qed.

(** An instance of X17: three switches, 100 ms and 200 ms apart. *)
Lemma language_marker_witness :
  let busy := animateBurst [100; 200] (animateLanguageSwitch quietWorld) in
  (∀ x, x ∈ appTargets (page quietWorld) →
        LANG_TRANSITION_CLASS ∈ classList (element (page busy) x))
  ∧ length (langTimers busy) = 1
  ∧ ∀ dt, LANG_TRANSITION_MS ≤ dt →
      let done := langElapse dt busy in
      langTimers done = []
      ∧ langTransitionTimer done = None
      ∧ (∀ x, x ∈ appTargets (page quietWorld) →
              LANG_TRANSITION_CLASS ∉ classList (element (page done) x))
      ∧ (∀ x c, c ≠ LANG_TRANSITION_CLASS →
                c ∈ classList (element (page done) x)
                ↔ c ∈ classList (element (page quietWorld) x)).
Proof.
  apply (language_marker_removed_once quietWorld [100; 200]).
  - constructor.
  - unfold LANG_TRANSITION_MS. repeat constructor; lia.
Defined.

End LangFacts.

(** ** The page transition *)

Module PageTransitionFacts.

Import PageTransition.

Ltac open_router r :=
  destruct r as [p dp ph ts ref nxt clk cl deps];
  cbn [path displayPath pageTransitionPhase pageTimers
       pageTransitionTimerRef nextPageTimer pageClock hasCleanup effectDeps]
    in *.

Ltac run_router :=
  cbn [path displayPath pageTransitionPhase pageTimers
       pageTransitionTimerRef nextPageTimer pageClock hasCleanup effectDeps
       pt_id pt_due pt_run fold_left app].

Ltac run_router_in E :=
  cbn [path displayPath pageTransitionPhase pageTimers
       pageTransitionTimerRef nextPageTimer pageClock hasCleanup effectDeps
       pt_id pt_due pt_run fold_left app] in E.

Lemma filter_own (t : PageTimer) :
  filter (fun x => pt_id x ≠ pt_id t) [t] = [].
Proof.
  rewrite filter_cons.
  destruct (decide (pt_id t ≠ pt_id t)); [contradiction|]. reflexivity.
Qed.

Lemma mounted_Settled (p : jsstring) : Settled (mounted p).
Proof.
  unfold mounted, transitionEffect. run_router.
  destruct (decide (p = p)); [|contradiction].
  unfold recordRun, Settled. run_router. repeat split.
Qed.

Lemma fire_Settled (r : Router) : Settled r → fire r = None.
Proof.
  intros (_ & Hts & _). unfold fire. rewrite Hts. reflexivity.
Qed.

(** A change of the path at rest sets the timer of the exit phase. *)
Lemma setPath_starts (r : Router) (to : jsstring) :
  Settled r → to ≠ path r →
  Waiting (startExit to) (pageClock r) (setPath to r)
  ∧ path (setPath to r) = to
  ∧ displayPath (setPath to r) = displayPath r
  ∧ pageTransitionPhase (setPath to r) = pageTransitionPhase r
  ∧ pageClock (setPath to r) = pageClock r.
Proof.
  intros (Hp & Hts & Href & Hcl & Hdeps) Hto. open_router r.
  subst dp ts ref cl deps.
  unfold setPath, render. run_router.
  destruct (decide ((p, p) = (p, to))) as [E|_]; [congruence|].
  unfold transitionEffect. run_router.
  destruct (decide (to = p)) as [E|_]; [congruence|].
  unfold clearPageTransitionTimer. run_router.
  unfold holdTimeout, recordRun. run_router.
  split; [|repeat split].
  eexists. run_router.
  split; [reflexivity|]. run_router. repeat split; lia.
Qed.

(** A change of the path during a transition cancels it, and starts
    another one unless the new path is the one displayed. *)
Lemma setPath_during (r : Router) (cb : Callback) (due : nat)
    (to : jsstring) :
  Waiting cb due r → to ≠ path r →
  path (setPath to r) = to
  ∧ displayPath (setPath to r) = displayPath r
  ∧ pageTransitionPhase (setPath to r) = pageTransitionPhase r
  ∧ pageClock (setPath to r) = pageClock r
  ∧ (to = displayPath r → Settled (setPath to r))
  ∧ (to ≠ displayPath r →
     Waiting (startExit to) (pageClock r) (setPath to r)).
Proof.
  intros (t & Hts & Href & _ & _ & _ & Hcl & Hdeps) Hto. open_router r.
  subst ts ref cl deps.
  remember (setPath to _) as r' eqn:E.
  unfold setPath, render in E. run_router_in E.
  destruct (decide ((dp, p) = (dp, to))) as [E'|_]; [congruence|].
  unfold transitionEffect in E. run_router_in E.
  unfold clearPageTransitionTimer in E. run_router_in E.
  rewrite (filter_own t) in E.
  destruct (decide (to = dp)) as [E'|E'].
  - unfold recordRun in E. run_router_in E. subst r'.
    unfold Settled. run_router. repeat split; congruence.
  - unfold holdTimeout, recordRun in E. run_router_in E. subst r'.
    run_router.
    split; [reflexivity|]. split; [reflexivity|]. split; [reflexivity|].
    split; [reflexivity|]. split; [intros; contradiction|]. intros _.
    eexists. run_router.
    split; [reflexivity|]. run_router. repeat split; lia.
Qed.

(** The first timer starts the exit phase and sets the second. *)
Lemma fire_startExit (r : Router) (q : jsstring) (due : nat) :
  Waiting (startExit q) due r →
  ∃ r',
    fire r = Some r'
    ∧ Waiting (showPage q) (due + PAGE_TRANSITION_EXIT_MS) r'
    ∧ path r' = path r
    ∧ displayPath r' = displayPath r
    ∧ pageTransitionPhase r' = exit
    ∧ pageClock r' = due.
Proof.
  intros (t & Hts & Href & Hcb & Hdue & Hclk & Hcl & Hdeps). open_router r.
  subst ts ref cl deps due.
  eexists. unfold fire, earliest. run_router.
  rewrite (filter_own t), Hcb.
  unfold runCallback, setPageTransitionPhase, holdTimeout, render.
  run_router.
  destruct (decide ((dp, p) = (dp, p))) as [_|]; [|contradiction].
  split; [reflexivity|]. run_router.
  split; [|repeat split; lia].
  eexists. run_router.
  split; [reflexivity|]. run_router. repeat split; lia.
Qed.

(** The second timer displays the page and starts the enter phase; the
    third, which it sets, is cleared by the cleanup of the effect. *)
Lemma fire_showPage (r : Router) (due : nat) :
  Waiting (showPage (path r)) due r →
  path r ≠ displayPath r →
  ∃ r',
    fire r = Some r'
    ∧ Settled r'
    ∧ path r' = path r
    ∧ displayPath r' = path r
    ∧ pageTransitionPhase r' = enter
    ∧ pageClock r' = due.
Proof.
  intros (t & Hts & Href & Hcb & Hdue & Hclk & Hcl & Hdeps) Hne.
  open_router r.
  subst ts ref cl deps due.
  eexists. unfold fire, earliest. run_router.
  rewrite (filter_own t), Hcb.
  unfold runCallback, setPageTransitionPhase, setDisplayPath, holdTimeout,
    render.
  run_router.
  destruct (decide ((dp, p) = (p, p))) as [E|_]; [congruence|].
  unfold transitionEffect. run_router.
  unfold clearPageTransitionTimer. run_router.
  rewrite filter_cons. run_router.
  destruct (decide (nxt ≠ nxt)); [contradiction|]. rewrite filter_nil.
  destruct (decide (p = p)) as [_|]; [|contradiction].
  unfold recordRun. run_router.
  split; [reflexivity|]. unfold Settled. run_router. repeat split; lia.
Qed.

(** X18. A navigation runs the page transition to the phase enter, and
    there it stays.  From a router at rest, a change of the path leaves
    the displayed page and the phase as they are and sets one timer; when
    it fires, at once, the phase is exit; 190 ms later the page of the new
    path is displayed and the phase is enter; the timer that would set
    the phase back to idle is cleared by the cleanup of the effect, which
    runs because the displayed path has changed, so nothing is pending
    and the router is at rest again with the phase enter. *)
Theorem page_transition_ends_in_enter :
  ∀ (r : Router) (to : jsstring),
    Settled r → to ≠ path r →
    ∃ r2 r3,
      fire (setPath to r) = Some r2
      ∧ fire r2 = Some r3
      ∧ fire r3 = None
      ∧ displayPath (setPath to r) = displayPath r
      ∧ pageTransitionPhase (setPath to r) = pageTransitionPhase r
      ∧ length (pageTimers (setPath to r)) = 1
      ∧ pageClock r2 = pageClock r
      ∧ displayPath r2 = displayPath r
      ∧ pageTransitionPhase r2 = exit
      ∧ pageClock r3 = pageClock r + PAGE_TRANSITION_EXIT_MS
      ∧ path r3 = to
      ∧ displayPath r3 = to
      ∧ pageTransitionPhase r3 = enter
      ∧ Settled r3.
Proof.
  intros r to H Hto.
  assert (Hdp : displayPath r = path r) by (symmetry; apply H).
  destruct (setPath_starts r to H Hto) as (W1 & P1 & D1 & Ph1 & C1).
  destruct (fire_startExit _ _ _ W1) as (r2 & F2 & W2 & P2 & D2 & Ph2 & C2).
  assert (P2' : path r2 = to) by congruence.
  rewrite <- P2' in W2.
  destruct (fire_showPage _ _ W2) as (r3 & F3 & S3 & P3 & D3 & Ph3 & C3).
  { rewrite P2', D2, D1, Hdp. exact Hto. }
  exists r2, r3.
  split; [exact F2|]. split; [exact F3|].
  split; [apply fire_Settled, S3|].
  split; [exact D1|]. split; [exact Ph1|]. split.
  { destruct W1 as (t & Ht & _). rewrite Ht. reflexivity. }
  split; [exact C2|]. split; [congruence|]. split; [exact Ph2|].
  split; [exact C3|]. split; [congruence|]. split; [congruence|].
  split; [exact Ph3 | exact S3].
Qed.

(** An instance of X18: from the first render at the root path to the
    report page. *)
Lemma page_transition_witness :
  ∃ r2 r3,
    fire (setPath (js "/report-price") (mounted (js "/"))) = Some r2
    ∧ fire r2 = Some r3
    ∧ fire r3 = None
    ∧ displayPath (setPath (js "/report-price") (mounted (js "/")))
      = displayPath (mounted (js "/"))
    ∧ pageTransitionPhase (setPath (js "/report-price") (mounted (js "/")))
      = pageTransitionPhase (mounted (js "/"))
    ∧ length (pageTimers (setPath (js "/report-price") (mounted (js "/"))))
      = 1
    ∧ pageClock r2 = pageClock (mounted (js "/"))
    ∧ displayPath r2 = displayPath (mounted (js "/"))
    ∧ pageTransitionPhase r2 = exit
    ∧ pageClock r3 = pageClock (mounted (js "/")) + PAGE_TRANSITION_EXIT_MS
    ∧ path r3 = js "/report-price"
    ∧ displayPath r3 = js "/report-price"
    ∧ pageTransitionPhase r3 = enter
    ∧ Settled r3.
Proof.
  apply (page_transition_ends_in_enter (mounted (js "/"))
           (js "/report-price")).
  - apply mounted_Settled.
  - vm_compute. discriminate.
Defined.

(** X19. A navigation during the exit phase cancels the transition under
    way: the page of the abandoned path is never displayed.  If the new
    path is the one still displayed, nothing is pending afterwards and
    the phase stays exit; otherwise the transition starts again, the
    displayed page is unchanged until 190 ms after the new navigation,
    and then it is the page of the new path. *)
Theorem navigation_during_exit :
  ∀ (r r2 : Router) (to : jsstring),
    Settled r → to ≠ path r →
    fire (setPath to r) = Some r2 →
    (fire (setPath (path r) r2) = None
     ∧ path (setPath (path r) r2) = path r
     ∧ displayPath (setPath (path r) r2) = path r
     ∧ pageTransitionPhase (setPath (path r) r2) = exit)
    ∧ ∀ to2, to2 ≠ path r → to2 ≠ to →
        ∃ a b,
          fire (setPath to2 r2) = Some a
          ∧ fire a = Some b
          ∧ fire b = None
          ∧ length (pageTimers (setPath to2 r2)) = 1
          ∧ displayPath (setPath to2 r2) = path r
          ∧ displayPath a = path r
          ∧ displayPath b = to2
          ∧ pageClock b = pageClock r2 + PAGE_TRANSITION_EXIT_MS.
Proof.
  intros r r2 to H Hto Hfire.
  assert (Hdp : displayPath r = path r) by (symmetry; apply H).
  destruct (setPath_starts r to H Hto) as (W1 & P1 & D1 & Ph1 & C1).
  destruct (fire_startExit _ _ _ W1) as (r2' & F2 & W2 & P2 & D2 & Ph2 & C2).
  rewrite Hfire in F2. injection F2 as <-.
  assert (Hpath2 : path r2 = to) by congruence.
  assert (Hdisp2 : displayPath r2 = path r) by congruence.
  split.
  - destruct (setPath_during r2 _ _ (path r) W2)
      as (Pb & Db & Phb & _ & Sb & _); [congruence|].
    split; [apply fire_Settled, Sb; congruence|].
    split; [exact Pb|]. split; congruence.
  - intros to2 H2 H2'.
    destruct (setPath_during r2 _ _ to2 W2)
      as (Pa & Da & Pha & Ca & _ & Wa); [congruence|].
    specialize (Wa ltac:(congruence)).
    destruct (fire_startExit _ _ _ Wa)
      as (a & Fa & Wb & Pb & Db & Phb & Cb).
    assert (Pa' : path a = to2) by congruence.
    rewrite <- Pa' in Wb.
    destruct (fire_showPage _ _ Wb) as (b & Fb & Sb & Pb' & Db' & _ & Cb').
    { rewrite Pa', Db, Da, Hdisp2. exact H2. }
    exists a, b.
    split; [exact Fa|]. split; [exact Fb|].
    split; [apply fire_Settled, Sb|]. split.
    { destruct Wa as (t & Ht & _). rewrite Ht. reflexivity. }
    split; [congruence|]. split; [congruence|]. split; [congruence|].
    exact Cb'.
Qed.

(** An instance of X19: from the root path to the report page, and on in
    the exit phase. *)
Lemma navigation_during_exit_witness :
  let r := mounted (js "/") in
  let to := js "/report-price" in
  let r2 := default r (fire (setPath to r)) in
  (fire (setPath (path r) r2) = None
   ∧ path (setPath (path r) r2) = path r
   ∧ displayPath (setPath (path r) r2) = path r
   ∧ pageTransitionPhase (setPath (path r) r2) = exit)
  ∧ ∀ to2, to2 ≠ path r → to2 ≠ to →
      ∃ a b,
        fire (setPath to2 r2) = Some a
        ∧ fire a = Some b
        ∧ fire b = None
        ∧ length (pageTimers (setPath to2 r2)) = 1
        ∧ displayPath (setPath to2 r2) = path r
        ∧ displayPath a = path r
        ∧ displayPath b = to2
        ∧ pageClock b = pageClock r2 + PAGE_TRANSITION_EXIT_MS.
Proof.
  intros r to r2.
  apply (navigation_during_exit r r2 to).
  - apply mounted_Settled.
  - vm_compute. discriminate.
  - vm_compute. reflexivity.
Defined.

End PageTransitionFacts.
